(** * Compute Engine: boxed expressions, canonical forms, pattern matching,
      simplify / evaluate / N pipelines and the LaTeX front and back ends.

    A shallow embedding of

      - [src/compute-engine/boxed-expression/boxed-function.ts]
        ([BoxedFunction], [makeCanonicalFunction], [holdMap], [lambda],
        [cheapest], [applicable], [flattenSequence]);
      - [src/compute-engine/latex-syntax/latex-syntax.ts] ([LatexSyntax.parse]);
      - [src/compute-engine/latex-syntax/dictionary/definitions-arithmetic.ts]
        ([numeratorDenominator], [serializeMultiply], [serializeFraction],
        [serializeRoot]).

    Objects are trees that carry their object identity ([oid]); the mutable
    private fields of [BoxedFunction] ([_canonical], [_numericValue],
    [_isPure]) live in the engine state, keyed by [oid].  JavaScript's
    [===] on objects is equality of [oid]s. *)

From Stdlib Require Import ZArith QArith Lia Lqa Bool Arith Ascii String Sorted.
From stdpp Require Import gmap strings list pretty.

Set Default Proof Using "Type".
Open Scope string_scope.
Open Scope list_scope.

(* ================================================================== *)
(** * Numeric kinds *)
(* ================================================================== *)

(** A JavaScript [number].  Finite values are kept exact; the operations
    the sources perform on them (negation, comparison with [-1], [0], [1])
    are exact on IEEE doubles as well.  The sign of zero is not tracked. *)
Inductive JSNumber : Type :=
| JSNaN
| JSInfinity (negative : bool)
| JSFinite (q : Q).

Definition js_of_Z (z : Z) : JSNumber := JSFinite (inject_Z z).

(** [a === b] on numbers: [NaN] is different from everything. *)
Definition js_eqb (a b : JSNumber) : bool :=
  match a, b with
  | JSFinite x, JSFinite y => Qeq_bool x y
  | JSInfinity x, JSInfinity y => Bool.eqb x y
  | _, _ => false
  end.

(** [a < b] on numbers: any comparison with [NaN] is [false]. *)
Definition js_ltb (a b : JSNumber) : bool :=
  match a, b with
  | JSNaN, _ | _, JSNaN => false
  | JSFinite x, JSFinite y => negb (Qle_bool y x)
  | JSFinite _, JSInfinity neg => negb neg
  | JSInfinity neg, JSFinite _ => neg
  | JSInfinity x, JSInfinity y => x && negb y
  end.

(** Unary minus. *)
Definition js_neg (a : JSNumber) : JSNumber :=
  match a with
  | JSNaN => JSNaN
  | JSInfinity neg => JSInfinity (negb neg)
  | JSFinite x => JSFinite (- x)
  end.

Definition js_isNaN (a : JSNumber) : bool :=
  match a with JSNaN => true | _ => false end.

(** An arbitrary-precision decimal (decimal.js), [mantissa * 10 ^ exponent]. *)
Record Decimal : Type := mkDecimal { mantissa : Z; exponent : Z }.

(** A complex number (complex.js). *)
Record Complex : Type := mkComplex { re : JSNumber; im : JSNumber }.

(** The numeric representations of a boxed number: exactly one is populated. *)
Inductive NumericValue : Type :=
| MachineValue (x : JSNumber)
| BignumValue (d : Decimal)
| ComplexValue (z : Complex)
| RationalValue (numer denom : Z).

(** [NumericMode] of [public.ts]. *)
Inductive NumericMode : Type := ModeAuto | ModeMachine | ModeBignum | ModeComplex.

(* ================================================================== *)
(** * Function definitions *)
(* ================================================================== *)

(** The [hold] policy of a function definition. *)
Inductive HoldPolicy : Type :=
| HoldNone | HoldAll | HoldFirst | HoldRest | HoldLast | HoldMost.

(** The data of a [BoxedFunctionDefinition]: [FunctionDefinitionFlags],
    [complexity] and [hold].  The handler bundle ([signature]) holds
    closures over boxed expressions; it is resolved from the definition by
    the library, see [signature] in [Library] below. *)
Record BoxedFunctionDefinition : Type := mkFunctionDefinition {
  name : string;
  associative : bool;
  commutative : bool;
  idempotent : bool;
  involution : bool;
  pure : option bool;
  inert : bool;
  scoped : bool;
  complexity : Z;
  hold : HoldPolicy
}.

(* ================================================================== *)
(** * Boxed expressions *)
(* ================================================================== *)

(** The leaves: [BoxedNumber], [BoxedSymbol], [BoxedString]. *)
Inductive Atom : Type :=
| ANumber (v : NumericValue)
| ASymbol (sym : string)
| AString (str : string).

(** [_head: string | BoxedLambdaExpression]. *)
Inductive Head (E : Type) : Type :=
| HName (s : string)
| HExpr (e : E).
Arguments HName {E} s.
Arguments HExpr {E} e.

(** A boxed expression.  [BoxedFunction oid _head _ops _def] has the
    read-only fields of the class; [_def] is [None] for the source's [null]
    ("not fetched"). *)
#[local] Unset Elimination Schemes.
Inductive BoxedExpression : Type :=
| BoxedFunction (oid : nat) (_head : Head BoxedExpression)
    (_ops : list BoxedExpression) (_def : option BoxedFunctionDefinition)
| BoxedAtom (oid : nat) (a : Atom).
#[local] Set Elimination Schemes.

Definition oid_of (e : BoxedExpression) : nat :=
  match e with
  | BoxedFunction oid _ _ _ => oid
  | BoxedAtom oid _ => oid
  end.

(** [a === b] on objects. *)
Definition same_object (a b : BoxedExpression) : bool :=
  Nat.eqb (oid_of a) (oid_of b).

(** [typeof h === 'string' && h === s] for a head. *)
Definition head_is {E} (h : Head E) (s : string) : bool :=
  match h with
  | HName n => String.eqb n s
  | HExpr _ => false
  end.

(** [BoxedExpression.head]: "If not a function this can be [Symbol],
    [String], [Number] or [Dictionary]" (public.ts). *)
Definition head (e : BoxedExpression) : Head BoxedExpression :=
  match e with
  | BoxedFunction _ h _ _ => h
  | BoxedAtom _ (ANumber _) => HName "Number"
  | BoxedAtom _ (ASymbol _) => HName "Symbol"
  | BoxedAtom _ (AString _) => HName "String"
  end.

(** [BoxedExpression.ops]: [null] when the expression is not a function. *)
Definition ops (e : BoxedExpression) : option (list BoxedExpression) :=
  match e with
  | BoxedFunction _ _ xs _ => Some xs
  | BoxedAtom _ _ => None
  end.

Definition nops (e : BoxedExpression) : nat :=
  match e with
  | BoxedFunction _ _ xs _ => length xs
  | BoxedAtom _ _ => 0
  end.

(** Boxed singleton constants of the engine ([ce.symbol('Nothing')],
    [ce._NAN]); their object identities are reserved. *)
Definition Nothing : BoxedExpression := BoxedAtom 0 (ASymbol "Nothing").
Definition _NAN : BoxedExpression := BoxedAtom 1 (ANumber (MachineValue JSNaN)).
Definition first_free_oid : nat := 2.

(** [get op1(): this._ops[0] ?? this.engine.symbol('Nothing')]. *)
Definition op1 (e : BoxedExpression) : BoxedExpression :=
  match e with
  | BoxedFunction _ _ (x :: _) _ => x
  | _ => Nothing
  end.

Definition op2 (e : BoxedExpression) : BoxedExpression :=
  match e with
  | BoxedFunction _ _ (_ :: x :: _) _ => x
  | _ => Nothing
  end.

(** [BoxedExpression.symbol]: the name when the expression is a symbol. *)
Definition symbol (e : BoxedExpression) : option string :=
  match e with
  | BoxedAtom _ (ASymbol s) => Some s
  | _ => None
  end.

(** [isLiteral]: "the expression is either a number, a string or a
    dictionary.  Functions and symbols are not literals" (public.ts);
    [BoxedFunction.isLiteral] returns [false]. *)
Definition isLiteral (e : BoxedExpression) : bool :=
  match e with
  | BoxedAtom _ (ANumber _) | BoxedAtom _ (AString _) => true
  | _ => false
  end.

Definition complexValue (e : BoxedExpression) : option Complex :=
  match e with
  | BoxedAtom _ (ANumber (ComplexValue z)) => Some z
  | _ => None
  end.

Definition bignumValue (e : BoxedExpression) : option Decimal :=
  match e with
  | BoxedAtom _ (ANumber (BignumValue d)) => Some d
  | _ => None
  end.

(* ================================================================== *)
(** * Engine state and the computation monad *)
(* ================================================================== *)

(** One frame of the scope stack: the function definitions it binds. *)
Definition Scope : Type := list BoxedFunctionDefinition.

(** The mutable state: the allocator of object identities, the objects
    that the constructors have registered with the engine
    ([ce._register(this)]), the private caches of every [BoxedFunction]
    and the engine configuration. *)
Record Engine : Type := mkEngine {
  next_oid : nat;
  objects : gmap nat BoxedExpression;
  _canonical : gmap nat BoxedExpression;
  _numericValue : gmap nat BoxedExpression;
  _isPure : gmap nat bool;
  context : list Scope;
  numericMode : NumericMode;
  iterationLimit : nat
}.

(** A computation reads and writes a state [S] and may fail to return
    (it diverges or throws, or a handler of the library does). *)
Definition ST (S A : Type) : Type := S -> option (A * S).

Definition ret {S A} (x : A) : ST S A := fun s => Some (x, s).

Definition bind {S A B} (m : ST S A) (f : A -> ST S B) : ST S B :=
  fun s => match m s with
           | Some (x, s') => f x s'
           | None => None
           end.

Definition diverge {S A} : ST S A := fun _ => None.
(** A [TypeError] that nothing catches. *)
Definition throw {S A} : ST S A := fun _ => None.
Definition get_state {S} : ST S S := fun s => Some (s, s).
Definition put_state {S} (s : S) : ST S unit := fun _ => Some (tt, s).

(** The computations of the compute engine. *)
Definition M : Type -> Type := ST Engine.
Definition get_engine : M Engine := get_state.
Definition put_engine (s : Engine) : M unit := put_state s.

Notation "'let*' x ':=' m 'in' k" := (bind m (fun x => k))
  (at level 10, x name, m at level 100, k at level 200).

(** [xs.map(f)] with an effectful [f], left to right. *)
Definition mapM {S A B} (f : A -> ST S B) : list A -> ST S (list B) :=
  fix go (xs : list A) : ST S (list B) :=
    match xs with
    | [] => ret []
    | x :: xs' => let* y := f x in let* ys := go xs' in ret (y :: ys)
    end.

(* ================================================================== *)
(** * The library: handlers, leaf classes and engine services *)
(* ================================================================== *)

(** [BoxedRuleSet]: the compiled rules ([lhs], [rhs], [priority]). *)
Definition BoxedRuleSet : Type := list (BoxedExpression * BoxedExpression * Z).

(** [Substitution]: an object mapping wildcard names to expressions. *)
Abbreviation Substitution := (gmap string BoxedExpression).

Record SimplifyOptions : Type := mkSimplifyOptions {
  rules : option BoxedRuleSet
}.

(** The value of [sgn]: [-1 | 0 | 1 | undefined | null]. *)
Inductive Sgn : Type :=
| Sign (s : Z)
| SgnUndefined
| SgnNull.

(** [BoxedFunctionSignature]: the handlers of a definition.  A handler
    that is absent is [None]; a handler that returns [undefined] returns
    [None].  The [evaluate] handler is a lambda expression or a function. *)
Record BoxedFunctionSignature : Type := mkSignature {
  sig_canonical : option (list BoxedExpression -> M BoxedExpression);
  sig_simplify : option (list BoxedExpression -> M (option BoxedExpression));
  sig_evaluate :
    option (BoxedExpression + (list BoxedExpression -> M (option BoxedExpression)));
  sig_N : option (list BoxedExpression -> M (option BoxedExpression))
}.

(** What [boxed-function.ts] imports or calls and the available sources
    do not contain: the handler bundles of the library, the domain system
    that [validateSignature] works with, the canonical order, the rule
    engine, the cost function, the constructors of the engine, and the
    leaf classes ([BoxedNumber], [BoxedSymbol], [BoxedString]).  They are
    services of the development; nothing is assumed of them unless a
    theorem says so. *)
Class Library : Type := {
  (** [def.signature] *)
  signature : BoxedFunctionDefinition -> BoxedFunctionSignature;
  (** [validateSignature(ce, sig, ops)]: [None] is the source's [null]
      (the operands are compatible with the signature); otherwise the
      operand list in which mismatches are replaced by error markers.
      The function is in [boxed-function.ts], and each of its steps is a
      call into the domain system ([x.domain], [ce.domain],
      [isCompatible], [domainArgs], [ce.error]): it is represented by what
      it returns. *)
  validateSignature :
    BoxedFunctionSignature -> list BoxedExpression -> M (option (list BoxedExpression));
  (** [order] of [./order]: the comparator given to [Array.prototype.sort] *)
  order : BoxedExpression -> BoxedExpression -> Z;
  (** [ce.costFunction] *)
  costFunction : BoxedExpression -> Q;
  (** [replace(expr, rules)] of [../rules]; [None] is [null] *)
  replace : BoxedExpression -> BoxedRuleSet -> M (option BoxedExpression);
  (** [ce.cache('standard-simplification-rules', ...)] *)
  standardSimplificationRules : M BoxedRuleSet;
  (** [ce.fn(head, ops)] *)
  fn : Head BoxedExpression -> list BoxedExpression -> M BoxedExpression;
  (** [ce.tuple(args)], [ce.number(n)] *)
  tuple : list BoxedExpression -> M BoxedExpression;
  number : NumericValue -> M BoxedExpression;
  (** [Decimal.toNumber()] *)
  toNumber : Decimal -> JSNumber;
  (** [head.evaluate()] for a head that is itself an expression.  The
      [canonical] accessor is defined by recursion on the expression and
      [evaluate], below, by recursion on the depth of the calls, with the
      accessor: the accessor takes the evaluation of a head as a
      service. *)
  evaluateHead : BoxedExpression -> M BoxedExpression;
  (** [expr.domain.isCompatible('ImaginaryNumber')] *)
  isImaginary : BoxedExpression -> M bool;
  (** [expr.asSmallInteger] *)
  asSmallInteger : BoxedExpression -> option Z;
  (** the members of the leaf classes *)
  atom_isValid : nat -> Atom -> bool;
  atom_isCanonical : nat -> Atom -> bool;
  atom_canonical : nat -> Atom -> M BoxedExpression;
  atom_isPure : nat -> Atom -> M bool;
  atom_subs : nat -> Atom -> Substitution -> M BoxedExpression;
  atom_simplify : nat -> Atom -> SimplifyOptions -> M BoxedExpression;
  atom_evaluate : nat -> Atom -> M BoxedExpression;
  atom_N : nat -> Atom -> M BoxedExpression;
  atom_numericValue : nat -> Atom -> M (option BoxedExpression);
  atom_sgn : nat -> Atom -> M Sgn;
  atom_isZero : nat -> Atom -> M (option bool);
  atom_isSame : nat -> Atom -> BoxedExpression -> bool;
  (** [match(rhs)] of a leaf; [rhs] is [None] when the caller passes
      [undefined] *)
  atom_match : nat -> Atom -> option BoxedExpression -> option Substitution
}.

(* ================================================================== *)
(** * Operand lists *)
(* ================================================================== *)

(** [applicable(skip, count, index)]. *)
Definition applicable (skip : HoldPolicy) (count index : nat) : bool :=
  match skip with
  | HoldAll => false
  | HoldNone => true
  | HoldFirst => negb (index =? 0)%nat
  | HoldRest => (index =? 0)%nat
  | HoldLast => negb (index =? count)%nat
  | HoldMost => (index =? count)%nat
  end.

(** [flattenSequence(xs)]: the operands of a [Sequence] are spliced in. *)
Fixpoint flattenSequence (xs : list BoxedExpression) : list BoxedExpression :=
  match xs with
  | [] => []
  | x :: xs' =>
      if head_is (head x) "Sequence"
      then match ops x with
           | Some o => o ++ flattenSequence xs'
           | None => flattenSequence xs'
           end
      else x :: flattenSequence xs'
  end.

(** Modelled from the spec: [flattenOps] of [../symbolic/flatten] is not
    in the available sources.  "Associative heads have been flattened
    (nested same-head calls merged into one flat list)"; the source
    comments its use with [f(a, f(b, c), d) -> f(a, b, c, d)].
    [flatten_nested h e] is the operand list that [e] contributes. *)
Fixpoint flatten_nested (h : string) (e : BoxedExpression) : list BoxedExpression :=
  match e with
  | BoxedFunction _ (HName n) xs _ =>
      if String.eqb n h then flat_map (flatten_nested h) xs else [e]
  | _ => [e]
  end.

(** Modelled from the spec: [flattenOps(ops, head)]; the callers write
    [flattenOps(ops, head) ?? ops], so [None] stands for the [null] that is
    returned when no operand has the head. *)
Definition flattenOps (xs : list BoxedExpression) (h : string)
  : option (list BoxedExpression) :=
  if forallb (fun x => negb (head_is (head x) h)) xs then None
  else Some (flat_map (flatten_nested h) xs).

(** [flattenOps(xs, head) ?? xs] *)
Definition flattened (xs : list BoxedExpression) (h : string) : list BoxedExpression :=
  match flattenOps xs h with
  | Some ys => ys
  | None => xs
  end.

(** [if (x !== null) result.push(x)] *)
Definition push_unless_null (result : list BoxedExpression)
  (x : option BoxedExpression) : list BoxedExpression :=
  match x with
  | Some x => result ++ [x]
  | None => result
  end.

(** The [for] loop of [holdMap]: [rest] is [xs] from index [i] on,
    [count] is [xs.length - 1]. *)
Fixpoint holdMap_loop (skip : HoldPolicy) (count : nat)
  (f : BoxedExpression -> M (option BoxedExpression))
  (i : nat) (rest : list BoxedExpression) (result : list BoxedExpression)
  : M (list BoxedExpression) :=
  match rest with
  | [] => ret result
  | x :: rest' =>
      if head_is (head x) "Hold"
      then holdMap_loop skip count f (S i) rest' (result ++ [op1 x])
      else if head_is (head x) "ReleaseHold"
      then
        let* r := f (op1 x) in
        holdMap_loop skip count f (S i) rest' (push_unless_null result r)
      else if applicable skip count i
      then
        let* r := f x in
        holdMap_loop skip count f (S i) rest' (push_unless_null result r)
      else holdMap_loop skip count f (S i) rest' (result ++ [x])
  end.

(** [holdMap(head, xs, skip, associative, f)]. *)
Definition holdMap (h : string) (xs : list BoxedExpression) (skip : HoldPolicy)
  (assoc : bool) (f : BoxedExpression -> M (option BoxedExpression))
  : M (list BoxedExpression) :=
  match xs with
  | [] => ret []
  | _ =>
      let xs := if assoc then flattened xs h else xs in
      let* result := holdMap_loop skip (length xs - 1) f 0 xs [] in
      if assoc then ret (flattened result h) else ret result
  end.

(* ================================================================== *)
(** * BoxedFunction: construction, validity, canonical form *)
(* ================================================================== *)

Definition set_canonical (oid : nat) (c : BoxedExpression) (s : Engine) : Engine :=
  mkEngine (next_oid s) (objects s) (<[oid := c]> (_canonical s)) (_numericValue s)
    (_isPure s) (context s) (numericMode s) (iterationLimit s).

Definition set_numericValue (oid : nat) (v : option BoxedExpression) (s : Engine)
  : Engine :=
  mkEngine (next_oid s) (objects s) (_canonical s)
    (match v with
     | Some v => <[oid := v]> (_numericValue s)
     | None => delete oid (_numericValue s)
     end)
    (_isPure s) (context s) (numericMode s) (iterationLimit s).

Definition set_isPure (oid : nat) (b : bool) (s : Engine) : Engine :=
  mkEngine (next_oid s) (objects s) (_canonical s) (_numericValue s)
    (<[oid := b]> (_isPure s)) (context s) (numericMode s) (iterationLimit s).

Definition set_context (c : list Scope) (s : Engine) : Engine :=
  mkEngine (next_oid s) (objects s) (_canonical s) (_numericValue s) (_isPure s) c
    (numericMode s) (iterationLimit s).

(** [new BoxedFunction(ce, head, ops, { canonical, def })]: the object gets a
    fresh identity; [if (options.canonical) this._canonical = this];
    [ce._register(this)].  The codomain that the constructor derives from
    the signature belongs to the domain system ([BoxedDomain],
    [sig.codomain], [ce.domain]), which is not in the available sources,
    and is not represented; neither is what reading the domains for it
    does: the constructor reads [domain] of a head that is an expression,
    and of the operands when the codomain of the signature is a function,
    and [domain] of a function that is not canonical asks for its
    canonical form first. *)
Definition new_BoxedFunction (h : Head BoxedExpression) (xs : list BoxedExpression)
  (canonical : bool) (def : option BoxedFunctionDefinition) : M BoxedExpression :=
  fun s =>
    let this := BoxedFunction (next_oid s) h xs def in
    Some (this,
          mkEngine (S (next_oid s)) (<[next_oid s := this]> (objects s))
            (if canonical then <[next_oid s := this]> (_canonical s)
             else _canonical s)
            (_numericValue s) (_isPure s) (context s) (numericMode s)
            (iterationLimit s)).

(** Modelled from the spec: [ce.pushScope()], [ce.popScope()] and
    [ce.lookupFunction(head, ce.context)] are not in the available sources.
    A scope is "pushed when entering a lexically scoped construct; popped
    on exit"; "symbol lookup walks the scope stack from innermost to
    outermost, masking outer definitions with same-named inner ones".
    The empty stack is the source's [ce.context === null]. *)
Definition pushScope : M unit :=
  fun s => Some (tt, set_context ([] :: context s) s).

Definition popScope : M unit :=
  fun s => Some (tt, set_context (tail (context s)) s).

Fixpoint lookupFunction (h : string) (ctx : list Scope)
  : option BoxedFunctionDefinition :=
  match ctx with
  | [] => None
  | frame :: parent =>
      match find (fun d => String.eqb (name d) h) frame with
      | Some d => Some d
      | None => lookupFunction h parent
      end
  end.

Section BoxedFunction.
Context `{Library}.

(** [get isCanonical(): this._canonical === this]. *)
Definition isCanonical (s : Engine) (e : BoxedExpression) : bool :=
  match e with
  | BoxedFunction oid _ _ _ =>
      match _canonical s !! oid with
      | Some c => same_object c e
      | None => false
      end
  | BoxedAtom oid a => atom_isCanonical oid a
  end.

(** [get functionDefinition()]. *)
Definition functionDefinition (s : Engine) (e : BoxedExpression)
  : option BoxedFunctionDefinition :=
  match e with
  | BoxedFunction _ _ _ d => if isCanonical s e then d else None
  | BoxedAtom _ _ => None
  end.

(** [get isValid()]. *)
Fixpoint isValid (s : Engine) (e : BoxedExpression) : bool :=
  match e with
  | BoxedAtom oid a => atom_isValid oid a
  | BoxedFunction oid (HExpr h) xs _ =>
      if negb (isValid s h) then false else forallb (isValid s) xs
  | BoxedFunction oid (HName n) xs d =>
      if String.eqb n "Error" then false
      else if negb (isCanonical s e) then true
      else match functionDefinition s e with
           | None => false
           | Some _ => forallb (isValid s) xs
           end
  end.

(** [Array.prototype.sort(compare)]: a stable sort; [x] is placed after
    [y] when [compare(x, y) > 0]. *)
Fixpoint sort_insert (compare : BoxedExpression -> BoxedExpression -> Z)
  (x : BoxedExpression) (l : list BoxedExpression) : list BoxedExpression :=
  match l with
  | [] => [x]
  | y :: l' =>
      if (0 <? compare x y)%Z then y :: sort_insert compare x l'
      else x :: y :: l'
  end.

Definition sort (compare : BoxedExpression -> BoxedExpression -> Z)
  (l : list BoxedExpression) : list BoxedExpression :=
  foldr (sort_insert compare) [] l.

(** Step 4 of [makeCanonicalFunction], "Apply idempotent and involution":
    [inl r] is the early [return ops[0].op1]; [inr ops] goes on.
    [ops = ops[0].ops!] is [null] when [ops[0]] is a leaf (whose head is
    [Symbol], [Number] or [String]), and [ops.length], which is read next,
    throws: [None]. *)
Definition apply_idempotent_involution (def : BoxedFunctionDefinition)
  (h : string) (xs : list BoxedExpression)
  : option (BoxedExpression + list BoxedExpression) :=
  match xs with
  | [x] =>
      if head_is (head x) h then
        if involution def then Some (inl (op1 x))
        else if idempotent def then
          match ops x with
          | Some ys => Some (inr ys)
          | None => None
          end
        else Some (inr xs)
      else Some (inr xs)
  | _ => Some (inr xs)
  end.

(** [makeCanonicalFunction(ce, head, ops)]; [canon] is the [canonical]
    accessor, to which the function is tied below.  After
    [ops = ops[0].ops!] the array that [ops.sort(order)] sorts in place is
    the operand array of the inner application: that application has its
    operands in the new order too.  A tree holds its operands by value and
    the result here is the new application alone; the two agree when the
    operands of the inner application are in order already, which is how
    this function leaves the operands of a commutative application
    ([sort_in_order] below). *)
Definition makeCanonicalFunction_with
  (canon : BoxedExpression -> M BoxedExpression)
  (h : Head BoxedExpression) (xs : list BoxedExpression) : M BoxedExpression :=
  (* Canonicalize the arguments and flatten any sequence *)
  let* xs := mapM canon xs in
  let xs := flattenSequence xs in
  (* Is the head an expression? *)
  let* h :=
    match h with
    | HName _ => ret h
    | HExpr he =>
        let* v := evaluateHead he in
        ret (match symbol v with Some n => HName n | None => h end)
    end in
  match h with
  | HExpr _ => new_BoxedFunction h xs true None
  | HName hname =>
      let* ce := get_engine in
      match context ce with
      | [] => new_BoxedFunction h xs true None
      | ctx =>
          match lookupFunction hname ctx with
          | None => new_BoxedFunction h xs true None
          | Some def =>
              (* f(a, f(b, c), d) -> f(a, b, c, d) *)
              let xs := if associative def then flattened xs hname else xs in
              let* _ := (if scoped def then pushScope else ret tt) in
              let sig := signature def in
              let* v := validateSignature sig xs in
              let xs := default xs v in
              let* ce := get_engine in
              if negb (forallb (isValid ce) xs) then
                let* _ := (if scoped def then popScope else ret tt) in
                new_BoxedFunction h xs true (Some def)
              else
                match sig_canonical sig with
                | Some handler => handler xs
                | None =>
                    match apply_idempotent_involution def hname xs with
                    | None => throw
                    | Some (inl r) => ret r
                    | Some (inr xs) =>
                        let xs :=
                          if (1 <? length xs)%nat && commutative def
                          then sort order xs else xs in
                        let* _ := (if scoped def then popScope else ret tt) in
                        new_BoxedFunction h xs true (Some def)
                    end
                end
          end
      end
  end.

(** [get canonical()]. *)
Fixpoint canonical (this : BoxedExpression) : M BoxedExpression :=
  match this with
  | BoxedAtom oid a => atom_canonical oid a
  | BoxedFunction oid h xs _ =>
      fun s =>
        match _canonical s !! oid with
        | Some c => Some (c, s)
        | None =>
            if isValid s this then
              match makeCanonicalFunction_with canonical h xs s with
              | Some (c, s') => Some (c, set_canonical oid c s')
              | None => None
              end
            else Some (this, set_canonical oid this s)
        end
  end.

Definition makeCanonicalFunction
  : Head BoxedExpression -> list BoxedExpression -> M BoxedExpression :=
  makeCanonicalFunction_with canonical.

End BoxedFunction.

(* ================================================================== *)
(** * Structural equality and pattern matching *)
(* ================================================================== *)

Section Matching.
Context `{Library}.

(** [this.head !== rhs.head] when [this.head] is the string [n]. *)
Definition head_differs (n : string) (rhs : BoxedExpression) : bool :=
  negb (head_is (head rhs) n).

(** [isSame(rhs)]: structural equality. *)
Fixpoint isSame (this rhs : BoxedExpression) : bool :=
  match this with
  | BoxedAtom oid a => atom_isSame oid a rhs
  | BoxedFunction oid h lhsTail _ =>
      if same_object this rhs then true
      else
        match rhs with
        | BoxedAtom _ _ => false
        | BoxedFunction _ rh rhsTail _ =>
            (* Number of arguments must match *)
            if negb (length lhsTail =? length rhsTail)%nat then false
            else
              (* Head must match *)
              let heads :=
                match h with
                | HName n => negb (head_differs n rhs)
                | HExpr he =>
                    match rh with
                    | HName _ => false
                    | HExpr rhe => isSame he rhe
                    end
                end in
              if negb heads then false
              else
                (* Each argument must match *)
                (fix each (l : list BoxedExpression) (i : nat) : bool :=
                   match l with
                   | [] => true
                   | x :: l' =>
                       match rhsTail !! i with
                       | Some y => if isSame x y then each l' (S i) else false
                       | None => false
                       end
                   end) lhsTail 0%nat
        end
  end.

(** [{ ...result, ...m }]: the bindings of [m] override those of [result]. *)
Definition spread (result m : Substitution) : Substitution := m ∪ result.

(** [match(rhs, options)]; [rhs] is [None] when the caller passes
    [undefined], as [lhsTail[i].match(rhsTail[i])] does past the end of
    [rhsTail]. *)
Fixpoint match_ (this : BoxedExpression) (rhs : option BoxedExpression)
  : option Substitution :=
  match this with
  | BoxedAtom oid a => atom_match oid a rhs
  | BoxedFunction oid h lhsTail _ =>
      match rhs with
      | None | Some (BoxedAtom _ _) => None
      | Some (BoxedFunction _ rh rhsTail _ as rhs) =>
          (* Head must match *)
          let result : option Substitution :=
            match h with
            | HName n => if head_differs n rhs then None else Some ∅
            | HExpr he =>
                match rh with
                | HName _ => None
                | HExpr rhe =>
                    match match_ he (Some rhe) with
                    | None => None
                    | Some m => Some (spread ∅ m)
                    end
                end
            end in
          match result with
          | None => None
          | Some result =>
              (* Each argument must match *)
              (fix each (l : list BoxedExpression) (i : nat)
                   (result : Substitution) : option Substitution :=
                 match l with
                 | [] => Some result
                 | x :: l' =>
                     match match_ x (rhsTail !! i) with
                     | None => None
                     | Some m => each l' (S i) (spread result m)
                     end
                 end) lhsTail 0%nat result
          end
      end
  end.

End Matching.

(* ================================================================== *)
(** * Simplify, evaluate, N *)
(* ================================================================== *)

(** Modelled from the spec: [complexAllowed] and [preferBignum] of
    [./utils] are not in the available sources.  [public.ts]: "the numeric
    mode does not allow complex numbers (the [engine.numericMode] is not
    [complex] or [auto])"; "if [ce.numericMode] is [bignum] or [auto] the
    evaluation should be done using bignums". *)
Definition complexAllowed (ce : Engine) : bool :=
  match numericMode ce with
  | ModeAuto | ModeComplex => true
  | _ => false
  end.

Definition preferBignum (ce : Engine) : bool :=
  match numericMode ce with
  | ModeAuto | ModeBignum => true
  | _ => false
  end.

(** Modelled from the spec: [ce.box] is not in the available sources;
    "expressions are created by boxing raw input (numbers, strings, nested
    arrays, other expressions)".  Here its argument is always an
    expression that is boxed already, which boxing returns as it is. *)
Definition box (e : BoxedExpression) : M BoxedExpression := ret e.

Section Pipelines.
Context `{Library}.

(** [subs(sub)] of [BoxedFunction]. *)
Fixpoint subs (this : BoxedExpression) (sub : Substitution) : M BoxedExpression :=
  match this with
  | BoxedAtom oid a => atom_subs oid a sub
  | BoxedFunction _ h xs _ =>
      let* xs' := mapM (fun x => subs x sub) xs in
      makeCanonicalFunction h xs'
  end.

(** [for (const op of args) subs[`_${n++}`] = op]. *)
Fixpoint lambda_args (n : nat) (args : list BoxedExpression) (sub : Substitution)
  : Substitution :=
  match args with
  | [] => sub
  | op :: args' => lambda_args (S n) args' (<["_" +:+ pretty n := op]> sub)
  end.

(** [lambda(ce, fn, args)]. *)
Definition lambda (fn_ : BoxedExpression) (args : list BoxedExpression)
  : M BoxedExpression :=
  let* t := tuple args in
  let* n := number (MachineValue (js_of_Z (Z.of_nat (length args)))) in
  let sub : Substitution := <["_#" := n]> (<["__" := t]> ∅) in
  let sub := lambda_args 1 args sub in
  let sub :=
    match sub !! "_1" with
    | Some v => <["_" := v]> sub
    | None => sub
    end in
  (* Substitute the arguments in the lambda expression *)
  subs fn_ sub.

(** [cheapest(oldExpr, newExpr)]: "return the cheapest of the two, with a
    bias towards the new". *)
Definition cheapest (oldExpr : BoxedExpression) (newExpr : option BoxedExpression)
  : M BoxedExpression :=
  match newExpr with
  | None => ret oldExpr
  | Some newExpr =>
      if same_object oldExpr newExpr then ret oldExpr
      else
        let* boxedNewExpr := box newExpr in
        if Qle_bool (costFunction boxedNewExpr) ((17 # 10) * costFunction oldExpr)
        then ret boxedNewExpr
        else ret oldExpr
  end.

(** The body of the [do ... while] loop of [simplify]: the expression
    after the step and the flag [done]. *)
Definition rewrite_step (rules_ : BoxedRuleSet) (expr : BoxedExpression)
  : M (BoxedExpression * bool) :=
  let* newExpr := replace expr rules_ in
  match newExpr with
  | Some newExpr =>
      let* expr' := cheapest newExpr (Some expr) in
      ret (expr', same_object expr' newExpr)
  | None => ret (expr, true) (* no rules applied *)
  end.

(** [do { ... iterationCount += 1 } while (!done && iterationCount <
    iterationLimit)]; [remaining] is [iterationLimit - iterationCount]
    after the step at hand. *)
Fixpoint rewrite_loop (remaining : nat) (rules_ : BoxedRuleSet)
  (expr : BoxedExpression) : M BoxedExpression :=
  let* r := rewrite_step rules_ expr in
  if snd r then ret (fst r)
  else
    match remaining with
    | O => ret (fst r)
    | S remaining' => rewrite_loop remaining' rules_ (fst r)
    end.

(** [holdMap(..., (x) => x.simplify(options))]: the callback never
    returns [null]. *)
Definition never_null (f : BoxedExpression -> M BoxedExpression)
  : BoxedExpression -> M (option BoxedExpression) :=
  fun x => let* r := f x in ret (Some r).

(** [holdMap(def.name, tail, def.hold, def.associative, f)] when there is a
    definition, [holdMap('', tail, 'none', false, f)] otherwise. *)
Definition holdMap_def (def : option BoxedFunctionDefinition)
  (tail_ : list BoxedExpression) (f : BoxedExpression -> M BoxedExpression)
  : M (list BoxedExpression) :=
  match def with
  | Some d => holdMap (name d) tail_ (hold d) (associative d) (never_null f)
  | None => holdMap "" tail_ HoldNone false (never_null f)
  end.

(** [this.engine.fn(this._head, tail).canonical]. *)
Definition fn_canonical (h : Head BoxedExpression) (tail_ : list BoxedExpression)
  : M BoxedExpression :=
  let* e := fn h tail_ in canonical e.

(** [simplify(options)]; [fuel] bounds the depth of the calls. *)
Fixpoint simplify (fuel : nat) (options : SimplifyOptions) (this : BoxedExpression)
  : M BoxedExpression :=
  match fuel with
  | O => diverge
  | S fuel =>
      match this with
      | BoxedAtom oid a => atom_simplify oid a options
      | BoxedFunction oid h xs _ =>
          let* ce := get_engine in
          (* 1/ Use the canonical form *)
          if negb (isValid ce this) then ret this
          else if negb (isCanonical ce this) then
            let* c := canonical this in simplify fuel options c
          else
            (* 2/ Simplify the applicable operands *)
            let def := functionDefinition ce this in
            let* tail_ := holdMap_def def xs (simplify fuel options) in
            match h with
            | HExpr he =>
                (* 3/ If a lambda, apply the arguments, and simplify the result *)
                let* l := lambda he tail_ in simplify fuel options l
            | HName _ =>
                (* 4/ Apply `simplify` handler *)
                let* expr :=
                  match def with
                  | Some d =>
                      if inert d then
                        match tail_ with
                        | t :: _ => let* c := canonical t in ret (Some c)
                        | [] => ret (Some this)
                        end
                      else
                        match sig_simplify (signature d) with
                        | Some handler => handler tail_
                        | None => ret None
                        end
                  | None => ret None
                  end in
                let* expr :=
                  match expr with
                  | Some expr => ret expr
                  | None => fn_canonical h tail_
                  end in
                (* 5/ Apply rules, until no rules can be applied *)
                let* rules_ :=
                  match rules options with
                  | Some r => ret r
                  | None => standardSimplificationRules
                  end in
                let* ce := get_engine in
                rewrite_loop (iterationLimit ce - 1) rules_ expr
            end
      end
  end.

(** [evaluate(options)]; the options are only passed along and are not
    represented. *)
Fixpoint evaluate (fuel : nat) (this : BoxedExpression) : M BoxedExpression :=
  match fuel with
  | O => diverge
  | S fuel =>
      match this with
      | BoxedAtom oid a => atom_evaluate oid a
      | BoxedFunction oid h xs _ =>
          let* ce := get_engine in
          (* 1/ Use the canonical form *)
          if negb (isValid ce this) then ret this
          else if negb (isCanonical ce this) then
            let* c := canonical this in evaluate fuel c
          else
            (* 2/ Evaluate the applicable operands *)
            let def := functionDefinition ce this in
            let* tail_ := holdMap_def def xs (evaluate fuel) in
            match h with
            | HExpr he =>
                (* 3/ Is it a Lambda? *)
                let* l := lambda he tail_ in evaluate fuel l
            | HName _ =>
                (* 4/ No def? Inert? We're done. *)
                match def with
                | None => fn_canonical h tail_
                | Some d =>
                    if inert d then ret (default this (tail_ !! 0%nat))
                    else
                      (* 6/ Call the `evaluate` handler *)
                      match sig_evaluate (signature d) with
                      | None => fn_canonical h tail_
                      | Some (inl lam) =>
                          let* l := lambda lam tail_ in evaluate fuel l
                      | Some (inr handler) =>
                          let* r := handler tail_ in
                          match r with
                          | Some r => ret r
                          | None => fn_canonical h tail_
                          end
                      end
                end
            end
      end
  end.

(** The end of [N]: the result is adapted to the numeric mode. *)
Definition N_numericMode (result : BoxedExpression) : M BoxedExpression :=
  let* ce := get_engine in
  if isLiteral result then
    if negb (complexAllowed ce) && bool_decide (is_Some (complexValue result))
    then ret _NAN
    else
      match bignumValue result with
      | Some d =>
          if negb (preferBignum ce) then number (MachineValue (toNumber d))
          else ret result
      | None => ret result
      end
  else ret result.

(** [N(options)]. *)
Fixpoint N (fuel : nat) (this : BoxedExpression) : M BoxedExpression :=
  match fuel with
  | O => diverge
  | S fuel =>
      match this with
      | BoxedAtom oid a => atom_N oid a
      | BoxedFunction oid h xs _ =>
          let* ce := get_engine in
          (* 1/ Use canonical form *)
          if negb (isValid ce this) then ret this
          else if negb (isCanonical ce this) then
            let* c := canonical this in N fuel c
          else
            (* 2/ Evaluate the applicable operands *)
            let def := functionDefinition ce this in
            let* tail_ := holdMap_def def xs (N fuel) in
            match h with
            | HExpr he =>
                (* 3/ Is it a Lambda? *)
                let* l := lambda he tail_ in N fuel l
            | HName _ =>
                (* 4/ No def? Inert? We're done. *)
                match def with
                | None => fn_canonical h tail_
                | Some d =>
                    if inert d then ret (default this (tail_ !! 0%nat))
                    else
                      (* 5/ Call `N` handler or fallback to `evaluate` *)
                      let* r :=
                        match sig_N (signature d) with
                        | Some handler => handler tail_
                        | None => ret None
                        end in
                      let* result :=
                        match r with
                        | Some r => ret r
                        | None => let* e := fn h tail_ in evaluate (S fuel) e
                        end in
                      N_numericMode result
                end
            end
      end
  end.

End Pipelines.

(* ================================================================== *)
(** * Purity, numeric value and sign *)
(* ================================================================== *)

Section Sign.
Context `{Library}.

(** [xs.every(p)] with an effectful [p]: stops at the first [false]. *)
Definition everyM {A} (p : A -> M bool) : list A -> M bool :=
  fix go (xs : list A) : M bool :=
    match xs with
    | [] => ret true
    | x :: xs' => let* b := p x in if b then go xs' else ret false
    end.

(** [get isPure()]; the result is cached in [_isPure]. *)
Fixpoint isPure (this : BoxedExpression) : M bool :=
  match this with
  | BoxedAtom oid a => atom_isPure oid a
  | BoxedFunction oid _ xs _ =>
      let* ce := get_engine in
      if negb (isCanonical ce this) then ret false
      else
        match _isPure ce !! oid with
        | Some b => ret b
        | None =>
            let result :=
              match functionDefinition ce this with
              | Some d => pure d
              | None => None
              end in
            (* The function might be pure. Let's check that all its
               arguments are pure. *)
            let* result :=
              match result with
              | Some false => ret false
              | _ => everyM isPure xs
              end in
            let* ce := get_engine in
            let* _ := put_engine (set_isPure oid result ce) in
            ret result
        end
  end.

(** [get numericValue()]; the result is cached in [_numericValue]. *)
Fixpoint numericValue (fuel : nat) (this : BoxedExpression)
  : M (option BoxedExpression) :=
  match fuel with
  | O => diverge
  | S fuel =>
      match this with
      | BoxedAtom oid a => atom_numericValue oid a
      | BoxedFunction oid _ _ _ =>
          let* ce := get_engine in
          match _numericValue ce !! oid with
          | Some v => ret (Some v)
          | None =>
              if negb (isCanonical ce this) then
                let* c := canonical this in numericValue fuel c
              else
                let* p := isPure this in
                let* v :=
                  if negb p then ret None
                  else
                    let* v := N fuel this in
                    ret (if same_object v this then None else Some v) in
                let* ce := get_engine in
                let* _ := put_engine (set_numericValue oid v ce) in
                ret v
          end
      end
  end.

(** [acc * (x.sgn ?? NaN)]: [None] is [NaN]. *)
Definition times_sgn (acc : option Z) (s : Sgn) : option Z :=
  match acc, s with
  | Some a, Sign z => Some (a * z)%Z
  | _, _ => None
  end.

(** [-1], [0] or [+1] after the sign of the number [v]. *)
Definition sign_of (v : Z) : Sgn :=
  if (v =? 0)%Z then Sign 0 else if (v <? 0)%Z then Sign (-1) else Sign 1.

(** [get isZero()] of an operand, given the [sgn] accessor. *)
Definition isZero_with (sgn_ : BoxedExpression -> M Sgn) (x : BoxedExpression)
  : M (option bool) :=
  match x with
  | BoxedAtom oid a => atom_isZero oid a
  | BoxedFunction _ _ _ _ =>
      let* s := sgn_ x in
      match s with
      | SgnNull => ret (Some false)
      | Sign z => ret (Some (z =? 0)%Z)
      | SgnUndefined => ret None
      end
  end.

(** The loop of the [Add] case: the counts of positive, negative and zero
    operands; it stops at the first operand of unknown sign. *)
Definition count_signs (sgn_ : BoxedExpression -> M Sgn)
  : list BoxedExpression -> nat * nat * nat -> M (nat * nat * nat) :=
  fix go (xs : list BoxedExpression) (c : nat * nat * nat) :=
    match xs with
    | [] => ret c
    | op :: xs' =>
        let* s := sgn_ op in
        match s with
        | SgnNull | SgnUndefined => ret c (* break *)
        | Sign z =>
            let '(posCount, negCount, zeroCount) := c in
            go xs'
              (if (0 <? z)%Z then S posCount else posCount,
               if (z <? 0)%Z then S negCount else negCount,
               if (z =? 0)%Z then S zeroCount else zeroCount)
        end
    end.

(** [this._ops.reduce((acc, x) => acc * (x.sgn ?? NaN), 1)]. *)
Definition product_of_signs (sgn_ : BoxedExpression -> M Sgn)
  : list BoxedExpression -> option Z -> M (option Z) :=
  fix go (xs : list BoxedExpression) (acc : option Z) :=
    match xs with
    | [] => ret acc
    | x :: xs' => let* s := sgn_ x in go xs' (times_sgn acc s)
    end.

(** [this._ops[i]?.sgn]: [undefined] when the operand is absent. *)
Definition optional_sgn (sgn_ : BoxedExpression -> M Sgn)
  (x : option BoxedExpression) : M Sgn :=
  match x with
  | Some x => sgn_ x
  | None => ret SgnUndefined
  end.

(** [this._ops[0]?.isImaginary], [this._ops[0]?.isZero] as conditions. *)
Definition optional_isImaginary (x : option BoxedExpression) : M bool :=
  match x with
  | Some x => isImaginary x
  | None => ret false
  end.

Definition optional_isZero (sgn_ : BoxedExpression -> M Sgn)
  (x : option BoxedExpression) : M bool :=
  match x with
  | Some x => let* z := isZero_with sgn_ x in ret (default false z)
  | None => ret false
  end.

(** [get sgn()]. *)
Fixpoint sgn (fuel : nat) (this : BoxedExpression) : M Sgn :=
  match fuel with
  | O => diverge
  | S fuel =>
      match this with
      | BoxedAtom oid a => atom_sgn oid a
      | BoxedFunction oid h xs _ =>
          let* ce := get_engine in
          if negb (isCanonical ce this) then
            let* c := canonical this in sgn fuel c
          else if head_is h "Negate" then
            let* s := optional_sgn (sgn fuel) (xs !! 0%nat) in
            match s with
            | SgnUndefined => ret SgnUndefined
            | SgnNull => ret SgnNull
            | Sign z =>
                ret (if (z =? 0)%Z then Sign 0
                     else if (0 <? z)%Z then Sign (-1) else Sign 1)
            end
          else if head_is h "Multiply" then
            let* total := product_of_signs (sgn fuel) xs (Some 1%Z) in
            match total with
            | None => ret SgnNull
            | Some total =>
                ret (if (0 <? total)%Z then Sign 1
                     else if (total <? 0)%Z then Sign (-1) else Sign 0)
            end
          else if head_is h "Add" then
            let count := length xs in
            let* c := count_signs (sgn fuel) xs (0, 0, 0)%nat in
            let '(posCount, negCount, zeroCount) := c in
            ret (if (zeroCount =? count)%nat then Sign 0
                 else if (posCount =? count)%nat then Sign 1
                 else if (negCount =? count)%nat then Sign (-1)
                 else SgnNull)
          else if head_is h "Divide" then
            let* n := optional_sgn (sgn fuel) (xs !! 0%nat) in
            let* d := optional_sgn (sgn fuel) (xs !! 1%nat) in
            match n, d with
            | Sign n, Sign d =>
                ret (if (n =? 0)%Z then Sign 0
                     else if ((0 <? n) && (0 <? d) || (n <? 0) && (d <? 0))%Z
                          then Sign 1 else Sign (-1))
            | _, _ => ret SgnNull
            end
          else if head_is h "Square" then
            let* i := optional_isImaginary (xs !! 0%nat) in
            if i then ret (Sign (-1))
            else
              let* z := optional_isZero (sgn fuel) (xs !! 0%nat) in
              if z then ret (Sign 0) else ret (Sign 1)
          else if head_is h "Abs" then
            let* z := optional_isZero (sgn fuel) (xs !! 0%nat) in
            if z then ret (Sign 0) else ret (Sign 1)
          else if head_is h "Sqrt" then
            let* z := optional_isZero (sgn fuel) (xs !! 0%nat) in
            if z then ret (Sign 0)
            else
              let* i := optional_isImaginary (xs !! 0%nat) in
              if i then ret SgnNull else ret (Sign 1)
          else
            (* other heads: the sign of the numeric value *)
            let* nv := numericValue fuel this in
            let* v :=
              match nv with
              | Some v => ret v
              | None => N fuel this
              end in
            match asSmallInteger v with
            | None => ret SgnUndefined
            | Some v => ret (sign_of v)
            end
      end
  end.

(** [get isZero()] of [BoxedFunction]. *)
Definition isZero (fuel : nat) (this : BoxedExpression) : M (option bool) :=
  isZero_with (sgn fuel) this.

End Sign.

(* ================================================================== *)
(** * MathJSON *)
(* ================================================================== *)

(** A MathJSON [Expression]: a number, a string (a symbol), an array
    [[head, ...ops]], or an object with a [num], [sym], [str] or [fn] key
    and an optional [latex] metadata key. *)
#[local] Unset Elimination Schemes.
Inductive Expression : Type :=
| ENumber (n : JSNumber)
| EString (s : string)
| EFunction (items : list Expression)
| ENumberObject (latex : option string) (num : string)
| ESymbolObject (latex : option string) (sym : string)
| EStringObject (latex : option string) (str : string)
| EFunctionObject (latex : option string) (fn_ : list Expression).
#[local] Set Elimination Schemes.

Module MathJson.

(** JavaScript truthiness of an [Expression | null]: [null], [0], [NaN]
    and the empty string are falsy. *)
Definition truthy (expr : option Expression) : bool :=
  match expr with
  | None => false
  | Some (ENumber JSNaN) => false
  | Some (ENumber (JSFinite q)) => negb (Qeq_bool q 0)
  | Some (EString s) => negb (String.eqb s "")
  | Some _ => true
  end.

(** Modelled from the spec: the accessors of [math-json/utils] are not in
    the available sources.  MathJSON is "a nested-array/object
    serialization of expressions (function head + operand array, or
    shorthand literals for numbers/strings/symbols, or an object carrying
    explicit metadata fields)".  [head], [ops], [op] and [nops] read the
    array of a function, [null] ([None]) otherwise. *)
Definition items (expr : option Expression) : option (list Expression) :=
  match expr with
  | Some (EFunction l) | Some (EFunctionObject _ l) => Some l
  | _ => None
  end.

Definition head (expr : option Expression) : option Expression :=
  match items expr with
  | Some (h :: _) => Some h
  | _ => None
  end.

Definition ops (expr : option Expression) : option (list Expression) :=
  match items expr with
  | Some l => Some (tail l)
  | None => None
  end.

(** [op(expr, n)]: the [n]-th operand, counted from 1. *)
Definition op (expr : option Expression) (n : nat) : option Expression :=
  match items expr, n with
  | Some l, S _ => l !! n
  | _, _ => None
  end.

Definition nops (expr : option Expression) : nat :=
  match items expr with
  | Some l => length l - 1
  | None => 0
  end.

(** [head(expr) === name] *)
Definition head_is (expr : option Expression) (name : string) : bool :=
  match head expr with
  | Some (EString s) => String.eqb s name
  | _ => false
  end.

Definition isNumberObject (expr : Expression) : bool :=
  match expr with
  | ENumberObject _ _ => true
  | _ => false
  end.

(** [typeof arg === 'number' || isNumberObject(arg)] *)
Definition isNumber (expr : Expression) : bool :=
  match expr with
  | ENumber _ | ENumberObject _ _ => true
  | _ => false
  end.

(** Modelled from the spec: [isEmptySequence] and [missingIfEmpty] of
    [math-json/utils] are not in the available sources; "a missing/empty
    base still yields a well-formed error-carrying node".  The marker is
    the one [parseRoot] writes, [['Error', "'missing'"]]. *)
Definition isEmptySequence (expr : option Expression) : bool :=
  head_is expr "Sequence" && (nops expr =? 0)%nat.

Definition MISSING : Expression := EFunction [EString "Error"; EString "'missing'"].

Definition missingIfEmpty (expr : option Expression) : Expression :=
  match expr with
  | None => MISSING
  | Some e => if isEmptySequence expr then MISSING else e
  end.

End MathJson.

(** What the LaTeX front and back ends use and the available sources do
    not contain: the tokenizer, the parser class [_Parser] of [./parse],
    the [Serializer] class, the style functions and the numeric readers
    of [math-json/utils]. *)

(** The state of a [_Parser].  Modelled from the spec: "the parser
    consumes this sequence positionally (peek/next/skip-space) and never
    re-tokenizes". *)
Record Parser : Type := mkParser { tokens : list string; index : nat }.

(** The [code] argument of [parser.error]: a string, or a tag followed by
    arguments. *)
Inductive ErrorCode : Type :=
| CodeString (code : string)
| CodeTagged (tag : string) (args : list Expression).

(** An infix entry of the indexed dictionary: its [name] and its [parse]
    callback [(parser, until, lhs) => Expression | null], called with
    [until = { minPrec }]; the callback reads the tokens and moves
    [parser.index], its second result. *)
Record InfixEntry : Type := mkInfixEntry {
  entry_name : option string;
  entry_parse : Parser -> Z -> Expression -> option Expression * nat
}.

(** The mutable state of a [Serializer] and its options. *)
Record Serializer : Type := mkSerializer {
  level : Z;
  multiply : string;
  invisibleMultiply : string
}.

Inductive FractionStyle : Type :=
| InlineSolidus | NiceSolidus | Reciprocal | Factor | Quotient.

Inductive RootStyle : Type := Radical | RootQuotient | Solidus.

Class LatexServices : Type := {
  (** [tokenize(latex, [])], [tokensToString(tokens)], [joinLatex(segments)] *)
  tokenize : string -> list string;
  tokensToString : list string -> string;
  joinLatex : list string -> string;
  (** [parser.matchExpression()]: the expression, or [null], and the
      value of [parser.index] afterwards *)
  matchExpression : Parser -> option Expression * nat;
  (** [parser.peekDefinitions('infix')]: [null], or the entries that
      match at the current position with the number of tokens they
      consume; the first one is used *)
  peekDefinitions_infix : Parser -> option ((InfixEntry * nat) * list (InfixEntry * nat));
  (** [parser.error(code, fromToken)] *)
  parser_error : Parser -> ErrorCode -> nat -> Expression;
  (** [Number(expr).toString()] *)
  number_toString : JSNumber -> string;
  (** [machineValue(expr)] of a [{ num }] object *)
  parse_num : string -> JSNumber;
  (** [rationalValue(expr)]: [None] is [[null, null]] *)
  rationalValue : option Expression -> option (JSNumber * JSNumber);
  (** [getFractionStyle(expr, level)], [getRootStyle(expr, level)] *)
  getFractionStyle : Expression -> Z -> FractionStyle;
  getRootStyle : Expression -> Z -> RootStyle;
  (** [serializer.wrap(expr, prec)], [serializer.wrapShort(expr)] *)
  wrap : option Expression -> option Z -> ST Serializer string;
  wrapShort : option Expression -> ST Serializer string;
  (** what [serializer.serialize] does with an expression whose head has
      no [serialize] entry among those translated below (numbers,
      symbols, and the other functions) *)
  serialize_other : Expression -> ST Serializer string
}.

(** How a call completes: with a value, or by throwing. *)
Inductive Completion (A : Type) : Type :=
| Normal (a : A)
| Throw (error : string).
Arguments Normal {A} a.
Arguments Throw {A} error.

Module LatexSyntax.
Import MathJson.

Section Latex.
Context `{LatexServices}.

(** Modelled from the spec: [machineValue] of [math-json/utils]: the value
    of a number literal, [null] ([None]) for anything else. *)
Definition machineValue (expr : option Expression) : option JSNumber :=
  match expr with
  | Some (ENumber n) => Some n
  | Some (ENumberObject _ s) => Some (parse_num s)
  | _ => None
  end.

(** [machineValue(e) !== 1] *)
Definition machineValue_is_not_1 (expr : option Expression) : bool :=
  match machineValue expr with
  | Some n => negb (js_eqb n (js_of_Z 1))
  | None => true
  end.

Definition POWER : Expression := EString "Power".
Definition MULTIPLY : Expression := EString "Multiply".
Definition DIVIDE : Expression := EString "Divide".

(** The body of the loop of [numeratorDenominator]: what the factor [arg]
    adds to [numerator] and [denominator]. *)
Definition numeratorDenominator_step (nd : list Expression * list Expression)
  (arg : Expression) : list Expression * list Expression :=
  let '(numerator, denominator) := nd in
  if head_is (Some arg) "Power" then
    let op1 := op (Some arg) 1 in
    let op2 := op (Some arg) 2 in
    if head_is op2 "Negate" then
      let b := op op2 1 in
      match op1, b with
      | Some o1, Some b' =>
          if truthy op1 && truthy b
          then (numerator, denominator ++ [EFunction [POWER; o1; b']])
          else nd
      | _, _ => nd
      end
    else
      let exponentVal := default JSNaN (machineValue op2) in
      if js_eqb exponentVal (js_of_Z (-1)) then
        match op1 with
        | Some o1 => if truthy op1 then (numerator, denominator ++ [o1]) else nd
        | None => nd
        end
      else if js_ltb exponentVal (js_of_Z 0) then
        match op1 with
        | Some o1 =>
            if truthy op1
            then (numerator,
                  denominator ++ [EFunction [POWER; o1; ENumber (js_neg exponentVal)]])
            else nd
        | None => nd
        end
      else (numerator ++ [arg], denominator)
  else if head_is (Some arg) "Rational" && (nops (Some arg) =? 2)%nat then
    match op (Some arg) 1, op (Some arg) 2 with
    | Some o1, Some o2 =>
        (if machineValue_is_not_1 (Some o1) then numerator ++ [o1] else numerator,
         if machineValue_is_not_1 (Some o2) then denominator ++ [o2] else denominator)
    | _, _ => nd
    end
  else
    match rationalValue (Some arg) with
    | Some (n, d) =>
        (if negb (js_eqb n (js_of_Z 1)) then numerator ++ [ENumber n] else numerator,
         denominator ++ [ENumber d])
    | None => (numerator ++ [arg], denominator)
    end.

(** [numeratorDenominator(expr)]: "If expression is a product, collect all
    the terms with a negative exponents in the denominator, and all the
    terms with a positive exponent (or no exponent) in the numerator." *)
Definition numeratorDenominator (expr : Expression)
  : list Expression * list Expression :=
  if negb (head_is (Some expr) "Multiply") then ([], [])
  else
    let args := default [] (ops (Some expr)) in
    fold_left numeratorDenominator_step args ([], []).

(** [serializer.level -= 1], [serializer.level += 1] *)
Definition add_level (d : Z) : ST Serializer unit :=
  fun s => Some (tt, mkSerializer (level s + d) (multiply s) (invisibleMultiply s)).

(** [serializeRoot(serializer, style, base, degree)]; [serialize_] is
    [serializer.serialize]. *)
Definition serializeRoot (serialize_ : option Expression -> ST Serializer string)
  (style : RootStyle) (base : option Expression) (degree : option Expression)
  : ST Serializer string :=
  match base with
  | None => ret "\sqrt{}"
  | Some _ =>
      let degree := Some (default (ENumber (js_of_Z 2)) degree) in
      match style with
      | Solidus =>
          let* b := wrapShort base in
          let* d := serialize_ degree in
          ret (b +:+ "^{1\/" +:+ d +:+ "}")
      | RootQuotient =>
          let* b := wrapShort base in
          let* d := serialize_ degree in
          ret (b +:+ "^{\frac{1}{" +:+ d +:+ "}}")
      | Radical =>
          let degreeValue := default JSNaN (machineValue degree) in
          if js_eqb degreeValue (js_of_Z 2) then
            let* b := serialize_ base in ret ("\sqrt{" +:+ b +:+ "}")
          else
            (* It's the n-th root *)
            let* d := serialize_ degree in
            let* b := serialize_ base in
            ret ("\sqrt[" +:+ d +:+ "]{" +:+ b +:+ "}")
      end
  end.

(** [serializeFraction(serializer, expr)]. *)
Definition serializeFraction (serialize_ : option Expression -> ST Serializer string)
  (expr : option Expression) : ST Serializer string :=
  match expr with
  | None => ret ""
  | Some e =>
      let numer := Some (missingIfEmpty (op expr 1)) in
      let denom := Some (missingIfEmpty (op expr 2)) in
      let* s := get_state in
      match getFractionStyle e (level s) with
      | InlineSolidus =>
          let* numerStr := wrapShort numer in
          let* denomStr := wrapShort denom in
          ret (numerStr +:+ "\/" +:+ denomStr)
      | NiceSolidus =>
          let* numerStr := wrapShort numer in
          let* denomStr := wrapShort denom in
          ret ("^{" +:+ numerStr +:+ "}\!\!/\!_{" +:+ denomStr +:+ "}")
      | Reciprocal =>
          let* n := wrap numer None in
          let* d := wrap denom None in
          ret (n +:+ d +:+ "^{-1}")
      | Factor =>
          let* d := serialize_ denom in
          let* n := wrap numer None in
          ret ("\frac{1}{" +:+ d +:+ "}" +:+ n)
      | Quotient =>
          let* numerLatex := serialize_ numer in
          let* denomLatex := serialize_ denom in
          ret ("\frac{" +:+ numerLatex +:+ "}{" +:+ denomLatex +:+ "}")
      end
  end.

(** [numer.length === 1 ? numer[0] : [MULTIPLY, ...numer]] *)
Definition product_of (factors : list Expression) : Expression :=
  match factors with
  | [x] => x
  | _ => EFunction (MULTIPLY :: factors)
  end.

(** [denom.length === 1 && denom[0] === 1] *)
Definition is_just_1 (denom : list Expression) : bool :=
  match denom with
  | [ENumber n] => js_eqb n (js_of_Z 1)
  | _ => false
  end.

(** [term[0] === '-'] and [term.slice(1)] *)
Definition starts_with_minus (term : string) : bool :=
  match term with
  | String c _ => Ascii.eqb c "-"%char
  | EmptyString => false
  end.

Definition slice1 (term : string) : string :=
  match term with
  | String _ rest => rest
  | EmptyString => EmptyString
  end.

(** [!result ? term : joinLatex([result, sep..., term])] *)
Definition is_empty (s : string) : bool := String.eqb s "".

(** The variables of the loop of [serializeMultiply]. *)
Record MultiplyLoop : Type := mkMultiplyLoop {
  result : string;
  isNegative : bool;
  prevWasNumber : bool
}.

(** One turn of the [for] loop of [serializeMultiply], for the operand
    [arg = op(expr, i)]. *)
Definition serializeMultiply_factor
  (serialize_ : option Expression -> ST Serializer string)
  (st : MultiplyLoop) (arg : Expression) : ST Serializer MultiplyLoop :=
  let* opts := get_state in
  (* 1. Should the terms be separated by an explicit MULTIPLY? *)
  if isNumber arg then
    let* term := serialize_ (Some arg) in
    if String.eqb term "-1" && is_empty (result st)
    then ret (mkMultiplyLoop "" (negb (isNegative st)) true)
    else
      let neg := starts_with_minus term in
      let term := if neg then slice1 term else term in
      let isNegative' := if neg then negb (isNegative st) else isNegative st in
      ret (mkMultiplyLoop
             (if is_empty (result st) then term
              else joinLatex [result st; multiply opts; term])
             isNegative' true)
  else
    let root :=
      if head_is (Some arg) "Power" then
        match rationalValue (op (Some arg) 2) with
        | Some (n, d) => if js_eqb n (js_of_Z 1) then Some d else None
        | None => None
        end
      else None in
    match root with
    | Some d =>
        (* It's a power with a fractional exponent, it's a nth-root *)
        let* r := serializeRoot serialize_ (getRootStyle arg (level opts))
                    (op (Some arg) 1) (Some (ENumber d)) in
        ret (mkMultiplyLoop (result st +:+ r) (isNegative st) false)
    | None =>
        if head_is (Some arg) "Power"
           && negb (js_isNaN (default JSNaN (machineValue (op (Some arg) 1))))
        then
          (* It's a power and the base is a number... add a multiply... *)
          let* term := serialize_ (Some arg) in
          ret (mkMultiplyLoop
                 (if is_empty (result st) then term
                  else joinLatex [result st; multiply opts; term])
                 (isNegative st) true)
        else
          let negate := head_is (Some arg) "Negate" in
          let arg' := if negate then op (Some arg) 1 else Some arg in
          let isNegative' := if negate then negb (isNegative st) else isNegative st in
          (* 2.1 Wrap the term if necessary *)
          let* term := wrap arg' (Some 390%Z) in
          (* 2.2. The terms can be separated by an invisible multiply. *)
          let result' :=
            if is_empty (result st) then term
            else if prevWasNumber st
                    && (head_is arg' "Divide" || head_is arg' "Rational")
            then joinLatex [result st; multiply opts; term]
            else if is_empty (invisibleMultiply opts)
            then joinLatex [result st; term]
            else joinLatex [result st; invisibleMultiply opts; term] in
          ret (mkMultiplyLoop result' isNegative' false)
    end.

(** [for (let i = 1; i < count; i++)] over the operands of [expr];
    [todo] is [count - i]. *)
Fixpoint serializeMultiply_loop
  (serialize_ : option Expression -> ST Serializer string)
  (expr : Expression) (todo i : nat) (st : MultiplyLoop)
  : ST Serializer MultiplyLoop :=
  match todo with
  | O => ret st
  | S todo' =>
      match op (Some expr) i with
      | None => serializeMultiply_loop serialize_ expr todo' (S i) st
      | Some arg =>
          let* st' := serializeMultiply_factor serialize_ st arg in
          serializeMultiply_loop serialize_ expr todo' (S i) st'
      end
  end.

(** [serializeMultiply(serializer, expr)]; [fuel] bounds the calls of
    the function to itself. *)
Fixpoint serializeMultiply (fuel : nat)
  (serialize_ : option Expression -> ST Serializer string)
  (expr : option Expression) : ST Serializer string :=
  match fuel with
  | O => diverge
  | S fuel =>
      match expr with
      | None => ret ""
      | Some e =>
          (* "Multiply" doesn't increase the "level" for styling purposes *)
          let* _ := add_level (-1) in
          (* Is it a fraction? *)
          let '(numer, denom) := numeratorDenominator e in
          let* fraction :=
            match denom with
            | [] => ret ""
            | _ =>
                if is_just_1 denom then
                  match numer with
                  | [] => ret "1"
                  | [n] => serialize_ (Some n)
                  | _ => serializeMultiply fuel serialize_
                           (Some (EFunction (MULTIPLY :: numer)))
                  end
                else
                  serialize_
                    (Some (EFunction [DIVIDE; product_of numer; product_of denom]))
            end in
          if negb (is_empty fraction) then
            (* Restore the level *)
            let* _ := add_level 1 in ret fraction
          else
            let count := S (nops expr) in
            let* st := serializeMultiply_loop serialize_ e (count - 1) 1
                         (mkMultiplyLoop "" false false) in
            (* Restore the level *)
            let* _ := add_level 1 in
            ret (if isNegative st then "-" +:+ result st else result st)
      end
  end.

(** Modelled from the spec: [Serializer.serialize] is not in the
    available sources.  The nesting level is "incremented when entering an
    operand position"; the expression is handed to the [serialize] entry
    that the dictionary has for its head: [DEFINITIONS_ARITHMETIC] gives
    [serializeMultiply] for [Multiply] and [serializeFraction] for
    [Divide]. *)
Fixpoint serialize (fuel : nat) (expr : option Expression) : ST Serializer string :=
  match fuel with
  | O => diverge
  | S fuel =>
      match expr with
      | None => ret ""
      | Some e =>
          let* _ := add_level 1 in
          let* r :=
            if head_is expr "Multiply"
            then serializeMultiply (S fuel) (serialize fuel) expr
            else if head_is expr "Divide"
            then serializeFraction (serialize fuel) expr
            else serialize_other e in
          let* _ := add_level (-1) in
          ret r
      end
  end.

(* ------------------------------------------------------------------ *)
(** ** [LatexSyntax.parse] *)
(* ------------------------------------------------------------------ *)

(** Modelled from the spec: [atEnd], [next()] and [index] of [_Parser]. *)
Definition atEnd (p : Parser) : bool := (length (tokens p) <=? index p)%nat.

Definition next (p : Parser) : option string * Parser :=
  (tokens p !! index p, mkParser (tokens p) (S (index p))).

Definition set_index (p : Parser) (i : nat) : Parser := mkParser (tokens p) i.

(** [while (!parser.atEnd) parser.next()] *)
Definition skip_to_end (p : Parser) : Parser :=
  if atEnd p then p else set_index p (length (tokens p)).

(** The escape marker of the tokenizer, the backslash. *)
Definition escape_marker : ascii := "092"%char.

(** [token.length > 1 && token.startsWith(escape marker)] *)
Definition is_command (token : string) : bool :=
  (1 <? String.length token)%nat
  && match token with
     | String c _ => Ascii.eqb c escape_marker
     | EmptyString => false
     end.

(** [expr ?? parser.error('missing', start)] *)
Definition or_missing (p : Parser) (expr : option Expression) (start : nat)
  : Expression :=
  match expr with
  | Some e => e
  | None => parser_error p (CodeString "missing") start
  end.

(** [if (def.name)] *)
Definition truthy_name (n : option string) : option string :=
  match n with
  | Some s => if String.eqb s "" then None else Some s
  | None => None
  end.

(** The last part of [parse]: [expr ??= ['Sequence']], then the [latex]
    metadata when [options.preserveLatex] is set. *)
Definition parse_finish (preserveLatex : bool) (latex : string)
  (expr : option Expression) : Expression :=
  let expr := default (EFunction [EString "Sequence"]) expr in
  if preserveLatex then
    match expr with
    | EFunction l => EFunctionObject (Some latex) l
    | ENumber n => ENumberObject (Some latex) (number_toString n)
    | EString s => ESymbolObject (Some latex) s
    | ENumberObject _ n => ENumberObject (Some latex) n
    | ESymbolObject _ s => ESymbolObject (Some latex) s
    | EStringObject _ s => EStringObject (Some latex) s
    | EFunctionObject _ l => EFunctionObject (Some latex) l
    end
  else expr.

(** The synthesis of the error for the tokens that are left, from
    [const rest = parser.index] on. *)
Definition parse_unexpected (parser : Parser) (expr : option Expression)
  : Completion (option Expression) :=
  let rest := index parser in
  let '(token, parser) := next parser in
  let parser := skip_to_end parser in
  match token with
  | None => Throw "TypeError: Cannot read properties of undefined (reading 'length')"
  | Some token =>
      let error :=
        parser_error parser
          (CodeTagged
             (if is_command token then "unexpected-command" else "unexpected-token")
             [EStringObject None (tokensToString [token])])
          rest in
      if negb (truthy expr) then Normal (Some error)
      else
        match expr with
        | Some e => Normal (Some (EFunction [EString "Sequence"; e; error]))
        | None => Normal (Some error)
        end
  end.

(** [parse(latex)]. *)
Definition parse (preserveLatex : bool) (latex : string) : Completion Expression :=
  let parser := mkParser (tokenize latex) 0 in
  let '(expr, i) := matchExpression parser in
  let parser := set_index parser i in
  if negb (atEnd parser) then
    let continue (parser : Parser) : Completion Expression :=
      match parse_unexpected parser expr with
      | Normal expr => Normal (parse_finish preserveLatex latex expr)
      | Throw e => Throw e
      end in
    match peekDefinitions_infix parser with
    | Some ((def, n), _) =>
        let start := index parser in
        let parser := set_index parser (index parser + n) in
        let '(result, i) :=
          entry_parse def parser 0%Z (or_missing parser expr start) in
        let parser := set_index parser i in
        if truthy result then
          match result with
          | Some r => Normal r
          | None => continue (set_index parser start)
          end
        else
          match truthy_name (entry_name def) with
          | Some name =>
              Normal (EFunction [EString name;
                                 or_missing parser expr start;
                                 parser_error parser (CodeString "missing") start])
          | None => continue (set_index parser start)
          end
    | None => continue parser
    end
  else Normal (parse_finish preserveLatex latex expr).

End Latex.
End LatexSyntax.

(* ================================================================== *)
(** * The hold policy, operand by operand *)
(* ================================================================== *)

(** An operand for which the callback returns [null] is dropped. *)
Definition unless_null (r : option BoxedExpression) : list BoxedExpression :=
  match r with
  | Some x => [x]
  | None => []
  end.

(** What [holdMap] makes of the operand [x] at position [i] of a list of
    [count + 1] operands, in the words of its documentation: a [Hold] is
    replaced by its first operand and [f] is not applied; [f] is applied to
    the first operand of a [ReleaseHold] whatever the position; [f] is
    applied to the other operands where the policy does not skip them. *)
Definition held_operand (skip : HoldPolicy) (count : nat)
  (f : BoxedExpression -> M (option BoxedExpression))
  (i : nat) (x : BoxedExpression) : M (list BoxedExpression) :=
  if head_is (head x) "Hold" then ret [op1 x]
  else if head_is (head x) "ReleaseHold" then
    let* r := f (op1 x) in ret (unless_null r)
  else if applicable skip count i then
    let* r := f x in ret (unless_null r)
  else ret [x].

(** The operands of [xs], from position [i] on, one after the other. *)
Fixpoint held_operands (skip : HoldPolicy) (count : nat)
  (f : BoxedExpression -> M (option BoxedExpression))
  (i : nat) (xs : list BoxedExpression) : M (list BoxedExpression) :=
  match xs with
  | [] => ret []
  | x :: xs' =>
      let* r := held_operand skip count f i x in
      let* rs := held_operands skip count f (S i) xs' in
      ret (r ++ rs)
  end.

(* ================================================================== *)
(** * Error markers *)
(* ================================================================== *)

(** The tree of [e] holds an error marker: [e], or an expression below it
    (a head or an operand, at any depth), is an application of [Error]. *)
Fixpoint holds_error_marker (e : BoxedExpression) : bool :=
  match e with
  | BoxedAtom _ _ => false
  | BoxedFunction _ h xs _ =>
      head_is h "Error"
      || match h with
         | HExpr he => holds_error_marker he
         | HName _ => false
         end
      || existsb holds_error_marker xs
  end.

(* ================================================================== *)
(** * The generic rules of makeCanonicalFunction *)
(* ================================================================== *)

(** The comparator is total: of two operands, one is not after the other. *)
Definition total_comparator (compare : BoxedExpression -> BoxedExpression -> Z)
  : Prop :=
  forall a b, (0 < compare a b -> compare b a <= 0)%Z.

(** [x] is an application of the function [h]. *)
Definition is_application_of (h : string) (x : BoxedExpression) : bool :=
  match x with
  | BoxedFunction _ (HName n) _ _ => String.eqb n h
  | _ => false
  end.

Section GenericRulesDefinitions.
Context `{Library}.

(** [ops.length > 1 && def.commutative === true ? ops.sort(order) : ops] *)
Definition sorted_if_commutative (def : BoxedFunctionDefinition)
  (xs : list BoxedExpression) : list BoxedExpression :=
  if (1 <? length xs)%nat && commutative def then sort order xs else xs.

(** The state in which the signature is validated: a scoped definition
    has pushed a scope. *)
Definition scope_of (def : BoxedFunctionDefinition) (s : Engine) : Engine :=
  if scoped def then set_context ([] :: context s) s else s.

(** The head [h] of an application is the name [hname], or it is an
    expression that evaluates to the symbol [hname], which takes the
    engine from [s] to [s']
    ([if (typeof head !== 'string') head = head.evaluate().symbol ?? head]);
    the service that the accessor has for the evaluation of a head
    answers as [evaluate] does. *)
Definition head_resolves (h : Head BoxedExpression) (hname : string)
  (s s' : Engine) : Prop :=
  h = HName hname /\ s' = s \/
  exists he w fuel,
    h = HExpr he /\ evaluateHead he s = evaluate fuel he s /\
    evaluate fuel he s = Some (w, s') /\ symbol w = Some hname.

(** The operand list that is checked against the signature: the canonical
    operands [xs], with every [Sequence] spliced in and, when the
    definition is associative, the nested applications of the head merged
    into the list. *)
Definition flat_operands (def : BoxedFunctionDefinition) (hname : string)
  (xs : list BoxedExpression) : list BoxedExpression :=
  if associative def then flattened (flattenSequence xs) hname
  else flattenSequence xs.

(** In the state [s], [r] is a canonical application of the function
    [hname], bound to the definition [def], to the operands [ys], and an
    object of the engine. *)
Definition canonical_application (s : Engine) (r : BoxedExpression)
  (hname : string) (def : BoxedFunctionDefinition) (ys : list BoxedExpression)
  : Prop :=
  head r = HName hname /\ ops r = Some ys /\
  isCanonical s r = true /\ functionDefinition s r = Some def /\
  objects s !! oid_of r = Some r.

End GenericRulesDefinitions.

(* ================================================================== *)
(** * The infix continuation of parse *)
(* ================================================================== *)

Section Continuation.
Context `{LatexServices}.
Import MathJson LatexSyntax.

(** The attempt at one more infix continuation fails: no infix entry
    matches at the position of [parser], or the callback of the first one
    that matches returns no expression and the entry has no name. *)
Definition continuation_fails (parser : Parser) (expr : option Expression) : Prop :=
  match peekDefinitions_infix parser with
  | None => True
  | Some ((def, n), _) =>
      let parser' := set_index parser (index parser + n) in
      truthy (fst (entry_parse def parser' 0%Z
                     (or_missing parser' expr (index parser)))) = false /\
      truthy_name (entry_name def) = None
  end.

(** The error that [parse] synthesizes for the [token] at position [rest]
    of [tokens]. *)
Definition unexpected (tokens : list string) (rest : nat) (token : string)
  : Expression :=
  parser_error (mkParser tokens (length tokens))
    (CodeTagged
       (if is_command token then "unexpected-command" else "unexpected-token")
       [EStringObject None (tokensToString [token])])
    rest.

End Continuation.

(* ================================================================== *)
(** * A small library, for the examples *)
(* ================================================================== *)

Module Example.

(** Leaves before functions; numbers, then symbols, then strings. *)
Definition rank (e : BoxedExpression) : Z :=
  match e with
  | BoxedAtom _ (ANumber _) => 0
  | BoxedAtom _ (ASymbol _) => 1
  | BoxedAtom _ (AString _) => 2
  | BoxedFunction _ _ _ _ => 3
  end.

Definition by_rank (a b : BoxedExpression) : Z := (rank a - rank b)%Z.

(** The number of nodes of an expression. *)
Fixpoint node_count (e : BoxedExpression) : Z :=
  match e with
  | BoxedAtom _ _ => 1
  | BoxedFunction _ _ xs _ => (1 + fold_right (fun x n => node_count x + n) 0 xs)%Z
  end.

Definition new_atom (a : Atom) : M BoxedExpression :=
  fun s =>
    Some (BoxedAtom (next_oid s) a,
          mkEngine (S (next_oid s))
            (<[next_oid s := BoxedAtom (next_oid s) a]> (objects s))
            (_canonical s) (_numericValue s) (_isPure s)
            (context s) (numericMode s) (iterationLimit s)).

(** The sign of a leaf: known for a machine number or a rational, unknown
    for a symbol, never a sign for the rest. *)
Definition sign_of_atom (a : Atom) : Sgn :=
  match a with
  | ANumber (MachineValue (JSFinite q)) =>
      Sign (match Qcompare q 0 with Lt => -1 | Eq => 0 | Gt => 1 end)
  | ANumber (RationalValue n d) => Sign (Z.sgn n * Z.sgn d)
  | ASymbol _ => SgnUndefined
  | _ => SgnNull
  end.

Definition i_times_2 : Complex := mkComplex (js_of_Z 1) (js_of_Z 2).

(** The definitions of the example scope. *)
Definition Add_def : BoxedFunctionDefinition :=
  mkFunctionDefinition "Add" true true false false None false false 1000 HoldNone.
Definition Multiply_def : BoxedFunctionDefinition :=
  mkFunctionDefinition "Multiply" true true false false None false false 2000 HoldNone.
Definition Negate_def : BoxedFunctionDefinition :=
  mkFunctionDefinition "Negate" false false false true None false false 3000 HoldNone.
Definition Abs_def : BoxedFunctionDefinition :=
  mkFunctionDefinition "Abs" false false true false None false false 3000 HoldNone.
Definition Sqrt_def : BoxedFunctionDefinition :=
  mkFunctionDefinition "Sqrt" false false false false None false false 3000 HoldNone.
Definition Big_def : BoxedFunctionDefinition :=
  mkFunctionDefinition "Big" false false false false None false false 3000 HoldNone.

Definition scope : Scope :=
  [Add_def; Multiply_def; Negate_def; Abs_def; Sqrt_def; Big_def].

(** [Sqrt] has an [N] handler that answers with a complex literal, [Big]
    one that answers with a bignum; the other definitions have no handler. *)
Definition handlers (d : BoxedFunctionDefinition) : BoxedFunctionSignature :=
  if String.eqb (name d) "Sqrt" then
    mkSignature None None None
      (Some (fun _ => let* r := new_atom (ANumber (ComplexValue i_times_2)) in
                      ret (Some r)))
  else if String.eqb (name d) "Big" then
    mkSignature None None None
      (Some (fun _ => let* r := new_atom (ANumber (BignumValue (mkDecimal 15 (-1)))) in
                      ret (Some r)))
  else mkSignature None None None None.

(** The only rule rewrites [Abs(x)] into [x]. *)
Definition rewrite_Abs (e : BoxedExpression) (_ : BoxedRuleSet)
  : M (option BoxedExpression) :=
  match e with
  | BoxedFunction _ (HName "Abs") [x] _ => ret (Some x)
  | _ => ret None
  end.

#[export] Instance library : Library := {|
  signature := handlers;
  validateSignature := fun _ _ => ret None;
  order := by_rank;
  costFunction := fun e => inject_Z (node_count e);
  replace := rewrite_Abs;
  standardSimplificationRules := ret [];
  fn := fun h xs => new_BoxedFunction h xs false None;
  tuple := fun xs => new_BoxedFunction (HName "Tuple") xs true None;
  number := fun v => new_atom (ANumber v);
  toNumber := fun d => JSFinite (inject_Z (mantissa d) * Qpower 10 (exponent d));
  evaluateHead := fun e => ret e;
  isImaginary := fun _ => ret false;
  asSmallInteger := fun _ => None;
  atom_isValid := fun _ _ => true;
  atom_isCanonical := fun _ _ => true;
  atom_canonical := fun oid a => ret (BoxedAtom oid a);
  atom_isPure := fun _ _ => ret true;
  atom_subs := fun oid a _ => ret (BoxedAtom oid a);
  atom_simplify := fun oid a _ => ret (BoxedAtom oid a);
  atom_evaluate := fun oid a => ret (BoxedAtom oid a);
  atom_N := fun oid a => ret (BoxedAtom oid a);
  atom_numericValue := fun _ _ => ret None;
  atom_sgn := fun _ a => ret (sign_of_atom a);
  atom_isZero := fun _ _ => ret None;
  atom_isSame := fun oid a rhs =>
    match rhs with
    | BoxedAtom oid' _ => Nat.eqb oid oid'
    | _ => false
    end;
  atom_match := fun oid a rhs =>
    match rhs with
    | Some (BoxedAtom oid' _) => if Nat.eqb oid oid' then Some ∅ else None
    | _ => None
    end
|}.

Definition x : BoxedExpression := BoxedAtom 10 (ASymbol "x").
Definition y : BoxedExpression := BoxedAtom 11 (ASymbol "y").
Definition one : BoxedExpression := BoxedAtom 12 (ANumber (MachineValue (js_of_Z 1))).
Definition two : BoxedExpression := BoxedAtom 13 (ANumber (MachineValue (js_of_Z 2))).

(** [["Error", "'missing'"]], not yet canonical. *)
Definition error : BoxedExpression :=
  BoxedFunction 20 (HName "Error") [BoxedAtom 14 (AString "missing")] None.

(** An engine with the example scope, in machine mode; the leaves above
    are registered. *)
Definition engine : Engine :=
  mkEngine 100
    (<[0%nat := Nothing]> (<[1%nat := _NAN]> (<[10%nat := x]> (<[11%nat := y]>
       (<[12%nat := one]> (<[13%nat := two]>
          (<[14%nat := BoxedAtom 14 (AString "missing")]> (<[20%nat := error]> ∅))))))))
    ∅ ∅ ∅ [scope] ModeMachine 1024.

(** The product [x * 2], canonical. *)
Definition product : BoxedExpression :=
  BoxedFunction 30 (HName "Multiply") [x; two] (Some Multiply_def).
Definition register (e : BoxedExpression) (s : Engine) : Engine :=
  mkEngine (next_oid s) (<[oid_of e := e]> (objects s)) (_canonical s)
    (_numericValue s) (_isPure s) (context s) (numericMode s) (iterationLimit s).
Definition engine_product : Engine :=
  set_canonical 30 product (register product engine).

(** [Abs(x)], [Sqrt(x)] and [Big(x)], canonical. *)
Definition abs_x : BoxedExpression :=
  BoxedFunction 31 (HName "Abs") [x] (Some Abs_def).
Definition sqrt_x : BoxedExpression :=
  BoxedFunction 32 (HName "Sqrt") [x] (Some Sqrt_def).
Definition big_x : BoxedExpression :=
  BoxedFunction 33 (HName "Big") [x] (Some Big_def).
Definition engine_canonical : Engine :=
  set_canonical 33 big_x (set_canonical 32 sqrt_x (set_canonical 31 abs_x
    (register big_x (register sqrt_x (register abs_x engine))))).


(** The product [x * 2] as it is boxed, not yet canonical. *)
Definition unsorted : BoxedExpression :=
  BoxedFunction 40 (HName "Multiply") [x; two] None.
Definition engine_unsorted : Engine := register unsorted engine.

(** An engine outside the representation invariant: [Negate(Add(x))] is
    constructed with [canonical: true] on the operand [Add(x)], which is
    not canonical; [outer] is [Negate] of it, not yet canonical. *)
Definition inner_sum : BoxedExpression :=
  BoxedFunction 50 (HName "Add") [x] None.
Definition flagged : BoxedExpression :=
  BoxedFunction 51 (HName "Negate") [inner_sum] (Some Negate_def).
Definition outer : BoxedExpression :=
  BoxedFunction 52 (HName "Negate") [flagged] None.
Definition engine_flagged : Engine :=
  set_canonical 51 flagged
    (register outer (register flagged (register inner_sum engine))).

End Example.

(* ================================================================== *)
(** * A rule that makes an expression cheaper, for the examples *)
(* ================================================================== *)

Module ExampleCost.

(** [Square], beside the definitions of the example scope. *)
Definition Square_def : BoxedFunctionDefinition :=
  mkFunctionDefinition "Square" false false false false None false false 3000 HoldNone.

Definition scope : Scope := Square_def :: Example.scope.

(** The only rule rewrites [Sqrt(Square(x))] into [Abs(x)], a new
    canonical expression, whatever [x] is. *)
Definition rewrite_Sqrt_Square (e : BoxedExpression) (_ : BoxedRuleSet)
  : M (option BoxedExpression) :=
  match e with
  | BoxedFunction _ (HName "Sqrt") [BoxedFunction _ (HName "Square") [x] _] _ =>
      let* r := new_BoxedFunction (HName "Abs") [x] true (Some Example.Abs_def) in
      ret (Some r)
  | _ => ret None
  end.

(** The library of the examples with this rule, without handlers; the
    cost of an expression is the number of its nodes. *)
Definition library : Library := {|
  signature := fun _ => mkSignature None None None None;
  validateSignature := fun _ _ => ret None;
  order := Example.by_rank;
  costFunction := fun e => inject_Z (Example.node_count e);
  replace := rewrite_Sqrt_Square;
  standardSimplificationRules := ret [];
  fn := fun h xs => new_BoxedFunction h xs false None;
  tuple := fun xs => new_BoxedFunction (HName "Tuple") xs true None;
  number := fun v => Example.new_atom (ANumber v);
  toNumber := fun d => JSFinite (inject_Z (mantissa d) * Qpower 10 (exponent d));
  evaluateHead := fun e => ret e;
  isImaginary := fun _ => ret false;
  asSmallInteger := fun _ => None;
  atom_isValid := fun _ _ => true;
  atom_isCanonical := fun _ _ => true;
  atom_canonical := fun oid a => ret (BoxedAtom oid a);
  atom_isPure := fun _ _ => ret true;
  atom_subs := fun oid a _ => ret (BoxedAtom oid a);
  atom_simplify := fun oid a _ => ret (BoxedAtom oid a);
  atom_evaluate := fun oid a => ret (BoxedAtom oid a);
  atom_N := fun oid a => ret (BoxedAtom oid a);
  atom_numericValue := fun _ _ => ret None;
  atom_sgn := fun _ a => ret (Example.sign_of_atom a);
  atom_isZero := fun _ _ => ret None;
  atom_isSame := fun oid a rhs =>
    match rhs with
    | BoxedAtom oid' _ => Nat.eqb oid oid'
    | _ => false
    end;
  atom_match := fun oid a rhs =>
    match rhs with
    | Some (BoxedAtom oid' _) => if Nat.eqb oid oid' then Some ∅ else None
    | _ => None
    end
|}.

(** [Sqrt(Square(x))], canonical, and the [Abs(x)] that the rule makes of
    it in [engine]. *)
Definition square_x : BoxedExpression :=
  BoxedFunction 41 (HName "Square") [Example.x] (Some Square_def).
Definition sqrt_square_x : BoxedExpression :=
  BoxedFunction 42 (HName "Sqrt") [square_x] (Some Example.Sqrt_def).
Definition abs_x : BoxedExpression :=
  BoxedFunction 100 (HName "Abs") [Example.x] (Some Example.Abs_def).

(** An engine with the scope above and an iteration limit of 8. *)
Definition engine : Engine :=
  set_canonical 42 sqrt_square_x (set_canonical 41 square_x
    (Example.register sqrt_square_x (Example.register square_x
       (mkEngine 100 (objects Example.engine) ∅ ∅ ∅ [scope] ModeMachine 8)))).

End ExampleCost.

(* ================================================================== *)
(** * An error marker below the head, for the examples *)
(* ================================================================== *)

Module ExampleError.

(** [Add(Add(Error('missing'), 1), 2)] as it is boxed, not yet canonical. *)
Definition inner : BoxedExpression :=
  BoxedFunction 60 (HName "Add") [Example.error; Example.one] None.
Definition outer : BoxedExpression :=
  BoxedFunction 61 (HName "Add") [inner; Example.two] None.
Definition engine : Engine :=
  Example.register outer (Example.register inner Example.engine).

(** Its canonical form, [Add(Error('missing'), 1, 2)]. *)
Definition flat : BoxedExpression :=
  BoxedFunction 101 (HName "Add") [Example.error; Example.one; Example.two]
    (Some Example.Add_def).

End ExampleError.

(* ================================================================== *)
(** * A small LaTeX front and back end, for the examples *)
(* ================================================================== *)

Module ExampleLatex.
Import MathJson.

(** The tokens are the words of the input. *)
Fixpoint words (current : string) (s : string) : list string :=
  match s with
  | EmptyString => if String.eqb current "" then [] else [current]
  | String c rest =>
      if Ascii.eqb c " "%char
      then (if String.eqb current "" then [] else [current]) ++ words "" rest
      else words (current +:+ String c EmptyString) rest
  end.

(** A symbol of one letter is an expression; nothing else is. *)
Definition one_symbol (p : Parser) : option Expression * nat :=
  match tokens p !! index p with
  | Some (String c EmptyString as t) =>
      if Ascii.eqb c LatexSyntax.escape_marker then (None, index p)
      else (Some (EString t), S (index p))
  | _ => (None, index p)
  end.

Definition error_of (code : ErrorCode) : Expression :=
  match code with
  | CodeString c => EFunction [EString "Error"; EStringObject None c]
  | CodeTagged tag args =>
      EFunction [EString "Error";
                 EFunction (EString "ErrorCode" :: EStringObject None tag :: args)]
  end.

(** Integers and symbols print as they are. *)
Definition show (e : Expression) : string :=
  match e with
  | ENumber (JSFinite q) => pretty (Qnum q)
  | EString s => s
  | _ => "?"
  end.

#[export] Instance services : LatexServices := {|
  tokenize := words "";
  tokensToString := fun ts => String.concat "" ts;
  joinLatex := fun ts => String.concat "" ts;
  matchExpression := one_symbol;
  peekDefinitions_infix := fun _ => None;
  parser_error := fun _ code _ => error_of code;
  number_toString := fun n => show (ENumber n);
  parse_num := fun _ => JSNaN;
  rationalValue := fun _ => None;
  getFractionStyle := fun _ _ => Quotient;
  getRootStyle := fun _ _ => Radical;
  wrap := fun e _ => ret (match e with Some e => show e | None => "" end);
  wrapShort := fun e => ret (match e with Some e => show e | None => "" end);
  serialize_other := fun e => ret (show e)
|}.

Definition serializer : Serializer := mkSerializer 0 "\times" "".

(** [["Multiply", 2, ["Rational", 1, 3]]] *)
Definition two_thirds : Expression :=
  EFunction [LatexSyntax.MULTIPLY; ENumber (js_of_Z 2);
             EFunction [EString "Rational"; ENumber (js_of_Z 1); ENumber (js_of_Z 3)]].

(** [["Multiply", "x", ["Power", 1, -1]]] *)
Definition x_over_1 : Expression :=
  EFunction [LatexSyntax.MULTIPLY; EString "x";
             EFunction [LatexSyntax.POWER; ENumber (js_of_Z 1); ENumber (js_of_Z (-1))]].


(** [["Multiply", "x", ["Power", 0, -1], ["Power", "y", -1]]] *)
Definition x_over_0_y : Expression :=
  EFunction [LatexSyntax.MULTIPLY; EString "x";
             EFunction [LatexSyntax.POWER; ENumber (js_of_Z 0); ENumber (js_of_Z (-1))];
             EFunction [LatexSyntax.POWER; EString "y"; ENumber (js_of_Z (-1))]].

End ExampleLatex.

(* ================================================================== *)
(** * The representation invariant of canonical forms *)
(* ================================================================== *)

Section Invariant.
Context `{Library}.

(** The object [x] has been registered with the engine. *)
Definition registered (s : Engine) (x : BoxedExpression) : Prop :=
  objects s !! oid_of x = Some x.

(** The objects an object refers to: its head, when it is an expression,
    and its operands. *)
Definition children (x : BoxedExpression) : list BoxedExpression :=
  match x with
  | BoxedFunction _ (HExpr h) xs _ => h :: xs
  | BoxedFunction _ (HName _) xs _ => xs
  | BoxedAtom _ _ => []
  end.

(** The [canonical] accessor of [x] returns [x]: [x._canonical] is [x], or
    it is not set and [x] is not valid, in which case the accessor sets it
    to [x]; a leaf is canonical. *)
Definition stable (s : Engine) (x : BoxedExpression) : Prop :=
  match x with
  | BoxedFunction k _ _ _ =>
      _canonical s !! k = Some x \/
      (_canonical s !! k = None /\ isValid s x = false)
  | BoxedAtom k a => atom_isCanonical k a = true
  end.

(** The objects of the engine: an identity names one object, which was
    allocated before the next identity; the objects that an object refers
    to are registered, and so are the cached canonical forms. *)
Record registry_ok (s : Engine) : Prop := {
  reg_oid : forall k x, objects s !! k = Some x -> oid_of x = k /\ (k < next_oid s)%nat;
  reg_children : forall k x, objects s !! k = Some x -> Forall (registered s) (children x);
  reg_nothing : registered s Nothing;
  reg_canonical : forall k c, _canonical s !! k = Some c -> registered s c
}.

(** The canonical forms of the engine: a cached canonical form is itself
    stable; an object whose canonical form is another object is valid; the
    operands of an object that is its own canonical form are stable (an
    [Error] apart, which the accessor marks canonical as it is). *)
Record canonical_ok (s : Engine) : Prop := {
  can_stable : forall k c, _canonical s !! k = Some c -> stable s c;
  can_other : forall k c x,
    _canonical s !! k = Some c -> objects s !! k = Some x -> c <> x ->
    isValid s x = true;
  can_operands : forall k n xs d,
    objects s !! k = Some (BoxedFunction k (HName n) xs d) ->
    _canonical s !! k = Some (BoxedFunction k (HName n) xs d) ->
    n <> "Error" -> Forall (stable s) xs
}.

Definition engine_invariant (s : Engine) : Prop :=
  registry_ok s /\ canonical_ok s.

(** How the engine changes: objects are added, never changed; an object
    that is its own canonical form stays so; an object becomes its own
    canonical form only if it is not valid. *)
Record evolves (s s' : Engine) : Prop := {
  ev_oid : (next_oid s <= next_oid s')%nat;
  ev_objects : forall k x, objects s !! k = Some x -> objects s' !! k = Some x;
  ev_self : forall k x,
    objects s !! k = Some x -> _canonical s !! k = Some x ->
    _canonical s' !! k = Some x;
  ev_flag : forall k x,
    objects s !! k = Some x -> _canonical s !! k <> Some x ->
    _canonical s' !! k = Some x -> isValid s x = false
}.

(** What a service that returns expressions leaves behind: the invariant,
    an engine that has evolved, and expressions that are registered. *)
Definition good_step (s s' : Engine) (rs : list BoxedExpression) : Prop :=
  engine_invariant s' /\ evolves s s' /\ Forall (registered s') rs.

(** What the [canonical] accessor leaves behind: the invariant, an engine
    that has evolved, and a result that is registered and stable. *)
Definition canonical_post (s s' : Engine) (c : BoxedExpression) : Prop :=
  engine_invariant s' /\ evolves s s' /\ registered s' c /\ stable s' c.

(** The operand lists that the accessor builds are registered, and stable
    unless the head is [Error]. *)
Definition operands_ok (s : Engine) (hname : string) (xs : list BoxedExpression)
  : Prop :=
  Forall (registered s) xs /\ (hname <> "Error" -> Forall (stable s) xs).

(** The contract of the services that the [canonical] accessor calls.
    The [canonical] handler of a definition returns an expression that is
    canonical or not valid (the source asserts
    [!fn.isValid || fn.isCanonical]); the leaf classes return canonical
    leaves, and a canonical leaf is its own canonical form. *)
Record well_behaved : Prop := {
  wb_atom_canonical : forall k a s c s',
    engine_invariant s -> registered s (BoxedAtom k a) ->
    atom_canonical k a s = Some (c, s') ->
    good_step s s' [c] /\ stable s' c;
  wb_atom_fixed : forall k a s,
    atom_isCanonical k a = true ->
    atom_canonical k a s = Some (BoxedAtom k a, s);
  wb_nothing : atom_isCanonical 0 (ASymbol "Nothing") = true;
  wb_evaluateHead : forall e s v s',
    engine_invariant s -> registered s e ->
    evaluateHead e s = Some (v, s') -> good_step s s' [];
  wb_validateSignature : forall sig xs s v s',
    engine_invariant s -> Forall (registered s) xs ->
    validateSignature sig xs s = Some (v, s') ->
    good_step s s' (default [] v) /\
    (Forall (stable s) xs -> Forall (stable s') (default [] v));
  wb_canonical_handler : forall def handler xs s c s',
    sig_canonical (signature def) = Some handler ->
    engine_invariant s -> Forall (registered s) xs ->
    handler xs s = Some (c, s') ->
    good_step s s' [c] /\ stable s' c
}.

End Invariant.

(** The entries of a map that is written as a sequence of insertions, one
    by one. *)
Ltac each_object H :=
  repeat (apply lookup_insert_Some in H as [[<- <-] | [_ H]]);
  [.. | by rewrite lookup_empty in H].

(* ================================================================== *)
(** * More of boxed-function.ts: operand lists *)
(* ================================================================== *)

Section OperandLists.
Context `{Library}.

(** The [for] loop of [canonicalHoldMap]; both branches of its [if] push
    [x.canonical]. *)
Fixpoint canonicalHoldMap_loop (skip : HoldPolicy) (count : nat)
  (i : nat) (rest : list BoxedExpression) (result : list BoxedExpression)
  : M (list BoxedExpression) :=
  match rest with
  | [] => ret result
  | x :: rest' =>
      if head_is (head x) "Hold" || head_is (head x) "ReleaseHold"
         || negb (applicable skip count i)
      then
        let* c := canonical x in
        canonicalHoldMap_loop skip count (S i) rest' (result ++ [c])
      else
        let* c := canonical x in
        canonicalHoldMap_loop skip count (S i) rest' (result ++ [c])
  end.

(** [canonicalHoldMap(head, xs, skip, associative)]: "Like [HoldMap] but
    preserves [Hold] and [ReleaseHold]". *)
Definition canonicalHoldMap (h : string) (xs : list BoxedExpression)
  (skip : HoldPolicy) (assoc : bool) : M (list BoxedExpression) :=
  match xs with
  | [] => ret []
  | _ =>
      (* f(a, f(b, c), d) -> f(a, b, c, d) *)
      let xs := if assoc then flattened xs h else xs in
      let* result := canonicalHoldMap_loop skip (length xs - 1) 0 xs [] in
      if assoc then ret (flattened result h) else ret result
  end.



End OperandLists.

(* ================================================================== *)
(** * More of boxed-function.ts: has and apply *)
(* ================================================================== *)

(** The argument of [has(x: string | string[])]. *)
Inductive NameOrNames : Type :=
| OneName (x : string)
| Names (xs : list string).

(** [this.head === newHead]: strings are compared by value, objects by
    identity. *)
Definition head_same (h h' : Head BoxedExpression) : bool :=
  match h, h' with
  | HName n, HName n' => String.eqb n n'
  | HExpr e, HExpr e' => same_object e e'
  | _, _ => false
  end.

Section HasApply.
Context `{Library}.
(** [has] and [apply] of the leaf classes, which are not in the available
    sources. *)
Variable atom_has : nat -> Atom -> NameOrNames -> bool.
Variable atom_apply :
  nat -> Atom -> (BoxedExpression -> M BoxedExpression) -> option string ->
  M BoxedExpression.

(** [has(x)] of [BoxedFunction]: the head, when it is a string, then the
    operands; a head that is an expression is not looked into. *)
Fixpoint has (this : BoxedExpression) (x : NameOrNames) : bool :=
  match this with
  | BoxedAtom oid a => atom_has oid a x
  | BoxedFunction _ h xs _ =>
      if match h with
         | HName n =>
             match x with
             | OneName x => String.eqb n x
             | Names l => bool_decide (n ∈ l)
             end
         | HExpr _ => false
         end
      then true
      else existsb (fun arg => has arg x) xs
  end.

(** The [for] loop of [apply]: [opsChanged] and [ops]. *)
Fixpoint apply_loop (f : BoxedExpression -> M BoxedExpression)
  (args : list BoxedExpression) (opsChanged : bool) (ops : list BoxedExpression)
  : M (bool * list BoxedExpression) :=
  match args with
  | [] => ret (opsChanged, ops)
  | arg :: args' =>
      let* newArg := f arg in
      let* b := box newArg in
      apply_loop f args' (opsChanged || negb (same_object arg newArg)) (ops ++ [b])
  end.

(** [apply(fn, head)] of [BoxedFunction]; the callback returns boxed
    expressions, which [ce.box] returns as they are. *)
Definition apply (this : BoxedExpression)
  (f : BoxedExpression -> M BoxedExpression) (head_ : option string)
  : M BoxedExpression :=
  match this with
  | BoxedAtom oid a => atom_apply oid a f head_
  | BoxedFunction _ h xs _ =>
      let newHead := match head_ with Some n => HName n | None => h end in
      let* r := apply_loop f xs false [] in
      if negb (fst r) && head_same h newHead then ret this
      else fn newHead (snd r)
  end.

End HasApply.

(* ================================================================== *)
(** * The contract of the leaf classes for isSame *)
(* ================================================================== *)

Section SameLeaves.
Context `{Library}.

(** What the properties of [isSame] ask of the leaf classes, which are
    not in the available sources: a leaf is not the same as a function,
    and [isSame] is symmetric and transitive on leaves. *)
Record same_leaves : Prop := {
  leaf_function : forall k a oid h xs d,
    atom_isSame k a (BoxedFunction oid h xs d) = false;
  leaf_symmetric : forall k a k' a',
    atom_isSame k a (BoxedAtom k' a') = atom_isSame k' a' (BoxedAtom k a);
  leaf_transitive : forall k a k' a' k'' a'',
    atom_isSame k a (BoxedAtom k' a') = true ->
    atom_isSame k' a' (BoxedAtom k'' a'') = true ->
    atom_isSame k a (BoxedAtom k'' a'') = true
}.

End SameLeaves.

(* ================================================================== *)
(** * More examples *)
(* ================================================================== *)

Module ExampleMore.

(** A second object for the product [x * 2]. *)
Definition product_copy : BoxedExpression :=
  BoxedFunction 34 (HName "Multiply") [Example.x; Example.two]
    (Some Example.Multiply_def).
Definition engine_copies : Engine :=
  Example.register product_copy Example.engine_product.

(** A symbol has its own name, the other leaves have none. *)
Definition symbol_has (_ : nat) (a : Atom) (x : NameOrNames) : bool :=
  match a, x with
  | ASymbol s, OneName n => String.eqb s n
  | ASymbol s, Names l => bool_decide (s ∈ l)
  | _, _ => false
  end.

(** A leaf is returned as it is. *)
Definition leaf_apply (oid : nat) (a : Atom)
  (_ : BoxedExpression -> M BoxedExpression) (_ : option string)
  : M BoxedExpression :=
  ret (BoxedAtom oid a).

(** The callback that replaces [x] by [y]. *)
Definition x_to_y (e : BoxedExpression) : M BoxedExpression :=
  ret (if same_object e Example.x then Example.y else e).

End ExampleMore.

(* ================================================================== *)
(** * What isPure leaves as it is *)
(* ================================================================== *)

(** From [s] to [s'] nothing changes but the [_isPure] caches. *)
Definition only_purity_changes (s s' : Engine) : Prop :=
  next_oid s' = next_oid s /\ objects s' = objects s /\
  _canonical s' = _canonical s /\ _numericValue s' = _numericValue s /\
  context s' = context s /\ numericMode s' = numericMode s /\
  iterationLimit s' = iterationLimit s.

(* ================================================================== *)
(** * More of boxed-function.ts: the predicates on the sign *)
(* ================================================================== *)

Section SignPredicates.
Context `{Library}.

(** The common shape of [isNotZero], [isPositive], [isNonPositive],
    [isNegative] and [isNonNegative]:
    [if (s === null) return false;
     if (typeof s === 'number') return test(s);
     return undefined]. *)
Definition sign_test (test : Z -> bool) (s : Sgn) : option bool :=
  match s with
  | SgnNull => Some false
  | Sign z => Some (test z)
  | SgnUndefined => None
  end.

(** [get isNotZero()]: [s !== 0]. *)
Definition isNotZero (fuel : nat) (this : BoxedExpression) : M (option bool) :=
  let* s := sgn fuel this in ret (sign_test (fun z => negb (z =? 0)%Z) s).

(** [get isPositive()]: [s > 0]. *)
Definition isPositive (fuel : nat) (this : BoxedExpression) : M (option bool) :=
  let* s := sgn fuel this in ret (sign_test (fun z => (0 <? z)%Z) s).

(** [get isNonPositive()]: [s <= 0]. *)
Definition isNonPositive (fuel : nat) (this : BoxedExpression) : M (option bool) :=
  let* s := sgn fuel this in ret (sign_test (fun z => (z <=? 0)%Z) s).

(** [get isNegative()]: [s < 0]. *)
Definition isNegative (fuel : nat) (this : BoxedExpression) : M (option bool) :=
  let* s := sgn fuel this in ret (sign_test (fun z => (z <? 0)%Z) s).

(** [get isNonNegative()]: [s >= 0]. *)
Definition isNonNegative (fuel : nat) (this : BoxedExpression) : M (option bool) :=
  let* s := sgn fuel this in ret (sign_test (fun z => (0 <=? z)%Z) s).

End SignPredicates.

Module ExampleSigns.

(** The product [2 * 1] and the sum [1 + 2], canonical. *)
Definition two_times_one : BoxedExpression :=
  BoxedFunction 35 (HName "Multiply") [Example.two; Example.one]
    (Some Example.Multiply_def).
Definition one_plus_two : BoxedExpression :=
  BoxedFunction 36 (HName "Add") [Example.one; Example.two]
    (Some Example.Add_def).
Definition engine : Engine :=
  set_canonical 36 one_plus_two (set_canonical 35 two_times_one
    (Example.register one_plus_two (Example.register two_times_one Example.engine))).

End ExampleSigns.

(* ================================================================== *)
(** * More of definitions-arithmetic.ts: roots and powers *)
(* ================================================================== *)

Module LatexArithmetic.
Import MathJson LatexSyntax.

Section Roots.
Context `{LatexServices}.
(** [parser.matchOptionalLatexArgument()] and
    [parser.matchRequiredLatexArgument()] of [_Parser], which is not in
    the available sources: the argument, or [null], and the parser
    afterwards. *)
Variable matchOptionalLatexArgument : Parser -> option Expression * Parser.
Variable matchRequiredLatexArgument : Parser -> option Expression * Parser.

(** [parseRoot(parser)]. *)
Definition parseRoot (parser : Parser) : option Expression * Parser :=
  let '(degree, parser) := matchOptionalLatexArgument parser in
  let '(base, parser) := matchRequiredLatexArgument parser in
  (match base with
   | Some b =>
       if isEmptySequence base then
         match degree with
         | Some _ =>
             Some (EFunction [EString "Root";
                              EFunction [EString "Error"; EString "'missing'"];
                              missingIfEmpty degree])
         | None =>
             Some (EFunction [EString "Sqrt";
                              EFunction [EString "Error"; EString "'missing'"]])
         end
       else
         match degree with
         | Some d => Some (EFunction [EString "Root"; b; d])
         | None => Some (EFunction [EString "Sqrt"; b])
         end
   | None =>
       match degree with
       | Some _ =>
           Some (EFunction [EString "Root";
                            EFunction [EString "Error"; EString "'missing'"];
                            missingIfEmpty degree])
       | None =>
           Some (EFunction [EString "Sqrt";
                            EFunction [EString "Error"; EString "'missing'"]])
       end
   end, parser).

(** [getRootStyle(expr, serializer.level)], where [expr] is not [null]:
    [serializePower] asks for the style where the head of [expr] or of
    its second operand has been read. *)
Definition rootStyle_of (expr : option Expression) (s : Serializer) : RootStyle :=
  match expr with
  | Some e => getRootStyle e (level s)
  | None => Radical
  end.

(** [machineValue(e) === v] *)
Definition machineValue_is (expr : option Expression) (v : Z) : bool :=
  match machineValue expr with
  | Some n => js_eqb n (js_of_Z v)
  | None => false
  end.

(** [serializePower(serializer, expr)]; [serialize_] is
    [serializer.serialize]. *)
Definition serializePower (serialize_ : option Expression -> ST Serializer string)
  (expr : option Expression) : ST Serializer string :=
  let arg1 := missingIfEmpty (op expr 1) in
  let arg2 := missingIfEmpty (op expr 2) in
  let* s := get_state in
  if head_is expr "Sqrt" then
    serializeRoot serialize_ (rootStyle_of expr s) (Some arg1)
      (Some (ENumber (js_of_Z 2)))
  else if head_is expr "Root" then
    serializeRoot serialize_ (rootStyle_of expr s) (Some arg1) (Some arg2)
  else
    let val2 := default (js_of_Z 1) (machineValue (Some arg2)) in
    let power :=
      let* b := wrapShort (Some arg1) in
      let* e := serialize_ (Some arg2) in
      ret (b +:+ "^{" +:+ e +:+ "}") in
    if js_eqb val2 (js_of_Z (-1)) then
      serialize_ (Some (EFunction [DIVIDE; EString "1"; arg1]))
    else if js_ltb val2 (js_of_Z 0) then
      serialize_
        (Some (EFunction [DIVIDE; EString "1";
                          EFunction [POWER; arg1; ENumber (js_neg val2)]]))
    else if head_is (Some arg2) "Divide" || head_is (Some arg2) "Rational" then
      if machineValue_is (op (Some arg2) 1) 1 then
        (* It's x^{1/n} -> it's a root *)
        serializeRoot serialize_ (rootStyle_of expr s) (Some arg1)
          (op (Some arg2) 2)
      else power
    else if head_is (Some arg2) "Power" then
      if machineValue_is (op (Some arg2) 2) (-1) then
        (* It's x^{n^-1} -> it's a root *)
        serializeRoot serialize_ (rootStyle_of expr s) (Some arg1)
          (op (Some arg2) 1)
      else power
    else power.

End Roots.

End LatexArithmetic.
(* ================================================================== *)
(** * The trigonometry library: identities by quadrant, inverse functions *)
(* ================================================================== *)

Module Trigonometry.

(** What [table[key]] gives for an object literal [table]: the value of
    its own key, a member that the literal inherits from
    [Object.prototype], or [undefined]. *)
Inductive Property (A : Type) : Type :=
| Own (value : A)
| Inherited (member : string)
| Undefined.
Arguments Own {A} value.
Arguments Inherited {A} member.
Arguments Undefined {A}.

(** The names of the members of [Object.prototype]. *)
Definition Object_prototype : list string :=
  ["constructor"; "hasOwnProperty"; "isPrototypeOf"; "propertyIsEnumerable";
   "toLocaleString"; "toString"; "valueOf"; "__proto__"; "__defineGetter__";
   "__defineSetter__"; "__lookupGetter__"; "__lookupSetter__"].

(** An object literal with string keys, read with [table[key]]: the own
    keys first, then the prototype. *)
Fixpoint property {A} (key : string) (table : list (string * A)) : Property A :=
  match table with
  | [] => if bool_decide (key ∈ Object_prototype) then Inherited key else Undefined
  | (k, v) :: table' => if String.eqb k key then Own v else property key table'
  end.

(** [TRIG_IDENTITIES]: "For each trig function, by quadrant (0-π/2,
    π/2-π, π-3π/2, 3π/2-2π), what is the corresponding identity (sign
    and function)". *)
Definition TRIG_IDENTITIES : list (string * list (Z * string)) :=
  [("Sin", [(1, "Sin"); (1, "Cos"); (-1, "Sin"); (-1, "Cos")]%Z);
   ("Cos", [(1, "Cos"); (-1, "Sin"); (-1, "Cos"); (1, "Sin")]%Z);
   ("Sec", [(1, "Sec"); (-1, "Csc"); (-1, "Sec"); (1, "Csc")]%Z);
   ("Csc", [(1, "Csc"); (1, "Sec"); (-1, "Csc"); (-1, "Sec")]%Z);
   ("Tan", [(1, "Tan"); (-1, "Cot"); (1, "Tan"); (-1, "Cot")]%Z);
   ("Cot", [(1, "Cot"); (-1, "Tan"); (1, "Cot"); (-1, "Tan")]%Z)].

(** [TRIG_IDENTITIES[head]?.[quadrant] ?? [1, head]], as
    [constructibleValues] reads the table.  A member of
    [Object.prototype] has no property that is a number, so that
    [member[quadrant]] is [undefined]. *)
Definition identity_of (head : string) (quadrant : nat) : Z * string :=
  match property head TRIG_IDENTITIES with
  | Own row => default (1%Z, head) (row !! quadrant)
  | Inherited _ | Undefined => (1%Z, head)
  end.

(** The object literal of [processInverseFunction]. *)
Definition INVERSE_FUNCTIONS : list (string * string) :=
  [("Sin", "Arcsin"); ("Cos", "Arccos"); ("Tan", "Arctan"); ("Sec", "Arcsec");
   ("Csc", " Arccsc"); ("Sinh", "Arsinh"); ("Cosh", "Arcosh");
   ("Tanh", "Artanh"); ("Sech", "Arcsech"); ("Csch", "Arcsch");
   ("Arcosh", "Cosh"); ("Arcos", "Cos"); ("Arccsc", "Csc"); ("Arcsch", "Csch");
   ("Arcsec", "Sec"); ("Arcsin", "Sin"); ("Arsinh", "Sinh"); ("Arctan", "Tan");
   ("Artanh", "Tanh")].

Section InverseFunction.
(** [ce.symbol(name)], which is not in the available sources, for a
    string and for a member of [Object.prototype] (an object, which is
    truthy, and which [processInverseFunction] hands to [ce.symbol] as it
    does a string). *)
Variable ce_symbol : string -> M BoxedExpression.
Variable ce_symbol_of_member : string -> M BoxedExpression.

(** [processInverseFunction(ce, expr)]. *)
Definition processInverseFunction (expr : BoxedExpression) : M BoxedExpression :=
  match symbol expr with
  | None => ret expr
  | Some head =>
      match property head INVERSE_FUNCTIONS with
      | Own newHead =>
          if String.eqb newHead "" then ret expr else ce_symbol newHead
      | Inherited member => ce_symbol_of_member member
      | Undefined => ret expr
      end
  end.

End InverseFunction.

End Trigonometry.

(* ================================================================== *)
(** * Induction on boxed expressions *)
(* ================================================================== *)

(** The induction principle of the nested type: the head, when it is an
    expression, and every operand satisfy the property. *)
Lemma BoxedExpression_ind (P : BoxedExpression -> Prop) :
  (forall oid a, P (BoxedAtom oid a)) ->
  (forall oid n xs d, Forall P xs -> P (BoxedFunction oid (HName n) xs d)) ->
  (forall oid h xs d, P h -> Forall P xs -> P (BoxedFunction oid (HExpr h) xs d)) ->
  forall e, P e.
Proof.
  intros Hatom Hname Hexpr.
  fix IH 1. intros [oid h xs d | oid a].
  - assert (Hxs : Forall P xs).
    { induction xs as [|x xs IHxs]; constructor; [apply IH | exact IHxs]. }
    destruct h as [n | h].
    + apply Hname, Hxs.
    + apply Hexpr; [apply IH | exact Hxs].
  - apply Hatom.
Qed.

(* ================================================================== *)
(** * Computations *)
(* ================================================================== *)

Lemma bind_Some {S A B} (m : ST S A) (f : A -> ST S B) s r s' :
  bind m f s = Some (r, s') <->
  exists x s1, m s = Some (x, s1) /\ f x s1 = Some (r, s').
Proof.
  unfold bind. split.
  - destruct (m s) as [[x s1]|]; [eauto | discriminate].
  - intros (x & s1 & -> & Hf). exact Hf.
Qed.

Lemma bind_ret_l {S A B} (x : A) (f : A -> ST S B) s :
  bind (ret x) f s = f x s.
Proof. reflexivity. Qed.

Lemma bind_assoc {S A B C} (m : ST S A) (f : A -> ST S B) (g : B -> ST S C) s :
  bind (bind m f) g s = bind m (fun x => bind (f x) g) s.
Proof. unfold bind. destruct (m s) as [[x s1]|]; reflexivity. Qed.

Lemma bind_ext {S A B} (m : ST S A) (f g : A -> ST S B) s :
  (forall x s1, f x s1 = g x s1) -> bind m f s = bind m g s.
Proof. intros Hfg. unfold bind. destruct (m s) as [[x s1]|]; auto. Qed.

(* ================================================================== *)
(** * holdMap *)
(* ================================================================== *)

Section HoldMap.

Lemma push_unless_null_app result r :
  push_unless_null result r = result ++ unless_null r.
Proof. destruct r; simpl; [reflexivity | symmetry; apply app_nil_r]. Qed.

(** The loop, with its index and its accumulator, treats the operands one
    by one as [held_operand] says. *)
Lemma holdMap_loop_held_operands skip count f rest :
  forall i result s,
    holdMap_loop skip count f i rest result s =
    bind (held_operands skip count f i rest) (fun rs => ret (result ++ rs)) s.
Proof.
  induction rest as [|x rest IH]; intros i result s; simpl.
  - unfold bind, ret. simpl. by rewrite app_nil_r.
  - unfold held_operand.
    destruct (head_is (head x) "Hold").
    + rewrite IH. rewrite bind_assoc. rewrite bind_ret_l. rewrite bind_assoc.
      apply bind_ext. intros rs s1. rewrite bind_ret_l.
      unfold ret. by rewrite <- app_assoc.
    + destruct (head_is (head x) "ReleaseHold").
      * rewrite !bind_assoc. apply bind_ext. intros r s1.
        rewrite IH, bind_ret_l, bind_assoc. apply bind_ext. intros rs s2.
        rewrite bind_ret_l. unfold ret.
        by rewrite push_unless_null_app, <- app_assoc.
      * destruct (applicable skip count i).
        -- rewrite !bind_assoc. apply bind_ext. intros r s1.
           rewrite IH, bind_ret_l, bind_assoc. apply bind_ext. intros rs s2.
           rewrite bind_ret_l. unfold ret.
           by rewrite push_unless_null_app, <- app_assoc.
        -- rewrite IH. rewrite bind_assoc, bind_ret_l, bind_assoc.
           apply bind_ext. intros rs s1. rewrite bind_ret_l.
           unfold ret. by rewrite <- app_assoc.
Qed.

(** C10 -- In [simplify], [evaluate] and [N] the operands go through
    [holdMap]: for every operand list, every hold policy and every
    callback [f], an operand whose head is [Hold] is replaced by its first
    operand and [f] is not applied to it; [f] is applied to the first
    operand of an operand whose head is [ReleaseHold], also in a position
    that the policy skips; an operand for which [f] returns [null] is
    dropped.  For an associative head the operand list is flattened before
    and the result after. *)
Theorem holdMap_operand_by_operand h xs skip assoc f s :
  holdMap h xs skip assoc f s =
  (let xs' := if assoc then flattened xs h else xs in
   bind (held_operands skip (length xs' - 1) f 0 xs')
     (fun rs => ret (if assoc then flattened rs h else rs))) s.
Proof.
  unfold holdMap. destruct xs as [|x xs].
  - destruct assoc; reflexivity.
  - cbv zeta. set (xs' := if assoc then flattened (x :: xs) h else x :: xs).
    unfold bind. rewrite holdMap_loop_held_operands. unfold bind.
    destruct (held_operands _ _ _ _ _ s) as [[rs s1]|]; [|reflexivity].
    simpl. destruct assoc; reflexivity.
Qed.

(** The three cases of [held_operand], one by one. *)
Lemma held_operand_Hold skip count f i x s :
  head_is (head x) "Hold" = true ->
  held_operand skip count f i x s = Some ([op1 x], s).
Proof. intros Hh. unfold held_operand. by rewrite Hh. Qed.

Lemma held_operand_ReleaseHold skip count f i x s :
  head_is (head x) "ReleaseHold" = true ->
  held_operand skip count f i x s =
  bind (f (op1 x)) (fun r => ret (unless_null r)) s.
Proof.
  intros Hh. unfold held_operand.
  destruct (head_is (head x) "Hold") eqn:Hhold; [|by rewrite Hh].
  destruct (head x) as [n|]; simpl in *; [|discriminate].
  apply String.eqb_eq in Hh, Hhold. congruence.
Qed.

Lemma held_operand_null skip count f i x s s' :
  head_is (head x) "Hold" = false ->
  head_is (head x) "ReleaseHold" = false ->
  applicable skip count i = true ->
  f x s = Some (None, s') ->
  held_operand skip count f i x s = Some ([], s').
Proof.
  intros H1 H2 H3 Hf. unfold held_operand. rewrite H1, H2, H3.
  unfold bind. by rewrite Hf.
Qed.

End HoldMap.

(* ================================================================== *)
(** * match *)
(* ================================================================== *)

Section Match.
Context `{Library}.

Lemma head_differs_same oid n xs d :
  head_differs n (BoxedFunction oid (HName n) xs d) = false.
Proof. unfold head_differs. simpl. by rewrite String.eqb_refl. Qed.

(** C7 -- [match] of a function pattern compares the heads and then the
    operands of the pattern one by one, but never the numbers of operands:
    the pattern [f()] matches the target [f(x1, ..., xn)] for every operand
    list, and the result is the empty substitution, where the claim says
    [null] for different arities. *)
Theorem match_ignores_the_arity oid oid' f xs d d' :
  match_ (BoxedFunction oid (HName f) [] d)
         (Some (BoxedFunction oid' (HName f) xs d')) = Some ∅.
Proof. simpl. by rewrite head_differs_same. Qed.

(** [isSame], next to it, does compare the numbers of operands. *)
Lemma isSame_compares_the_arity oid oid' f x xs d d' :
  oid <> oid' ->
  isSame (BoxedFunction oid (HName f) [] d)
         (BoxedFunction oid' (HName f) (x :: xs) d') = false.
Proof.
  intros Hoid. simpl. unfold same_object. simpl.
  destruct (Nat.eqb_spec oid oid') as [|_]; [contradiction | reflexivity].
Qed.

(** Different heads do fail. *)
Lemma match_different_heads oid oid' f g ps xs d d' :
  f <> g ->
  match_ (BoxedFunction oid (HName f) ps d)
         (Some (BoxedFunction oid' (HName g) xs d')) = None.
Proof.
  intros Hfg. simpl. unfold head_differs. simpl.
  destruct (String.eqb_spec g f) as [->|_]; [contradiction | reflexivity].
Qed.

End Match.

(* ================================================================== *)
(** * sgn *)
(* ================================================================== *)

Section Sgn.
Context `{Library}.

(** Once the product is [NaN] it stays [NaN]. *)
Lemma product_of_signs_NaN sgn_ xs :
  forall s r s', product_of_signs sgn_ xs None s = Some (r, s') -> r = None.
Proof.
  induction xs as [|x xs IH]; intros s r s' Hp; simpl in Hp.
  - by inversion Hp.
  - apply bind_Some in Hp as (sx & s1 & _ & Hp). simpl in Hp. eauto.
Qed.

Lemma product_of_signs_cons sgn_ x xs acc s :
  product_of_signs sgn_ (x :: xs) acc s =
  bind (sgn_ x) (fun sx => product_of_signs sgn_ xs (times_sgn acc sx)) s.
Proof. reflexivity. Qed.

(** C8 -- The sign of a canonical [Multiply] whose first operand has the
    sign [undefined] (unknown, possibly any) is [null] (never a sign),
    whatever the other operands, once their signs are computed:
    [x.sgn ?? NaN] turns [undefined] and [null] alike into [NaN].  The
    claim says [undefined] for a sign that is simply unresolved. *)
Theorem sgn_Multiply_of_unknown_is_null fuel oid x xs d s s1 total s2 :
  isCanonical s (BoxedFunction oid (HName "Multiply") (x :: xs) d) = true ->
  sgn fuel x s = Some (SgnUndefined, s1) ->
  product_of_signs (sgn fuel) xs None s1 = Some (total, s2) ->
  sgn (S fuel) (BoxedFunction oid (HName "Multiply") (x :: xs) d) s
  = Some (SgnNull, s2).
Proof.
  intros Hcanon Hx Hrest.
  pose proof (product_of_signs_NaN _ _ _ _ _ Hrest) as ->.
  assert (Hp : product_of_signs (sgn fuel) (x :: xs) (Some 1%Z) s = Some (None, s2)).
  { rewrite product_of_signs_cons. unfold bind. rewrite Hx. exact Hrest. }
  cbn [sgn]. unfold get_engine, get_state. unfold bind at 1.
  rewrite Hcanon. cbn [negb head_is].
  change (String.eqb "Multiply" "Negate") with false.
  change (String.eqb "Multiply" "Multiply") with true.
  cbv iota. unfold bind at 1. rewrite Hp. reflexivity.
Qed.

(** For the heads without a structural rule the sign is the sign of the
    numeric value: [(this.numericValue ?? this.N()).asSmallInteger]. *)
Lemma sgn_other_heads fuel oid h xs d s :
  isCanonical s (BoxedFunction oid (HName h) xs d) = true ->
  h ∉ ["Negate"; "Multiply"; "Add"; "Divide"; "Square"; "Abs"; "Sqrt"] ->
  sgn (S fuel) (BoxedFunction oid (HName h) xs d) s =
  bind (numericValue fuel (BoxedFunction oid (HName h) xs d))
    (fun nv =>
       bind (match nv with
             | Some v => ret v
             | None => N fuel (BoxedFunction oid (HName h) xs d)
             end)
         (fun v => match asSmallInteger v with
                   | None => ret SgnUndefined
                   | Some v => ret (sign_of v)
                   end)) s.
Proof.
  intros Hcanon Hh. cbn [sgn]. unfold get_engine, get_state, bind at 1.
  rewrite Hcanon. cbn [negb head_is].
  repeat match goal with
  | |- context [String.eqb h ?c] =>
      destruct (String.eqb_spec h c) as [->|_];
      [exfalso; apply Hh; set_solver |]
  end.
  reflexivity.
Qed.

End Sgn.

Section SgnExample.
#[local] Existing Instance Example.library.

Lemma sgn_Multiply_of_unknown_is_null_witness :
  sgn 2 Example.product Example.engine_product
  = Some (SgnNull, Example.engine_product).
Proof.
  apply (@sgn_Multiply_of_unknown_is_null Example.library 1 30 Example.x
           [Example.two] (Some Example.Multiply_def) Example.engine_product
           Example.engine_product None Example.engine_product).
  - vm_compute. reflexivity.
  - reflexivity.
  - reflexivity.
Defined.

End SgnExample.
(* ================================================================== *)
(** * simplify, evaluate and N on an invalid expression *)
(* ================================================================== *)

Section Invalid.
Context `{Library}.

(** When [isValid] is [false], case by case: the head is [Error]; the
    head is an expression that is not valid, or an operand is not valid;
    or the function is canonical, and it has no definition or an operand
    is not valid.  A function of a name other than [Error] that is not
    canonical is valid, whatever its operands. *)
Lemma isValid_false_cases s oid h xs d :
  isValid s (BoxedFunction oid h xs d) = false <->
  match h with
  | HExpr he => isValid s he = false \/ forallb (isValid s) xs = false
  | HName n =>
      n = "Error" \/
      (isCanonical s (BoxedFunction oid h xs d) = true /\
       (functionDefinition s (BoxedFunction oid h xs d) = None \/
        forallb (isValid s) xs = false))
  end.
Proof.
  destruct h as [n | he]; cbn [isValid].
  - destruct (String.eqb_spec n "Error") as [-> | Hn].
    { split; [by left | done]. }
    unfold functionDefinition.
    destruct (isCanonical s (BoxedFunction oid (HName n) xs d)) eqn:Hc;
      cbn [negb].
    + destruct d as [def|].
      * split; [intros Hv; right; split; [done | by right] |].
        intros [? | [_ [? | ?]]]; done.
      * split; [intros _; right; split; [done | by left] | done].
    + split; [done|]. intros [? | [? _]]; done.
  - destruct (isValid s he); simpl.
    + split; [by right | by intros [? | ?]].
    + split; [by left | done].
Qed.

(** C4, as amended -- For every function expression that is not valid
    ([isValid] is [false]), [simplify], [evaluate] and [N] return the
    expression itself, they do not throw and they leave the engine as it
    is.  For a function expression that is valid and not canonical, as a
    function of a name is that holds an error marker below its head, the
    three operations work on the canonical form: when that form is a
    function that is not valid, they return it as it is. *)
Theorem invalid_expression_is_returned_unchanged fuel options oid h xs d s :
  (isValid s (BoxedFunction oid h xs d) = false ->
   simplify (S fuel) options (BoxedFunction oid h xs d) s
     = Some (BoxedFunction oid h xs d, s) /\
   evaluate (S fuel) (BoxedFunction oid h xs d) s
     = Some (BoxedFunction oid h xs d, s) /\
   N (S fuel) (BoxedFunction oid h xs d) s
     = Some (BoxedFunction oid h xs d, s)) /\
  (forall k h' xs' d' s1,
      isValid s (BoxedFunction oid h xs d) = true ->
      isCanonical s (BoxedFunction oid h xs d) = false ->
      canonical (BoxedFunction oid h xs d) s
        = Some (BoxedFunction k h' xs' d', s1) ->
      isValid s1 (BoxedFunction k h' xs' d') = false ->
      simplify (S (S fuel)) options (BoxedFunction oid h xs d) s
        = Some (BoxedFunction k h' xs' d', s1) /\
      evaluate (S (S fuel)) (BoxedFunction oid h xs d) s
        = Some (BoxedFunction k h' xs' d', s1) /\
      N (S (S fuel)) (BoxedFunction oid h xs d) s
        = Some (BoxedFunction k h' xs' d', s1)).
Proof.
  assert (Hfirst : forall fuel oid h xs d s,
    isValid s (BoxedFunction oid h xs d) = false ->
    simplify (S fuel) options (BoxedFunction oid h xs d) s
      = Some (BoxedFunction oid h xs d, s) /\
    evaluate (S fuel) (BoxedFunction oid h xs d) s
      = Some (BoxedFunction oid h xs d, s) /\
    N (S fuel) (BoxedFunction oid h xs d) s
      = Some (BoxedFunction oid h xs d, s)).
  { clear. intros fuel oid h xs d s Hinvalid.
    cbn [simplify evaluate N]. unfold get_engine, get_state, bind.
    rewrite Hinvalid. cbn [negb]. auto. }
  split; [apply Hfirst|].
  intros k h' xs' d' s1 Hvalid Hcan Hc Hinvalid.
  destruct (Hfirst fuel k h' xs' d' s1 Hinvalid) as (Hs & He & HN).
  remember (S fuel) as fuel' eqn:Hfuel.
  split; [|split].
  - cbn [simplify]. unfold get_engine, get_state. unfold bind at 1.
    rewrite Hvalid, Hcan. cbn [negb]. unfold bind at 1. by rewrite Hc.
  - cbn [evaluate]. unfold get_engine, get_state. unfold bind at 1.
    rewrite Hvalid, Hcan. cbn [negb]. unfold bind at 1. by rewrite Hc.
  - cbn [N]. unfold get_engine, get_state. unfold bind at 1.
    rewrite Hvalid, Hcan. cbn [negb]. unfold bind at 1. by rewrite Hc.
Qed.

End Invalid.

Section InvalidExample.
#[local] Existing Instance Example.library.

(** C4, as stated, fails: the tree of [Add(Add(Error('missing'), 1), 2)],
    which is not canonical, holds an error marker, and [isValid] is [true]
    of it; [simplify], [evaluate] and [N] return another object, its
    canonical form [Add(Error('missing'), 1, 2)]. *)
Lemma error_marker_below_the_head_is_valid :
  holds_error_marker ExampleError.outer = true /\
  isValid ExampleError.engine ExampleError.outer = true /\
  same_object ExampleError.flat ExampleError.outer = false /\
  exists s',
    simplify 2 (mkSimplifyOptions None) ExampleError.outer ExampleError.engine
      = Some (ExampleError.flat, s') /\
    evaluate 2 ExampleError.outer ExampleError.engine
      = Some (ExampleError.flat, s') /\
    N 2 ExampleError.outer ExampleError.engine = Some (ExampleError.flat, s').
Proof.
  split; [reflexivity|]. split; [reflexivity|]. split; [reflexivity|].
  eexists. split; [vm_compute; reflexivity|].
  split; vm_compute; reflexivity.
Qed.

Lemma invalid_expression_is_returned_unchanged_witness :
  (isValid Example.engine Example.error = false /\
   simplify 1 (mkSimplifyOptions None) Example.error Example.engine
     = Some (Example.error, Example.engine) /\
   evaluate 1 Example.error Example.engine = Some (Example.error, Example.engine) /\
   N 1 Example.error Example.engine = Some (Example.error, Example.engine)) /\
  (exists s1,
     canonical ExampleError.outer ExampleError.engine = Some (ExampleError.flat, s1) /\
     isValid s1 ExampleError.flat = false /\
     simplify 2 (mkSimplifyOptions None) ExampleError.outer ExampleError.engine
       = Some (ExampleError.flat, s1) /\
     evaluate 2 ExampleError.outer ExampleError.engine
       = Some (ExampleError.flat, s1) /\
     N 2 ExampleError.outer ExampleError.engine = Some (ExampleError.flat, s1)).
Proof.
  split.
  - split; [reflexivity |].
    apply (proj1 (invalid_expression_is_returned_unchanged 0 (mkSimplifyOptions None)
                    20 (HName "Error") [BoxedAtom 14 (AString "missing")] None
                    Example.engine)).
    reflexivity.
  - assert (Hc : exists s1,
              canonical ExampleError.outer ExampleError.engine
                = Some (ExampleError.flat, s1) /\
              isValid s1 ExampleError.flat = false).
    { eexists. split; [vm_compute; reflexivity | vm_compute; reflexivity]. }
    destruct Hc as (s1 & Hc & Hinvalid).
    exists s1. split; [exact Hc|]. split; [exact Hinvalid|].
    apply (proj2 (invalid_expression_is_returned_unchanged 0 (mkSimplifyOptions None)
                    61 (HName "Add") [ExampleError.inner; Example.two] None
                    ExampleError.engine)
             101 (HName "Add") [Example.error; Example.one; Example.two]
             (Some Example.Add_def) s1);
      [reflexivity | reflexivity | exact Hc | exact Hinvalid].
Defined.

End InvalidExample.

(* ================================================================== *)
(** * The cost of a rewrite step *)
(* ================================================================== *)

Section Cost.
Context `{Library}.

Lemma Qle_bool_false a b : Qle_bool a b = false -> (b < a)%Q.
Proof.
  intros Hf. apply Qnot_le_lt. intros Hle.
  apply Qle_bool_iff in Hle. congruence.
Qed.

(** What [cheapest(newExpr, expr)] returns at its call in [simplify],
    where the rewritten expression is the first argument: the rewritten
    expression when it is the same object as the current one or when the
    current one costs more than 1.7 times the rewritten one, else the
    current one. *)
Lemma cheapest_at_its_call newExpr expr s :
  cheapest newExpr (Some expr) s =
  Some (if same_object newExpr expr then newExpr
        else if Qle_bool (costFunction expr) ((17 # 10) * costFunction newExpr)
             then expr else newExpr, s).
Proof.
  unfold cheapest, box. destruct (same_object newExpr expr); [reflexivity|].
  rewrite bind_ret_l.
  destruct (Qle_bool _ _); reflexivity.
Qed.

(** The rewritten expression is accepted exactly when the current one
    costs more than 1.7 times as much: the arguments of [cheapest] are the
    other way round at its call, and its bias is towards the expression
    before the rewrite. *)
Lemma rewrite_step_accepts_the_much_cheaper rules_ expr s newExpr s1 :
  replace expr rules_ s = Some (Some newExpr, s1) ->
  same_object newExpr expr = false ->
  rewrite_step rules_ expr s =
  Some (if Qle_bool (costFunction expr) ((17 # 10) * costFunction newExpr)
        then (expr, false) else (newExpr, true), s1).
Proof.
  intros Hreplace Hother.
  unfold rewrite_step, bind. rewrite Hreplace, cheapest_at_its_call, Hother.
  unfold ret, same_object in *.
  destruct (Qle_bool _ _).
  - by rewrite Nat.eqb_sym, Hother.
  - by rewrite Nat.eqb_refl.
Qed.

(** C1, a defect of the code -- At a rewrite step of [simplify], where
    the rule set rewrites the current expression [expr] into [newExpr],
    another object, [newExpr] is accepted, and the loop done, when [expr]
    costs more than 1.7 times as much as [newExpr]; in every other case
    [expr] is kept and the loop is not done.  So a rewrite that is
    cheaper, but not by that much, is refused, although its cost is
    within 1.7 times the cost of [expr]: [simplify] calls
    [cheapest(newExpr, expr)], with the rewritten expression in the place
    of [oldExpr]. *)
Theorem rewrite_step_refuses_a_cheaper_rewrite rules_ expr s newExpr s1 :
  replace expr rules_ s = Some (Some newExpr, s1) ->
  same_object newExpr expr = false ->
  (* what is accepted *)
  (((17 # 10) * costFunction newExpr < costFunction expr)%Q ->
   rewrite_step rules_ expr s = Some ((newExpr, true), s1)) /\
  (* what is refused *)
  ((costFunction expr <= (17 # 10) * costFunction newExpr)%Q ->
   rewrite_step rules_ expr s = Some ((expr, false), s1)) /\
  (* a cheaper rewrite, within the bound, that is refused *)
  ((costFunction newExpr < costFunction expr)%Q ->
   (costFunction expr <= (17 # 10) * costFunction newExpr)%Q ->
   (costFunction newExpr <= (17 # 10) * costFunction expr)%Q /\
   rewrite_step rules_ expr s = Some ((expr, false), s1)).
Proof.
  intros Hreplace Hother.
  rewrite (rewrite_step_accepts_the_much_cheaper _ _ _ _ _ Hreplace Hother).
  split; [|split].
  - intros Hmuch.
    destruct (Qle_bool (costFunction expr) ((17 # 10) * costFunction newExpr))
      eqn:Hcmp; [|reflexivity].
    apply Qle_bool_iff in Hcmp. lra.
  - intros Hband. apply Qle_bool_iff in Hband. by rewrite Hband.
  - intros Hcheaper Hband. split; [lra|].
    apply Qle_bool_iff in Hband. by rewrite Hband.
Qed.

(** The other way round, for costs that are not negative: an expression
    that is accepted costs at most 1.7 times the current one, since the
    current one costs more than 1.7 times as much. *)
Lemma rewrite_step_within_cost_bound rules_ expr s newExpr s1 :
  replace expr rules_ s = Some (Some newExpr, s1) ->
  same_object newExpr expr = false ->
  (0 <= costFunction expr)%Q ->
  (0 <= costFunction newExpr)%Q ->
  rewrite_step rules_ expr s = Some ((newExpr, true), s1) ->
  (costFunction newExpr <= (17 # 10) * costFunction expr)%Q.
Proof.
  intros Hreplace Hother Hexpr HnewExpr.
  rewrite (rewrite_step_accepts_the_much_cheaper _ _ _ _ _ Hreplace Hother).
  destruct (Qle_bool (costFunction expr) ((17 # 10) * costFunction newExpr))
    eqn:Hcmp; [discriminate|]. intros _.
  apply Qle_bool_false in Hcmp. lra.
Qed.

(** When no rule applies the expression is kept and the loop is done. *)
Lemma rewrite_step_no_rule rules_ expr s s1 :
  replace expr rules_ s = Some (None, s1) ->
  rewrite_step rules_ expr s = Some ((expr, true), s1).
Proof. intros Hreplace. unfold rewrite_step, bind. by rewrite Hreplace. Qed.

End Cost.

Section CostExample.
#[local] Existing Instance ExampleCost.library.

Lemma rewrite_step_refuses_a_cheaper_rewrite_witness :
  exists s1,
    replace ExampleCost.sqrt_square_x [] ExampleCost.engine
      = Some (Some ExampleCost.abs_x, s1) /\
    (costFunction ExampleCost.abs_x
     <= (17 # 10) * costFunction ExampleCost.sqrt_square_x)%Q /\
    rewrite_step [] ExampleCost.sqrt_square_x ExampleCost.engine
      = Some ((ExampleCost.sqrt_square_x, false), s1).
Proof.
  eexists. split; [reflexivity|].
  apply (rewrite_step_refuses_a_cheaper_rewrite [] ExampleCost.sqrt_square_x
           ExampleCost.engine ExampleCost.abs_x).
  - reflexivity.
  - reflexivity.
  - reflexivity.
  - vm_compute. discriminate.
Defined.


(** [simplify] on [Sqrt(Square(x))], of cost 3, with the rule that
    rewrites it into [Abs(x)], of cost 2: the rule is applied and its
    result refused at every iteration, eight times, and the result is
    [Sqrt(Square(x))], at the cost 3. *)
Lemma simplify_keeps_the_dearer_expression :
  iterationLimit ExampleCost.engine = 8%nat /\
  exists r s',
    simplify 6 (mkSimplifyOptions None) ExampleCost.sqrt_square_x ExampleCost.engine
      = Some (r, s') /\
    head r = HName "Sqrt" /\ Example.node_count r = 3%Z /\
    (* the operand and the expression, as made and as canonical, then
       the eight results of the rule *)
    next_oid s' = (next_oid ExampleCost.engine + 4 + 8)%nat.
Proof.
  split; [reflexivity|].
  destruct (simplify 6 (mkSimplifyOptions None) ExampleCost.sqrt_square_x
              ExampleCost.engine) as [[r s']|] eqn:Hs;
    [|vm_compute in Hs; discriminate].
  exists r, s'. split; [reflexivity|].
  vm_compute in Hs. injection Hs as <- <-. repeat split; reflexivity.
Qed.

End CostExample.

Section CostExampleAccepted.
#[local] Existing Instance Example.library.

(** A rewrite that is accepted: [Abs(x)], of cost 2, is more than 1.7
    times as dear as [x], of cost 1. *)
Lemma rewrite_step_accepts_example :
  rewrite_step [] Example.abs_x Example.engine_canonical
  = Some ((Example.x, true), Example.engine_canonical).
Proof. reflexivity. Qed.

End CostExampleAccepted.

(* ================================================================== *)
(** * N: the handler, the evaluate path and the numeric mode *)
(* ================================================================== *)

Section NumericEvaluation.
Context `{Library}.

(** The adaptation of a result to the numeric mode, case by case. *)
Lemma N_numericMode_complex result z s :
  isLiteral result = true ->
  complexValue result = Some z ->
  complexAllowed s = false ->
  N_numericMode result s = Some (_NAN, s).
Proof.
  intros Hl Hz Hc. unfold N_numericMode, get_engine, get_state, bind.
  rewrite Hl, Hc, Hz. reflexivity.
Qed.

Lemma N_numericMode_bignum result d s :
  isLiteral result = true ->
  bignumValue result = Some d ->
  preferBignum s = false ->
  N_numericMode result s = number (MachineValue (toNumber d)) s.
Proof.
  intros Hl Hd Hp. unfold N_numericMode, get_engine, get_state, bind.
  rewrite Hl, Hd, Hp.
  destruct result as [|oid [[| | |]| |]]; try discriminate.
  simpl. by rewrite andb_false_r.
Qed.

Lemma N_numericMode_unchanged result s :
  isLiteral result = false \/
  (complexAllowed s = true \/ complexValue result = None) /\
  (preferBignum s = true \/ bignumValue result = None) ->
  N_numericMode result s = Some (result, s).
Proof.
  intros Hcase. unfold N_numericMode, get_engine, get_state, bind.
  destruct (isLiteral result); [|reflexivity].
  destruct Hcase as [? | [Hc Hb]]; [discriminate|].
  assert (Hfirst : negb (complexAllowed s)
                   && bool_decide (is_Some (complexValue result)) = false).
  { destruct Hc as [-> | ->]; [reflexivity|].
    rewrite bool_decide_eq_false_2; [apply andb_false_r|].
    by intros [? ?]. }
  rewrite Hfirst.
  destruct (bignumValue result) as [d|]; [|reflexivity].
  destruct Hb as [-> | ?]; [reflexivity | discriminate].
Qed.

(** C6, as amended -- For a valid canonical function expression whose
    head is a name and whose definition is not inert, [N] maps the
    operands through [holdMap] and calls the [N] handler of the
    definition; when there is no handler or the handler returns
    [undefined], the result is that of [evaluate] on the function of the
    head and the mapped operands.  Then, if the result is a literal: when
    the numeric mode does not allow complex numbers and the literal is
    complex, [N] returns [NaN]; when the mode does not prefer bignums and
    the literal is a bignum, [N] returns its conversion to a machine
    number; in the other cases [N] returns the result. *)
Theorem N_handler_evaluate_and_numeric_mode fuel oid n xs d0 s def tail_ s1 :
  isValid s (BoxedFunction oid (HName n) xs d0) = true ->
  isCanonical s (BoxedFunction oid (HName n) xs d0) = true ->
  functionDefinition s (BoxedFunction oid (HName n) xs d0) = Some def ->
  inert def = false ->
  holdMap (name def) xs (hold def) (associative def) (never_null (N fuel)) s
    = Some (tail_, s1) ->
  (* the handler answers *)
  (forall handler result s2,
      sig_N (signature def) = Some handler ->
      handler tail_ s1 = Some (Some result, s2) ->
      N (S fuel) (BoxedFunction oid (HName n) xs d0) s = N_numericMode result s2) /\
  (* there is no handler *)
  (forall e s2 result s3,
      sig_N (signature def) = None ->
      fn (HName n) tail_ s1 = Some (e, s2) ->
      evaluate (S fuel) e s2 = Some (result, s3) ->
      N (S fuel) (BoxedFunction oid (HName n) xs d0) s = N_numericMode result s3) /\
  (* the handler returns [undefined] *)
  (forall handler s1' e s2 result s3,
      sig_N (signature def) = Some handler ->
      handler tail_ s1 = Some (None, s1') ->
      fn (HName n) tail_ s1' = Some (e, s2) ->
      evaluate (S fuel) e s2 = Some (result, s3) ->
      N (S fuel) (BoxedFunction oid (HName n) xs d0) s = N_numericMode result s3) /\
  (* the numeric mode *)
  (forall result s2,
      (forall z, isLiteral result = true -> complexValue result = Some z ->
                 complexAllowed s2 = false ->
                 N_numericMode result s2 = Some (_NAN, s2)) /\
      (forall d, isLiteral result = true -> bignumValue result = Some d ->
                 preferBignum s2 = false ->
                 N_numericMode result s2 = number (MachineValue (toNumber d)) s2) /\
      (isLiteral result = false \/
       (complexAllowed s2 = true \/ complexValue result = None) /\
       (preferBignum s2 = true \/ bignumValue result = None) ->
       N_numericMode result s2 = Some (result, s2))).
Proof.
  intros Hvalid Hcanon Hdef Hinert Htail.
  assert (Hstart :
    N (S fuel) (BoxedFunction oid (HName n) xs d0) s =
    (let* r := match sig_N (signature def) with
               | Some handler => handler tail_
               | None => ret None
               end in
     let* result := match r with
                    | Some r => ret r
                    | None => let* e := fn (HName n) tail_ in
                              evaluate (S fuel) e
                    end in
     N_numericMode result) s1).
  { cbn [N]. unfold get_engine, get_state. unfold bind at 1.
    rewrite Hvalid, Hcanon, Hdef. cbn [negb holdMap_def].
    unfold bind at 1. rewrite Htail, Hinert. reflexivity. }
  repeat split.
  - intros handler result s2 Hsig Hh. rewrite Hstart, Hsig.
    unfold bind at 1. rewrite Hh. by rewrite bind_ret_l.
  - intros e s2 result s3 Hsig Hfn Hev. rewrite Hstart, Hsig.
    rewrite bind_ret_l. unfold bind at 1 2. by rewrite Hfn, Hev.
  - intros handler s1' e s2 result s3 Hsig Hh Hfn Hev. rewrite Hstart, Hsig.
    unfold bind at 1. rewrite Hh. unfold bind at 1 2. by rewrite Hfn, Hev.
  - intros z Hl Hz Hc. by eapply N_numericMode_complex.
  - intros d Hl Hd Hp. by apply N_numericMode_bignum.
  - apply N_numericMode_unchanged.
Qed.

End NumericEvaluation.

Section NumericEvaluationExample.
#[local] Existing Instance Example.library.

(** C6, as stated, fails: in machine mode, where complex numbers are not
    allowed, the handler of [Sqrt] answers with the complex literal
    [1 + 2i]; [N] returns [NaN], and not a number whose value is the real
    part [1]. *)
Lemma N_complex_literal_becomes_NaN :
  exists s',
    N 2 Example.sqrt_x Example.engine_canonical = Some (_NAN, s') /\
    complexAllowed Example.engine_canonical = false /\
    forall oid, _NAN <> BoxedAtom oid (ANumber (MachineValue (re Example.i_times_2))).
Proof.
  eexists. split; [vm_compute; reflexivity |].
  split; [reflexivity | intros oid; discriminate].
Qed.

Lemma N_handler_evaluate_and_numeric_mode_witness :
  N 2 Example.sqrt_x Example.engine_canonical
  = N_numericMode (BoxedAtom 100 (ANumber (ComplexValue Example.i_times_2)))
      (mkEngine 101
         (<[100%nat := BoxedAtom 100 (ANumber (ComplexValue Example.i_times_2))]>
            (objects Example.engine_canonical))
         (_canonical Example.engine_canonical) ∅ ∅ [Example.scope]
         ModeMachine 1024).
Proof.
  refine (proj1 (N_handler_evaluate_and_numeric_mode 1 32 "Sqrt" [Example.x]
            (Some Example.Sqrt_def) Example.engine_canonical Example.Sqrt_def
            [Example.x] Example.engine_canonical _ _ _ _ _) _ _ _ _ _);
    reflexivity.
Defined.

End NumericEvaluationExample.

(* ================================================================== *)
(** * makeCanonicalFunction: the generic structural rules *)
(* ================================================================== *)

Section Sorting.

Variable compare : BoxedExpression -> BoxedExpression -> Z.

Lemma sort_insert_Permutation x l : sort_insert compare x l ≡ₚ x :: l.
Proof.
  induction l as [|y l IH]; simpl; [reflexivity|].
  destruct (0 <? compare x y)%Z; [|reflexivity].
  rewrite IH. apply Permutation_swap.
Qed.

Lemma sort_Permutation l : sort compare l ≡ₚ l.
Proof.
  induction l as [|x l IH]; simpl; [reflexivity|].
  rewrite sort_insert_Permutation. by rewrite IH.
Qed.

Lemma sort_length l : length (sort compare l) = length l.
Proof. apply Permutation_length, sort_Permutation. Qed.

Lemma sort_insert_Sorted x l :
  total_comparator compare ->
  Sorted (fun a b => (compare a b <= 0)%Z) l ->
  Sorted (fun a b => (compare a b <= 0)%Z) (sort_insert compare x l).
Proof.
  intros compare_total.
  induction 1 as [|y l Hl IH Hy]; simpl.
  - by repeat constructor.
  - destruct (0 <? compare x y)%Z eqn:Hxy.
    + constructor; [exact IH|].
      apply Z.ltb_lt in Hxy.
      destruct Hy as [|z l' Hyz]; simpl.
      * apply HdRel_cons. by apply compare_total.
      * destruct (0 <? compare x z)%Z; apply HdRel_cons;
          [exact Hyz | by apply compare_total].
    + apply Z.ltb_ge in Hxy.
      apply Sorted_cons; [apply Sorted_cons; assumption |].
      apply HdRel_cons. exact Hxy.
Qed.

Lemma sort_Sorted l :
  total_comparator compare ->
  Sorted (fun a b => (compare a b <= 0)%Z) (sort compare l).
Proof.
  intros compare_total.
  induction l as [|x l IH]; simpl; [constructor | by apply sort_insert_Sorted].
Qed.

(** A list that is in order already is left as it is: sorting twice is
    sorting once. *)
Lemma sort_in_order l :
  Sorted (fun a b => (compare a b <= 0)%Z) l -> sort compare l = l.
Proof.
  induction 1 as [|x l Hl IH Hx]; [reflexivity|].
  change (sort compare (x :: l)) with (sort_insert compare x (sort compare l)).
  rewrite IH. destruct Hx as [|y l' Hxy]; [reflexivity|].
  simpl. apply Z.ltb_ge in Hxy. by rewrite Hxy.
Qed.

End Sorting.

Section Flatten.

(** No operand of a flattened list is an application of the head that
    was flattened: the nested applications are merged into the list. *)
Lemma flatten_nested_heads h e :
  Forall (fun x => is_application_of h x = false) (flatten_nested h e).
Proof.
  induction e as [oid a | oid n xs d IH | oid he xs d _ _]
    using BoxedExpression_ind.
  - by repeat constructor.
  - simpl. destruct (String.eqb n h) eqn:Hn.
    + induction IH as [|x xs Hx _ IHxs]; simpl; [constructor|].
      apply Forall_app. split; [exact Hx | exact IHxs].
    + repeat constructor. exact Hn.
  - by repeat constructor.
Qed.

Lemma flattened_heads xs h :
  Forall (fun x => is_application_of h x = false) (flattened xs h).
Proof.
  unfold flattened, flattenOps.
  destruct (forallb _ xs) eqn:Hall.
  - apply Forall_forall. intros x Hx%list_elem_of_In.
    rewrite forallb_forall in Hall. specialize (Hall x Hx).
    apply negb_true_iff in Hall.
    destruct x as [oid [n|he] ys d|]; simpl in *; done.
  - clear. induction xs as [|y ys IHy]; simpl; [constructor|].
    apply Forall_app. split; [apply flatten_nested_heads | exact IHy].
Qed.

End Flatten.

Section GenericRules.
Context `{Library}.

(** [makeCanonicalFunction] up to the generic rules, when the head is the
    name [hname], or evaluates to the symbol [hname], the name resolves to
    the definition [def], which has no [canonical] handler, and every
    operand is valid after the check of the signature. *)
Lemma makeCanonicalFunction_valid_operands h hname xs s xs1 s1 s2 def v s3 :
  mapM canonical xs s = Some (xs1, s1) ->
  head_resolves h hname s1 s2 ->
  context s2 <> [] ->
  lookupFunction hname (context s2) = Some def ->
  sig_canonical (signature def) = None ->
  validateSignature (signature def) (flat_operands def hname xs1) (scope_of def s2)
    = Some (v, s3) ->
  forallb (isValid s3) (default (flat_operands def hname xs1) v) = true ->
  makeCanonicalFunction h xs s =
  match apply_idempotent_involution def hname
          (default (flat_operands def hname xs1) v) with
  | None => None
  | Some (inl r) => Some (r, s3)
  | Some (inr xs') =>
      bind (if scoped def then popScope else ret tt)
        (fun _ => new_BoxedFunction (HName hname) (sorted_if_commutative def xs')
                    true (Some def)) s3
  end.
Proof.
  intros Hmap Hhead Hctx Hdef Hsig Hv Hvalid.
  unfold makeCanonicalFunction, makeCanonicalFunction_with.
  unfold bind at 1. rewrite Hmap.
  assert (Hh : forall A (k : Head BoxedExpression -> M A),
            bind (match h with
                  | HName _ => ret h
                  | HExpr he =>
                      let* w := evaluateHead he in
                      ret (match symbol w with Some n => HName n | None => h end)
                  end) k s1 = k (HName hname) s2).
  { intros A k. destruct Hhead as [[-> ->] | (he & w & fuel & -> & Hsame & Hev & Hw)].
    - reflexivity.
    - unfold bind at 1. unfold bind at 1. rewrite Hsame, Hev. unfold ret.
      by rewrite Hw. }
  rewrite Hh. clear Hh.
  unfold get_engine, get_state. unfold bind at 1.
  destruct (context s2) as [|frame parent] eqn:Ectx; [done|].
  rewrite Hdef.
  assert (Hpush : forall A (k : unit -> M A),
            bind (if scoped def then pushScope else ret tt) k s2
            = k tt (scope_of def s2)).
  { intros A k. unfold scope_of, bind, pushScope, ret.
    by destruct (scoped def). }
  rewrite Hpush. unfold flat_operands in Hv, Hvalid |- *.
  unfold bind at 1. rewrite Hv.
  unfold bind at 1. cbn [get_state]. rewrite Hvalid. cbn [negb].
  rewrite Hsig.
  destruct (apply_idempotent_involution _ _ _) as [[r|xs']|]; reflexivity.
Qed.

(** What the last step of [makeCanonicalFunction] makes of the operands
    [ys]: a new canonical application, bound to the definition. *)
Lemma new_canonical_application hname def ys s3 :
  exists r s',
    bind (if scoped def then popScope else ret tt)
      (fun _ => new_BoxedFunction (HName hname) ys true (Some def)) s3
    = Some (r, s') /\
    canonical_application s' r hname def ys.
Proof.
  assert (Hnew : forall s,
    exists r s',
      new_BoxedFunction (HName hname) ys true (Some def) s = Some (r, s') /\
      canonical_application s' r hname def ys).
  { intros s. eexists _, _. split; [reflexivity|].
    unfold canonical_application, functionDefinition, isCanonical. simpl.
    rewrite !lookup_insert_eq. unfold same_object. simpl.
    by rewrite Nat.eqb_refl. }
  unfold bind, popScope, ret. destruct (scoped def); apply Hnew.
Qed.

(** What [sorted_if_commutative] does: it keeps the operands, and where it
    sorts, the result is in the order of the comparator when the
    comparator is total. *)
Lemma sorted_if_commutative_spec def xs :
  sorted_if_commutative def xs ≡ₚ xs /\
  (commutative def = false \/ (length xs <= 1)%nat ->
   sorted_if_commutative def xs = xs) /\
  (commutative def = true -> (1 < length xs)%nat -> total_comparator order ->
   Sorted (fun a b => (order a b <= 0)%Z) (sorted_if_commutative def xs)).
Proof.
  unfold sorted_if_commutative.
  destruct (Nat.ltb_spec 1 (length xs)) as [Hlen | Hlen];
    destruct (commutative def); simpl.
  - split; [apply sort_Permutation|]. split; [intros [|]; [done | lia]|].
    intros _ _. apply sort_Sorted.
  - split; [done|]. split; [done|]. done.
  - split; [done|]. split; [done|]. intros _ ?. lia.
  - split; [done|]. split; [done|]. done.
Qed.

(** C5, as amended -- When the head is a name, or evaluates to a symbol,
    that resolves to a definition without a [canonical] handler, and every
    operand is valid once the operands are canonical, flattened and
    checked against the signature:
    - the operand list of an associative head that is checked is flat, no
      operand of it is an application of the head;
    - a unary application [f(f(x))] becomes the first operand [x] of the
      inner application when the definition is an involution;
    - it becomes a new canonical application of [f] to the operands of
      the inner application when the definition is idempotent and not an
      involution;
    - in every other case the result is a new canonical application of
      [f] to the operand list that the check returns, which is the flat
      list itself when the check accepts it;
    - in the last two cases the operands are sorted when the head is
      commutative and there is more than one operand, and left in their
      order otherwise: the result has a permutation of the operands, in
      the order of the comparator when the comparator is total. *)
Theorem makeCanonicalFunction_generic_rules h hname xs s xs1 s1 s2 def v s3 :
  mapM canonical xs s = Some (xs1, s1) ->
  head_resolves h hname s1 s2 ->
  context s2 <> [] ->
  lookupFunction hname (context s2) = Some def ->
  sig_canonical (signature def) = None ->
  validateSignature (signature def) (flat_operands def hname xs1) (scope_of def s2)
    = Some (v, s3) ->
  forallb (isValid s3) (default (flat_operands def hname xs1) v) = true ->
  (* associative: the list that is checked is flat *)
  (associative def = true ->
   flat_operands def hname xs1 = flattened (flattenSequence xs1) hname /\
   Forall (fun x => is_application_of hname x = false)
     (flat_operands def hname xs1)) /\
  (* involution: f(f(x)) -> x *)
  (forall y,
      default (flat_operands def hname xs1) v = [y] ->
      head_is (head y) hname = true ->
      involution def = true ->
      makeCanonicalFunction h xs s = Some (op1 y, s3)) /\
  (* idempotent: f(f(x)) -> f(x) *)
  (forall y ys,
      default (flat_operands def hname xs1) v = [y] ->
      head_is (head y) hname = true ->
      involution def = false ->
      idempotent def = true ->
      ops y = Some ys ->
      exists r s',
        makeCanonicalFunction h xs s = Some (r, s') /\
        canonical_application s' r hname def (sorted_if_commutative def ys)) /\
  (* the other cases: f of the operands that the check returns *)
  ((forall y,
       default (flat_operands def hname xs1) v = [y] ->
       head_is (head y) hname = true ->
       involution def = false /\ idempotent def = false) ->
   exists r s',
     makeCanonicalFunction h xs s = Some (r, s') /\
     canonical_application s' r hname def
       (sorted_if_commutative def (default (flat_operands def hname xs1) v)) /\
     (v = None ->
      sorted_if_commutative def (default (flat_operands def hname xs1) v)
        ≡ₚ flat_operands def hname xs1 /\
      (associative def = true ->
       Forall (fun x => is_application_of hname x = false)
         (sorted_if_commutative def (default (flat_operands def hname xs1) v))))) /\
  (* commutative: the operands are sorted *)
  (forall ys,
      sorted_if_commutative def ys ≡ₚ ys /\
      (commutative def = false \/ (length ys <= 1)%nat ->
       sorted_if_commutative def ys = ys) /\
      (commutative def = true -> (1 < length ys)%nat -> total_comparator order ->
       Sorted (fun a b => (order a b <= 0)%Z) (sorted_if_commutative def ys))).
Proof.
  intros Hmap Hhead Hctx Hdef Hsig Hv Hvalid.
  pose proof (makeCanonicalFunction_valid_operands _ _ _ _ _ _ _ _ _ _
                Hmap Hhead Hctx Hdef Hsig Hv Hvalid) as Hmk.
  assert (Hflat : associative def = true ->
            Forall (fun x => is_application_of hname x = false)
              (flat_operands def hname xs1)).
  { intros Hassoc. unfold flat_operands. rewrite Hassoc. apply flattened_heads. }
  split; [|split; [|split; [|split]]].
  - intros Hassoc. split; [|by apply Hflat].
    unfold flat_operands. by rewrite Hassoc.
  - intros y Hy Hy_head Hinv. rewrite Hmk, Hy. simpl. by rewrite Hy_head, Hinv.
  - intros y ys Hy Hy_head Hinv Hidem Hys. rewrite Hmk, Hy. simpl.
    rewrite Hy_head, Hinv, Hidem, Hys. apply new_canonical_application.
  - intros Hother.
    assert (Hgo : apply_idempotent_involution def hname
                    (default (flat_operands def hname xs1) v)
                  = Some (inr (default (flat_operands def hname xs1) v))).
    { clear Hmk Hvalid. unfold apply_idempotent_involution.
      destruct (default (flat_operands def hname xs1) v) as [|y [|? ?]];
        try reflexivity.
      destruct (head_is (head y) hname) eqn:Hy_head; [|reflexivity].
      destruct (Hother y eq_refl Hy_head) as [-> ->]. reflexivity. }
    rewrite Hmk, Hgo.
    destruct (new_canonical_application hname def
                (sorted_if_commutative def (default (flat_operands def hname xs1) v))
                s3) as (r & s' & Hr & Happ).
    exists r, s'. split; [exact Hr|]. split; [exact Happ|].
    intros ->. simpl. split.
    + apply sorted_if_commutative_spec.
    + intros Hassoc.
      rewrite (proj1 (sorted_if_commutative_spec def _)). by apply Hflat.
  - intros ys. apply sorted_if_commutative_spec.
Qed.

(** Where [ops[0]] is a leaf that has the head of the function, and the
    definition is idempotent and not an involution, [ops[0].ops] is [null]
    and the function throws. *)
Lemma makeCanonicalFunction_idempotent_leaf h hname xs s xs1 s1 s2 def v s3 y :
  mapM canonical xs s = Some (xs1, s1) ->
  head_resolves h hname s1 s2 ->
  context s2 <> [] ->
  lookupFunction hname (context s2) = Some def ->
  sig_canonical (signature def) = None ->
  validateSignature (signature def) (flat_operands def hname xs1) (scope_of def s2)
    = Some (v, s3) ->
  forallb (isValid s3) (default (flat_operands def hname xs1) v) = true ->
  default (flat_operands def hname xs1) v = [y] ->
  head_is (head y) hname = true ->
  involution def = false -> idempotent def = true -> ops y = None ->
  makeCanonicalFunction h xs s = None.
Proof.
  intros Hmap Hhead Hctx Hdef Hsig Hv Hvalid Hy Hy_head Hinv Hidem Hys.
  rewrite (makeCanonicalFunction_valid_operands _ _ _ _ _ _ _ _ _ _
             Hmap Hhead Hctx Hdef Hsig Hv Hvalid), Hy.
  simpl. by rewrite Hy_head, Hinv, Hidem, Hys.
Qed.

End GenericRules.

Section GenericRulesExample.
#[local] Existing Instance Example.library.

(** C5, as stated, fails: [Add] is commutative and has no [canonical]
    handler, the operand list has two operands, one of them an error
    marker; the operands are left in the order they came in, which is not
    the order of the comparator. *)
Lemma makeCanonicalFunction_invalid_operand_not_sorted :
  commutative Example.Add_def = true /\
  sig_canonical (signature Example.Add_def) = None /\
  (exists s',
     makeCanonicalFunction (HName "Add") [Example.error; Example.one] Example.engine
     = Some (BoxedFunction 100 (HName "Add") [Example.error; Example.one]
               (Some Example.Add_def), s')) /\
  sort order [Example.error; Example.one] = [Example.one; Example.error].
Proof.
  split; [reflexivity|]. split; [reflexivity|].
  split; [eexists; vm_compute; reflexivity | reflexivity].
Qed.

(** A head that is an expression and evaluates to a symbol: the symbol
    [x] as a head. *)
Lemma head_resolves_symbol_example :
  head_resolves (HExpr Example.x) "x" Example.engine Example.engine.
Proof. right. exists Example.x, Example.x, 1%nat. repeat split. Qed.

Lemma makeCanonicalFunction_generic_rules_witness :
  exists r s',
    makeCanonicalFunction (HName "Add") [Example.x; Example.one] Example.engine
    = Some (r, s') /\
    canonical_application s' r "Add" Example.Add_def [Example.one; Example.x].
Proof.
  destruct (@makeCanonicalFunction_generic_rules Example.library
              (HName "Add") "Add" [Example.x; Example.one]
              Example.engine [Example.x; Example.one] Example.engine
              Example.engine Example.Add_def None Example.engine
              ltac:(reflexivity) ltac:(left; split; reflexivity)
              ltac:(discriminate) ltac:(reflexivity)
              ltac:(reflexivity) ltac:(reflexivity) ltac:(reflexivity))
    as (_ & _ & _ & Hother & _).
  destruct Hother as (r & s' & Hr & Happ & _).
  - intros y [=].
  - exists r, s'. split; [exact Hr | exact Happ].
Defined.

End GenericRulesExample.

(* ================================================================== *)
(** * parse: the error is embedded in the tree *)
(* ================================================================== *)

Section Parse.
Context `{LatexServices}.
Import MathJson LatexSyntax.

Lemma atEnd_false_lookup toks i :
  atEnd (mkParser toks i) = false -> exists token, toks !! i = Some token.
Proof.
  unfold atEnd. simpl. intros Hlt%Nat.leb_gt.
  destruct (toks !! i) as [t|] eqn:Ht; [eauto|].
  apply lookup_ge_None in Ht. lia.
Qed.

Lemma lookup_atEnd_false toks i token :
  toks !! i = Some token -> atEnd (mkParser toks i) = false.
Proof.
  intros Ht%lookup_lt_Some. unfold atEnd. simpl. by apply Nat.leb_gt.
Qed.

Lemma skip_to_end_next toks i :
  skip_to_end (mkParser toks (S i)) = mkParser toks (length toks) \/
  skip_to_end (mkParser toks (S i)) = mkParser toks (S i) /\ (length toks <= S i)%nat.
Proof.
  unfold skip_to_end, atEnd. simpl.
  destruct (Nat.leb_spec (length toks) (S i)); [right | left]; auto.
Qed.

(** The synthesis of the error, when a token is left at position [i]. *)
Lemma parse_unexpected_token toks i token expr :
  toks !! i = Some token ->
  parse_unexpected (mkParser toks i) expr =
  Normal (Some (match expr with
                | Some e =>
                    if truthy expr
                    then EFunction [EString "Sequence"; e; unexpected toks i token]
                    else unexpected toks i token
                | None => unexpected toks i token
                end)).
Proof.
  intros Ht. unfold parse_unexpected, next. simpl. rewrite Ht.
  assert (Hskip : skip_to_end (mkParser toks (S i)) = mkParser toks (length toks)).
  { destruct (skip_to_end_next toks i) as [-> | [-> Hle]]; [reflexivity|].
    apply lookup_lt_Some in Ht. f_equal. lia. }
  rewrite Hskip. unfold unexpected.
  destruct expr as [e|]; [|reflexivity].
  destruct (truthy (Some e)); reflexivity.
Qed.

(** C3, as amended -- For every input, [parse] returns an expression and
    does not throw.  When the first expression leaves a token unconsumed
    and the attempt at an infix continuation fails (no infix entry matches
    at that token, or the callback of the first one that matches returns
    nothing and the entry has no name), the result holds the error in the
    tree: the sequence of the parsed expression and the error when an
    expression was parsed that is not a falsy literal, the error alone
    when nothing was parsed.  The error is tagged [unexpected-command]
    when the token is longer than one character and begins with the
    escape marker, [unexpected-token] otherwise.  When the callback
    returns nothing and the entry has a name, the result is the
    application of that name to the parsed expression, or a ['missing']
    error in its place, and a ['missing'] error. *)
Theorem parse_embeds_the_error preserveLatex latex :
  (exists e, parse preserveLatex latex = Normal e) /\
  (forall expr rest token,
      matchExpression (mkParser (tokenize latex) 0) = (expr, rest) ->
      tokenize latex !! rest = Some token ->
      continuation_fails (mkParser (tokenize latex) rest) expr ->
      (forall e,
          expr = Some e -> truthy expr = true ->
          parse preserveLatex latex =
          Normal (parse_finish preserveLatex latex
                    (Some (EFunction [EString "Sequence"; e;
                                      unexpected (tokenize latex) rest token])))) /\
      (expr = None ->
       parse preserveLatex latex =
       Normal (parse_finish preserveLatex latex
                 (Some (unexpected (tokenize latex) rest token))))) /\
  (forall expr rest token def n more result i name,
      matchExpression (mkParser (tokenize latex) 0) = (expr, rest) ->
      tokenize latex !! rest = Some token ->
      peekDefinitions_infix (mkParser (tokenize latex) rest) = Some ((def, n), more) ->
      entry_parse def (mkParser (tokenize latex) (rest + n)) 0%Z
        (or_missing (mkParser (tokenize latex) (rest + n)) expr rest) = (result, i) ->
      truthy result = false ->
      truthy_name (entry_name def) = Some name ->
      parse preserveLatex latex =
      Normal (EFunction
                [EString name;
                 or_missing (mkParser (tokenize latex) i) expr rest;
                 parser_error (mkParser (tokenize latex) i) (CodeString "missing")
                   rest])).
Proof.
  split; [|split].
  - (* never throws *)
    unfold parse.
    destruct (matchExpression (mkParser (tokenize latex) 0)) as [expr rest].
    unfold set_index. simpl tokens.
    destruct (atEnd (mkParser (tokenize latex) rest)) eqn:Hend; simpl negb;
      cbv iota; [eauto|].
    destruct (atEnd_false_lookup _ _ Hend) as [token Ht].
    destruct (peekDefinitions_infix _) as [[[def n] _]|].
    + simpl index. simpl tokens.
      destruct (entry_parse def _ _ _) as [result i].
      destruct (truthy result) eqn:Hr.
      * destruct result; [eauto | discriminate].
      * destruct (truthy_name (entry_name def)); [eauto|].
        rewrite (parse_unexpected_token _ _ _ _ Ht). eauto.
    + rewrite (parse_unexpected_token _ _ _ _ Ht). eauto.
  - (* the error in the tree *)
    intros expr rest token Hmatch Ht Hfails.
    assert (Hparse :
      parse preserveLatex latex =
      match parse_unexpected (mkParser (tokenize latex) rest) expr with
      | Normal expr => Normal (parse_finish preserveLatex latex expr)
      | Throw e => Throw e
      end).
    { unfold parse. rewrite Hmatch. unfold set_index. simpl tokens.
      rewrite (lookup_atEnd_false _ _ _ Ht). simpl negb. cbv iota.
      unfold continuation_fails in Hfails.
      destruct (peekDefinitions_infix _) as [[[def n] _]|]; [|reflexivity].
      unfold set_index in Hfails. simpl in Hfails. simpl index. simpl tokens.
      destruct (entry_parse def _ _ _) as [result i].
      simpl in Hfails. destruct Hfails as [-> ->]. reflexivity. }
    rewrite Hparse, (parse_unexpected_token _ _ _ _ Ht).
    split.
    + intros e -> Htruthy. by rewrite Htruthy.
    + by intros ->.
  - (* the entry has a name *)
    intros expr rest token def n more result i name Hmatch Ht Hpeek Hentry Hr Hname.
    unfold parse. rewrite Hmatch. unfold set_index. simpl tokens.
    rewrite (lookup_atEnd_false _ _ _ Ht). simpl negb. cbv iota.
    rewrite Hpeek. simpl index. simpl tokens. rewrite Hentry.
    by rewrite Hr, Hname.
Qed.

(** The parsed expression is dropped when it is a falsy literal, the
    number [0] or an empty string: [if (!expr) expr = error]. *)
Lemma parse_drops_a_falsy_prefix preserveLatex latex e rest token :
  matchExpression (mkParser (tokenize latex) 0) = (Some e, rest) ->
  tokenize latex !! rest = Some token ->
  continuation_fails (mkParser (tokenize latex) rest) (Some e) ->
  truthy (Some e) = false ->
  parse preserveLatex latex =
  Normal (parse_finish preserveLatex latex
            (Some (unexpected (tokenize latex) rest token))).
Proof.
  intros Hmatch Ht Hfails Hfalsy.
  unfold parse. rewrite Hmatch. unfold set_index. simpl tokens.
  rewrite (lookup_atEnd_false _ _ _ Ht). simpl negb. cbv iota.
  unfold continuation_fails in Hfails.
  destruct (peekDefinitions_infix _) as [[[def n] _]|].
  - unfold set_index in Hfails. simpl in Hfails. simpl index. simpl tokens.
    destruct (entry_parse def _ _ _) as [result i].
    simpl in Hfails. destruct Hfails as [-> ->].
    rewrite (parse_unexpected_token _ _ _ _ Ht). by rewrite Hfalsy.
  - rewrite (parse_unexpected_token _ _ _ _ Ht). by rewrite Hfalsy.
Qed.

End Parse.

Section ParseExample.
#[local] Existing Instance ExampleLatex.services.
Import MathJson LatexSyntax.

(** C3, as stated, fails: when no expression is parsed there is no
    sequence, the result is the error itself. *)
Lemma parse_nothing_parsed_no_Sequence :
  parse false "\foo" =
  Normal (EFunction [EString "Error";
                     EFunction [EString "ErrorCode";
                                EStringObject None "unexpected-command";
                                EStringObject None "\foo"]]) /\
  head_is (Some (EFunction [EString "Error";
                            EFunction [EString "ErrorCode";
                                       EStringObject None "unexpected-command";
                                       EStringObject None "\foo"]]))
    "Sequence" = false.
Proof. split; reflexivity. Qed.

(** A token that is the escape marker alone is an [unexpected-token]. *)
Lemma parse_lone_escape_marker_is_a_token :
  parse false ("x " +:+ String escape_marker EmptyString) =
  Normal (EFunction [EString "Sequence"; EString "x";
                     EFunction [EString "Error";
                                EFunction [EString "ErrorCode";
                                           EStringObject None "unexpected-token";
                                           EStringObject None
                                             (String escape_marker EmptyString)]]]).
Proof. reflexivity. Qed.

Lemma parse_embeds_the_error_witness :
  parse false "x \foo" =
  Normal (EFunction [EString "Sequence"; EString "x";
                     EFunction [EString "Error";
                                EFunction [EString "ErrorCode";
                                           EStringObject None "unexpected-command";
                                           EStringObject None "\foo"]]]).
Proof.
  refine (proj1 (proj1 (proj2 (@parse_embeds_the_error ExampleLatex.services false
                                 "x \foo"))
                   (Some (EString "x")) 1%nat "\foo" _ _ _) (EString "x") _ _);
    reflexivity.
Defined.

End ParseExample.

(* ================================================================== *)
(** * serializeMultiply: numerator, denominator and Divide *)
(* ================================================================== *)

Section SerializeMultiply.
Context `{LatexServices}.
Import MathJson LatexSyntax.

(** A step of [numeratorDenominator] only appends to the two lists. *)
Lemma numeratorDenominator_step_appends nd arg :
  exists n' d',
    numeratorDenominator_step nd arg = (fst nd ++ n', snd nd ++ d').
Proof.
  destruct nd as [n d]. unfold numeratorDenominator_step. simpl fst. simpl snd.
  repeat match goal with
  | |- context [if ?b then _ else _] => destruct b
  | |- context [match ?o with Some _ => _ | None => _ end] => destruct o
  | |- context [let '(_, _) := ?p in _] => destruct p
  end;
  eexists; eexists; f_equal;
    first [reflexivity | symmetry; apply app_nil_r].
Qed.

Lemma numeratorDenominator_fold_appends args nd :
  exists n' d',
    fold_left numeratorDenominator_step args nd = (fst nd ++ n', snd nd ++ d').
Proof.
  revert nd. induction args as [|arg args IH]; intros nd; simpl.
  - exists [], []. rewrite !app_nil_r. by destruct nd.
  - destruct (numeratorDenominator_step_appends nd arg) as (n1 & d1 & ->).
    destruct (IH (fst nd ++ n1, snd nd ++ d1)) as (n2 & d2 & ->).
    simpl. exists (n1 ++ n2), (d1 ++ d2). by rewrite !app_assoc.
Qed.

(** What the factor [arg] of a product contributes to the denominator
    stays in the denominator. *)
Lemma numeratorDenominator_contribution expr arg d :
  head_is (Some expr) "Multiply" = true ->
  arg ∈ default [] (ops (Some expr)) ->
  (forall nd, d ∈ snd (numeratorDenominator_step nd arg)) ->
  d ∈ snd (numeratorDenominator expr).
Proof.
  intros Hhead Harg Hstep. unfold numeratorDenominator. rewrite Hhead. simpl negb.
  cbv iota.
  apply list_elem_of_split in Harg as (pre & post & ->).
  rewrite fold_left_app. simpl.
  set (nd := fold_left numeratorDenominator_step pre ([], [])).
  destruct (numeratorDenominator_fold_appends post
              (numeratorDenominator_step nd arg)) as (n' & d' & ->).
  simpl. apply elem_of_app. left. apply Hstep.
Qed.

(** A number is not an application of [Negate]. *)
Lemma machineValue_not_Negate e n :
  machineValue e = Some n -> head_is e "Negate" = false.
Proof. by destruct e as [[]|]. Qed.

(** A power with a negative number as exponent. *)
Lemma step_negative_exponent nd arg base n :
  head_is (Some arg) "Power" = true ->
  op (Some arg) 1 = Some base ->
  truthy (Some base) = true ->
  machineValue (op (Some arg) 2) = Some n ->
  js_ltb n (js_of_Z 0) = true ->
  numeratorDenominator_step nd arg =
  (fst nd,
   snd nd ++ [if js_eqb n (js_of_Z (-1)) then base
              else EFunction [POWER; base; ENumber (js_neg n)]]).
Proof.
  intros Hhead Hop1 Hbase Hval Hneg. destruct nd as [num den].
  unfold numeratorDenominator_step.
  rewrite Hhead, (machineValue_not_Negate _ _ Hval), Hval, Hop1, Hbase.
  change (default JSNaN (Some n)) with n. cbn [fst snd].
  destruct (js_eqb n (js_of_Z (-1))); [reflexivity|].
  by rewrite Hneg.
Qed.

(** A power whose exponent is a [Negate]. *)
Lemma step_Negate_exponent nd arg base b :
  head_is (Some arg) "Power" = true ->
  op (Some arg) 1 = Some base ->
  truthy (Some base) = true ->
  head_is (op (Some arg) 2) "Negate" = true ->
  op (op (Some arg) 2) 1 = Some b ->
  truthy (Some b) = true ->
  numeratorDenominator_step nd arg =
  (fst nd, snd nd ++ [EFunction [POWER; base; b]]).
Proof.
  intros Hhead Hop1 Hbase Hnegate Hb Htruthy. destruct nd as [num den].
  unfold numeratorDenominator_step.
  by rewrite Hhead, Hnegate, Hop1, Hb, Hbase, Htruthy.
Qed.

(** An application of [Rational] is not one of [Power]. *)
Lemma head_is_other e name name' :
  head_is e name = true -> name <> name' -> head_is e name' = false.
Proof.
  unfold head_is. destruct (head e) as [[]|]; try done.
  intros ->%String.eqb_eq Hne. by apply String.eqb_neq.
Qed.

(** A [Rational] with two operands. *)
Lemma step_Rational nd arg b :
  head_is (Some arg) "Rational" = true ->
  nops (Some arg) = 2%nat ->
  op (Some arg) 2 = Some b ->
  machineValue_is_not_1 (Some b) = true ->
  snd (numeratorDenominator_step nd arg) = snd nd ++ [b].
Proof.
  intros Hhead Hnops Hop2 Hb. destruct nd as [num den].
  unfold numeratorDenominator_step.
  rewrite (head_is_other _ _ "Power" Hhead) by done.
  rewrite Hhead, Hnops, Hop2. simpl andb. cbv iota.
  assert (Hop1 : exists a, op (Some arg) 1 = Some a).
  { unfold nops, op in *. destruct (items (Some arg)) as [[|h [|a l]]|];
      simpl in *; try lia; eauto. }
  destruct Hop1 as [a ->]. simpl. by rewrite Hb.
Qed.

(** A factor that has a rational value and is neither a power nor a
    [Rational] with two operands. *)
Lemma step_rationalValue nd arg n d :
  head_is (Some arg) "Power" = false ->
  head_is (Some arg) "Rational" && (nops (Some arg) =? 2)%nat = false ->
  rationalValue (Some arg) = Some (n, d) ->
  snd (numeratorDenominator_step nd arg) = snd nd ++ [ENumber d].
Proof.
  intros Hpower Hrational Hvalue. destruct nd as [num den].
  unfold numeratorDenominator_step. by rewrite Hpower, Hrational, Hvalue.
Qed.

(** When there is a denominator other than the number 1 alone, the
    product is serialized as the quotient, unless that string is empty. *)
Lemma serializeMultiply_is_Divide fuel serialize_ e s r s2 :
  snd (numeratorDenominator e) <> [] ->
  is_just_1 (snd (numeratorDenominator e)) = false ->
  serialize_
    (Some (EFunction [DIVIDE; product_of (fst (numeratorDenominator e));
                      product_of (snd (numeratorDenominator e))]))
    (mkSerializer (level s + -1) (multiply s) (invisibleMultiply s)) = Some (r, s2) ->
  r <> "" ->
  serializeMultiply (S fuel) serialize_ (Some e) s =
  Some (r, mkSerializer (level s2 + 1) (multiply s2) (invisibleMultiply s2)).
Proof.
  intros Hden Hnot1 Hser Hr.
  cbn [serializeMultiply]. unfold add_level at 1. unfold bind at 1.
  destruct (numeratorDenominator e) as [numer denom]. simpl in *.
  destruct denom as [|d denom]; [done|].
  rewrite Hnot1. unfold bind at 1. rewrite Hser.
  assert (Hne : is_empty r = false).
  { unfold is_empty. by apply String.eqb_neq. }
  rewrite Hne. reflexivity.
Qed.

(** C9, as amended -- In the serialization of a product, these go to the
    denominator: a power with a negative number as exponent and a power
    whose exponent is a [Negate], when the base (and the negated exponent)
    is there and is not a falsy literal, the number [0] or the empty
    string; the denominator of a [Rational] with two operands, when it is
    not 1; and the denominator of any other factor that has a rational
    value.  When the denominator is not empty and is not the number 1
    alone, the product is serialized through the serialization of
    [Divide], of the product of the numerators by the product of the
    denominators (unless that gives the empty string). *)
Theorem serializeMultiply_routes_denominators expr :
  head_is (Some expr) "Multiply" = true ->
  (forall arg base n,
      arg ∈ default [] (ops (Some expr)) ->
      head_is (Some arg) "Power" = true ->
      op (Some arg) 1 = Some base -> truthy (Some base) = true ->
      machineValue (op (Some arg) 2) = Some n -> js_ltb n (js_of_Z 0) = true ->
      (if js_eqb n (js_of_Z (-1)) then base
       else EFunction [POWER; base; ENumber (js_neg n)])
      ∈ snd (numeratorDenominator expr)) /\
  (forall arg base b,
      arg ∈ default [] (ops (Some expr)) ->
      head_is (Some arg) "Power" = true ->
      op (Some arg) 1 = Some base -> truthy (Some base) = true ->
      head_is (op (Some arg) 2) "Negate" = true ->
      op (op (Some arg) 2) 1 = Some b -> truthy (Some b) = true ->
      EFunction [POWER; base; b] ∈ snd (numeratorDenominator expr)) /\
  (forall arg b,
      arg ∈ default [] (ops (Some expr)) ->
      head_is (Some arg) "Rational" = true -> nops (Some arg) = 2%nat ->
      op (Some arg) 2 = Some b -> machineValue_is_not_1 (Some b) = true ->
      b ∈ snd (numeratorDenominator expr)) /\
  (forall arg n d,
      arg ∈ default [] (ops (Some expr)) ->
      head_is (Some arg) "Power" = false ->
      head_is (Some arg) "Rational" && (nops (Some arg) =? 2)%nat = false ->
      rationalValue (Some arg) = Some (n, d) ->
      ENumber d ∈ snd (numeratorDenominator expr)) /\
  (forall fuel serialize_ s r s2,
      snd (numeratorDenominator expr) <> [] ->
      is_just_1 (snd (numeratorDenominator expr)) = false ->
      serialize_
        (Some (EFunction
                 [DIVIDE; product_of (fst (numeratorDenominator expr));
                  product_of (snd (numeratorDenominator expr))]))
        (mkSerializer (level s + -1) (multiply s) (invisibleMultiply s))
      = Some (r, s2) ->
      r <> "" ->
      serializeMultiply (S fuel) serialize_ (Some expr) s =
      Some (r, mkSerializer (level s2 + 1) (multiply s2) (invisibleMultiply s2))).
Proof.
  intros Hhead. split; [|split; [|split; [|split]]].
  - intros arg base n Hin Hpower Hop1 Hbase Hval Hneg.
    apply (numeratorDenominator_contribution _ _ _ Hhead Hin).
    intros nd. rewrite (step_negative_exponent nd arg base n) by done.
    simpl. apply elem_of_app. right. apply list_elem_of_singleton. reflexivity.
  - intros arg base b Hin Hpower Hop1 Hbase Hnegate Hb Htruthy.
    apply (numeratorDenominator_contribution _ _ _ Hhead Hin).
    intros nd. rewrite (step_Negate_exponent nd arg base b) by done.
    simpl. apply elem_of_app. right. by apply list_elem_of_singleton.
  - intros arg b Hin Hrational Hnops Hop2 Hb.
    apply (numeratorDenominator_contribution _ _ _ Hhead Hin).
    intros nd. rewrite (step_Rational nd arg b) by done.
    apply elem_of_app. right. by apply list_elem_of_singleton.
  - intros arg n d Hin Hpower Hrational Hvalue.
    apply (numeratorDenominator_contribution _ _ _ Hhead Hin).
    intros nd. rewrite (step_rationalValue nd arg n d) by done.
    apply elem_of_app. right. by apply list_elem_of_singleton.
  - intros fuel serialize_ s r s2. apply serializeMultiply_is_Divide.
Qed.

End SerializeMultiply.

Section SerializeExample.
#[local] Existing Instance ExampleLatex.services.
Import MathJson LatexSyntax.

(** Scenario 6 of the specification: [["Multiply", 2, ["Rational", 1, 3]]]
    is serialized as a fraction. *)
Lemma serialize_two_thirds :
  serialize 3 (Some ExampleLatex.two_thirds) ExampleLatex.serializer
  = Some ("\frac{2}{3}", ExampleLatex.serializer).
Proof. vm_compute. reflexivity. Qed.

(** C9, as stated, fails: the factor [1 ^ -1] has a negative exponent and
    goes to the denominator, which is then the number 1 alone; the product
    is serialized as its numerator and not through [Divide]. *)
Lemma serializeMultiply_denominator_1_is_not_Divide :
  numeratorDenominator ExampleLatex.x_over_1 = ([EString "x"], [ENumber (js_of_Z 1)]) /\
  serializeMultiply 3 (serialize 3) (Some ExampleLatex.x_over_1) ExampleLatex.serializer
  = Some ("x", ExampleLatex.serializer) /\
  serialize 3 (Some (EFunction [DIVIDE; EString "x"; ENumber (js_of_Z 1)]))
    (mkSerializer (-1) "\times" "")
  = Some ("\frac{x}{1}", mkSerializer (-1) "\times" "").
Proof. repeat split; vm_compute; reflexivity. Qed.

(** A power whose base is the number [0] is dropped from the product: it
    goes neither to the numerator nor to the denominator, and
    [x * 0^-1 * y^-1] is serialized as the quotient of [x] by [y]. *)
Lemma numeratorDenominator_drops_a_zero_base :
  numeratorDenominator ExampleLatex.x_over_0_y
  = ([EString "x"], [EString "y"]).
Proof. reflexivity. Qed.

Lemma serializeMultiply_routes_denominators_witness :
  serializeMultiply 3 (serialize 3) (Some ExampleLatex.two_thirds) ExampleLatex.serializer
  = Some ("\frac{2}{3}", ExampleLatex.serializer).
Proof.
  refine (proj2 (proj2 (proj2 (proj2
            (@serializeMultiply_routes_denominators ExampleLatex.services
               ExampleLatex.two_thirds _))))
            2%nat (serialize 3) ExampleLatex.serializer "\frac{2}{3}"
            (mkSerializer (-1) "\times" "") _ _ _ _).
  - reflexivity.
  - vm_compute. discriminate.
  - vm_compute. reflexivity.
  - vm_compute. reflexivity.
  - discriminate.
Defined.

End SerializeExample.

(* ================================================================== *)
(** * canonical: the accessor is idempotent *)
(* ================================================================== *)

Section Canonical.
Context `{Library}.

Lemma same_object_refl x : same_object x x = true.
Proof. unfold same_object. apply Nat.eqb_refl. Qed.

(** A registered function is canonical exactly when its cache holds the
    function itself: an identity names one object. *)
Lemma isCanonical_self s k h xs d :
  registry_ok s ->
  registered s (BoxedFunction k h xs d) ->
  isCanonical s (BoxedFunction k h xs d) = true <->
  _canonical s !! k = Some (BoxedFunction k h xs d).
Proof.
  intros Hreg Hx. unfold isCanonical. split.
  - destruct (_canonical s !! k) as [c|] eqn:Hc; [|discriminate].
    intros Hsame. unfold same_object in Hsame. apply Nat.eqb_eq in Hsame.
    pose proof (reg_canonical s Hreg k c Hc) as Hcreg.
    unfold registered in *. simpl in *. rewrite Hsame in Hcreg. congruence.
  - intros ->. apply same_object_refl.
Qed.

(** Validity reads the engine through the caches only. *)
Lemma isValid_same_caches s s' x :
  _canonical s = _canonical s' -> isValid s x = isValid s' x.
Proof.
  intros Hc.
  induction x as [oid a | oid n xs d IH | oid h xs d IHh IH]
    using BoxedExpression_ind; simpl.
  - reflexivity.
  - unfold isCanonical. rewrite Hc.
    destruct (String.eqb n "Error"); [reflexivity|].
    destruct (_canonical s' !! oid) as [c|]; [|reflexivity].
    destruct (same_object c _); [|reflexivity]. simpl.
    destruct d; [|reflexivity].
    induction IH as [|x xs Hx _ IHxs]; simpl; [reflexivity|].
    by rewrite Hx, IHxs.
  - rewrite IHh. destruct (negb (isValid s' h)); [reflexivity|].
    induction IH as [|x xs Hx _ IHxs]; simpl; [reflexivity|].
    by rewrite Hx, IHxs.
Qed.

Lemma forallb_ext_Forall {A} (f g : A -> bool) xs :
  Forall (fun x => f x = g x) xs -> forallb f xs = forallb g xs.
Proof. induction 1 as [|x xs Hx _ IH]; simpl; [reflexivity | by rewrite Hx, IH]. Qed.

(** The validity of a registered object does not change as the engine
    evolves. *)
Lemma isValid_permanent s s' x :
  registry_ok s -> registry_ok s' -> evolves s s' ->
  registered s x -> isValid s' x = isValid s x.
Proof.
  intros Hreg Hreg' Hev.
  induction x as [oid a | oid n xs d IH | oid h xs d IHh IH]
    using BoxedExpression_ind; intros Hx.
  - reflexivity.
  - pose proof (reg_children s Hreg _ _ Hx) as Hch. simpl in Hch.
    assert (Hops : forallb (isValid s') xs = forallb (isValid s) xs).
    { apply forallb_ext_Forall. rewrite Forall_forall in *. eauto. }
    assert (Hx' : registered s' (BoxedFunction oid (HName n) xs d)).
    { apply (ev_objects _ _ Hev), Hx. }
    cbn [isValid]. destruct (String.eqb n "Error") eqn:Hn; [reflexivity|].
    assert (Hflag : isCanonical s' (BoxedFunction oid (HName n) xs d)
                    = isCanonical s (BoxedFunction oid (HName n) xs d)).
    { destruct (isCanonical s _) eqn:Hc.
      - apply isCanonical_self in Hc; [|done..].
        apply isCanonical_self; [done..|]. by apply (ev_self _ _ Hev).
      - destruct (isCanonical s' _) eqn:Hc'; [|reflexivity].
        apply isCanonical_self in Hc'; [|done..].
        assert (Hnot : _canonical s !! oid <> Some (BoxedFunction oid (HName n) xs d)).
        { intros Habs. apply isCanonical_self in Habs; [|done..]. congruence. }
        pose proof (ev_flag _ _ Hev _ _ Hx Hnot Hc') as Hinv.
        cbn [isValid] in Hinv. rewrite Hn, Hc in Hinv. discriminate. }
    unfold functionDefinition.
    rewrite Hflag. destruct (isCanonical s _); simpl; [|reflexivity].
    destruct d; [exact Hops | reflexivity].
  - pose proof (reg_children s Hreg _ _ Hx) as Hch. simpl in Hch.
    apply Forall_cons in Hch as [Hh Hch].
    simpl. rewrite (IHh Hh).
    destruct (negb (isValid s h)); [reflexivity|].
    apply forallb_ext_Forall. rewrite Forall_forall in *. eauto.
Qed.

(** Two registered objects are the same or have different identities. *)
Lemma registered_same_or_not s c x :
  registered s c -> registered s x -> c = x \/ c <> x.
Proof.
  unfold registered. intros Hc Hx.
  destruct (Nat.eq_dec (oid_of c) (oid_of x)) as [Heq|Hne].
  - left. rewrite Heq in Hc. congruence.
  - right. congruence.
Qed.

Lemma objects_registered s k x :
  registry_ok s -> objects s !! k = Some x -> registered s x.
Proof.
  intros Hreg Hx. unfold registered.
  by rewrite (proj1 (reg_oid s Hreg _ _ Hx)).
Qed.

Lemma cached_same_or_not s k x :
  registry_ok s -> objects s !! k = Some x ->
  _canonical s !! k = Some x \/ _canonical s !! k <> Some x.
Proof.
  intros Hreg Hx. destruct (_canonical s !! k) as [c|] eqn:Hc; [|by right].
  destruct (registered_same_or_not s c x) as [->|Hne].
  - by apply (reg_canonical s Hreg k).
  - by apply (objects_registered s k).
  - by left.
  - right. congruence.
Qed.

Lemma evolves_refl s : evolves s s.
Proof. split; [lia | auto | auto | intros; congruence]. Qed.

Lemma evolves_trans s s' s'' :
  registry_ok s -> registry_ok s' ->
  evolves s s' -> evolves s' s'' -> evolves s s''.
Proof.
  intros Hreg Hreg' H1 H2. split.
  - pose proof (ev_oid _ _ H1). pose proof (ev_oid _ _ H2). lia.
  - intros k x Hx. by apply (ev_objects _ _ H2), (ev_objects _ _ H1).
  - intros k x Hx Hc. apply (ev_self _ _ H2); [by apply (ev_objects _ _ H1)|].
    by apply (ev_self _ _ H1).
  - intros k x Hx Hnot Hc''.
    destruct (cached_same_or_not s' k x Hreg' (ev_objects _ _ H1 _ _ Hx))
      as [Hc'|Hc'].
    + by apply (ev_flag _ _ H1 k x).
    + rewrite <- (isValid_permanent s s' x Hreg Hreg' H1).
      * apply (ev_flag _ _ H2 k x); [by apply (ev_objects _ _ H1) | done..].
      * by apply (objects_registered s k).
Qed.

Lemma registered_evolves s s' x :
  evolves s s' -> registered s x -> registered s' x.
Proof. intros Hev Hx. by apply (ev_objects _ _ Hev). Qed.

(** An object stays stable through a step that, when it sets the cache of
    an object that is not valid, sets it to the object itself. *)
Lemma stable_step s s' x :
  registry_ok s -> registry_ok s' -> evolves s s' ->
  registered s x -> stable s x ->
  (forall c, _canonical s !! oid_of x = None ->
             _canonical s' !! oid_of x = Some c ->
             isValid s x = false -> c = x) ->
  stable s' x.
Proof.
  intros Hreg Hreg' Hev Hx Hst Hset.
  destruct x as [k h xs d | k a]; [|exact Hst].
  destruct Hst as [Hself | [Hnone Hinvalid]].
  - left. by apply (ev_self _ _ Hev).
  - destruct (_canonical s' !! k) as [c|] eqn:Hc.
    + left. rewrite Hc. f_equal. by apply Hset.
    + right. split; [done|].
      by rewrite (isValid_permanent s s' _ Hreg Hreg' Hev Hx).
Qed.

(** A stable object stays stable as the engine evolves. *)
Lemma stable_evolves s s' x :
  registry_ok s -> engine_invariant s' -> evolves s s' ->
  registered s x -> stable s x -> stable s' x.
Proof.
  intros Hreg [Hreg' Hcan'] Hev Hx Hst.
  apply (stable_step s s' x); [done..|].
  intros c Hnone Hc Hinvalid.
  destruct (registered_same_or_not s' c x) as [->|Hne]; [| |done|].
  - by apply (reg_canonical s' Hreg' (oid_of x)).
  - by apply (registered_evolves s).
  - pose proof (can_other s' Hcan' _ c x Hc (ev_objects _ _ Hev _ _ Hx) Hne) as Hv.
    rewrite (isValid_permanent s s' _ Hreg Hreg' Hev Hx) in Hv. congruence.
Qed.

Lemma Forall_registered_evolves s s' xs :
  evolves s s' -> Forall (registered s) xs -> Forall (registered s') xs.
Proof.
  intros Hev Hxs. eapply Forall_impl; [exact Hxs|].
  intros x. by apply registered_evolves.
Qed.

Lemma Forall_stable_evolves s s' xs :
  registry_ok s -> engine_invariant s' -> evolves s s' ->
  Forall (registered s) xs -> Forall (stable s) xs -> Forall (stable s') xs.
Proof.
  intros Hreg Hinv Hev Hxs Hst. rewrite Forall_forall in *.
  intros x Hx. eapply stable_evolves; eauto.
Qed.

(** A function that is not its own canonical form and whose head is a
    name other than [Error] is valid. *)
Lemma isValid_not_canonical s k n xs d :
  n <> "Error" ->
  isCanonical s (BoxedFunction k (HName n) xs d) = false ->
  isValid s (BoxedFunction k (HName n) xs d) = true.
Proof.
  intros Hn Hc. cbn [isValid].
  apply String.eqb_neq in Hn. rewrite Hn, Hc. reflexivity.
Qed.

(** A stable function that is valid, or whose head is a name other than
    [Error], is its own canonical form. *)
Lemma stable_valid_self s k h xs d :
  stable s (BoxedFunction k h xs d) ->
  isValid s (BoxedFunction k h xs d) = true ->
  _canonical s !! k = Some (BoxedFunction k h xs d).
Proof. intros [Hself | [_ Hinv]] Hv; [done | congruence]. Qed.

Lemma stable_named_self s k n xs d :
  stable s (BoxedFunction k (HName n) xs d) ->
  n <> "Error" ->
  _canonical s !! k = Some (BoxedFunction k (HName n) xs d).
Proof.
  intros [Hself | [Hnone Hinv]] Hn; [done|].
  rewrite isValid_not_canonical in Hinv; [discriminate | done |].
  unfold isCanonical. by rewrite Hnone.
Qed.

(** The operands of a registered, stable function whose head is a name
    other than [Error] are registered and stable. *)
Lemma stable_operands s k n xs d :
  engine_invariant s ->
  registered s (BoxedFunction k (HName n) xs d) ->
  stable s (BoxedFunction k (HName n) xs d) ->
  n <> "Error" ->
  Forall (registered s) xs /\ Forall (stable s) xs.
Proof.
  intros [Hreg Hcan] Hx Hst Hn. split.
  - apply (reg_children s Hreg _ _ Hx).
  - apply (can_operands s Hcan k n xs d); [exact Hx | | done].
    by apply stable_named_self.
Qed.

(** ** The steps of the accessor *)

(** [this._canonical = c], where [c] is stable, and is another object only
    if [this] is valid. *)
Lemma set_canonical_good s k e c :
  engine_invariant s ->
  objects s !! k = Some e ->
  registered s c -> stable s c ->
  (_canonical s !! k = Some e -> c = e) ->
  (c = e -> _canonical s !! k <> Some e -> isValid s e = false) ->
  (c <> e -> isValid s e = true) ->
  canonical_post s (set_canonical k c s) c.
Proof.
  intros [Hreg Hcan] He Hc Hst H1 H2 H3.
  pose proof (objects_registered s k e Hreg He) as Hereg.
  assert (Hreg1 : registry_ok (set_canonical k c s)).
  { split; simpl.
    - apply (reg_oid s Hreg).
    - apply (reg_children s Hreg).
    - apply (reg_nothing s Hreg).
    - intros k' c'. rewrite lookup_insert. destruct (decide (k = k')).
      + by intros [= <-].
      + apply (reg_canonical s Hreg). }
  assert (Hev : evolves s (set_canonical k c s)).
  { split; simpl.
    - lia.
    - auto.
    - intros k' x Hx Hcx. rewrite lookup_insert. destruct (decide (k = k')) as [<-|]; [|done].
      assert (x = e) as -> by congruence. by rewrite H1.
    - intros k' x Hx Hnot. rewrite lookup_insert. destruct (decide (k = k')) as [<-|]; [|done].
      intros [= ->]. assert (x = e) as -> by congruence. by apply H2. }
  assert (Hkeep : forall x, registered s x -> stable s x ->
                            stable (set_canonical k c s) x).
  { intros x Hx Hstx. apply (stable_step s _ x); [done..|].
    intros c' Hnone. simpl. rewrite lookup_insert.
    destruct (decide (k = oid_of x)) as [Hk|]; [|congruence].
    intros [= <-] Hinv.
    assert (x = e) as ->.
    { unfold registered in Hx. rewrite <- Hk in Hx. congruence. }
    destruct (registered_same_or_not s c e Hc Hereg) as [->|Hne]; [done|].
    rewrite (H3 Hne) in Hinv. discriminate. }
  split; [split; [done|] | split; [done | split]].
  - split.
    + intros k' c'. simpl. rewrite lookup_insert. destruct (decide (k = k')).
      * intros [= <-]. by apply Hkeep.
      * intros Hc'. apply Hkeep; [by apply (reg_canonical s Hreg k') |].
        by apply (can_stable s Hcan k').
    + intros k' c' x. simpl. rewrite lookup_insert. destruct (decide (k = k')) as [<-|].
      * intros [= <-] Hx Hne. simpl in Hx. assert (x = e) as -> by congruence.
        rewrite (isValid_permanent s _ e Hreg Hreg1 Hev Hereg). by apply H3.
      * intros Hc' Hx Hne.
        rewrite (isValid_permanent s _ x Hreg Hreg1 Hev (objects_registered s k' x Hreg Hx)).
        by apply (can_other s Hcan k' c').
    + intros k' n xs d Hx. simpl in Hx |- *. rewrite lookup_insert.
      destruct (decide (k = k')) as [<-|].
      * intros [= ->] Hn. assert (e = BoxedFunction k (HName n) xs d) as -> by congruence.
        destruct (cached_same_or_not s k _ Hreg He) as [Hself | Hnot].
        -- pose proof (can_operands s Hcan k n xs d He Hself Hn) as Hxs.
           pose proof (reg_children s Hreg _ _ He) as Hch. simpl in Hch.
           rewrite Forall_forall in *. eauto.
        -- pose proof (H2 eq_refl Hnot) as Hinv.
           rewrite isValid_not_canonical in Hinv; [discriminate | done |].
           destruct (isCanonical s _) eqn:Hcan'; [|done].
           apply isCanonical_self in Hcan'; done.
      * intros Hself Hn.
        pose proof (can_operands s Hcan k' n xs d Hx Hself Hn) as Hxs.
        pose proof (reg_children s Hreg _ _ Hx) as Hch. simpl in Hch.
        rewrite Forall_forall in *. eauto.
  - by apply (registered_evolves s).
  - by apply Hkeep.
Qed.

(** An identity that names an object is not the next identity. *)
Lemma registered_not_fresh s k x :
  registry_ok s -> objects s !! k = Some x -> next_oid s <> k.
Proof. intros Hreg Hx. pose proof (reg_oid s Hreg _ _ Hx). lia. Qed.

(** [new BoxedFunction(ce, head, ops, { canonical: true, def })], when
    the operands are stable (an [Error] apart). *)
Lemma new_BoxedFunction_good s h xs def c s1 :
  engine_invariant s ->
  Forall (registered s) xs ->
  (forall he, h = HExpr he -> registered s he) ->
  (forall n, h = HName n -> n <> "Error" -> Forall (stable s) xs) ->
  new_BoxedFunction h xs true def s = Some (c, s1) ->
  canonical_post s s1 c.
Proof.
  intros [Hreg Hcan] Hxs Hh Hst Hnew.
  unfold new_BoxedFunction in Hnew. injection Hnew as <- <-.
  set (this := BoxedFunction (next_oid s) h xs def).
  set (s1 := mkEngine _ _ _ _ _ _ _ _).
  assert (Hold : forall x, registered s x -> registered s1 x).
  { intros x Hx. unfold registered, s1. simpl.
    rewrite lookup_insert_ne; [done|]. by apply (registered_not_fresh s _ x). }
  assert (Hreg1 : registry_ok s1).
  { split; unfold s1; simpl.
    - intros k x. rewrite lookup_insert. destruct (decide (next_oid s = k)) as [<-|].
      + intros [= <-]. simpl. split; [done | lia].
      + intros Hx. destruct (reg_oid s Hreg _ _ Hx). split; [done | lia].
    - intros k x. rewrite lookup_insert. destruct (decide (next_oid s = k)) as [<-|].
      + intros [= <-]. unfold this. simpl.
        destruct h as [n | he].
        * eapply Forall_impl; [exact Hxs | exact Hold].
        * constructor; [by apply Hold, Hh|].
          eapply Forall_impl; [exact Hxs | exact Hold].
      + intros Hx. eapply Forall_impl; [exact (reg_children s Hreg _ _ Hx) | exact Hold].
    - apply Hold, (reg_nothing s Hreg).
    - intros k c. rewrite lookup_insert. destruct (decide (next_oid s = k)) as [<-|].
      + intros [= <-]. unfold registered. simpl. apply lookup_insert_eq.
      + intros Hc. by apply Hold, (reg_canonical s Hreg k). }
  assert (Hev : evolves s s1).
  { split; unfold s1; simpl.
    - lia.
    - intros k x Hx. rewrite lookup_insert_ne; [done|].
      by apply (registered_not_fresh s _ x).
    - intros k x Hx Hc. rewrite lookup_insert_ne; [done|].
      by apply (registered_not_fresh s _ x).
    - intros k x Hx Hnot. rewrite lookup_insert_ne; [done|].
      by apply (registered_not_fresh s _ x). }
  assert (Hkeep : forall x, registered s x -> stable s x -> stable s1 x).
  { intros x Hx Hstx. apply (stable_step s s1 x); [done..|].
    intros c Hnone. unfold s1. simpl. rewrite lookup_insert_ne; [congruence|].
    by apply (registered_not_fresh s _ x). }
  assert (Hthis : stable s1 this).
  { left. unfold s1. simpl. apply lookup_insert_eq. }
  split; [split; [done|] | split; [done | split]].
  - split.
    + intros k c. unfold s1. simpl. rewrite lookup_insert.
      destruct (decide (next_oid s = k)) as [<-|].
      * by intros [= <-].
      * intros Hc. apply Hkeep; [by apply (reg_canonical s Hreg k) |].
        by apply (can_stable s Hcan k).
    + intros k c x. unfold s1. simpl. rewrite !lookup_insert.
      destruct (decide (next_oid s = k)) as [<-|].
      * intros [= <-] [= <-]. done.
      * intros Hc Hx Hne. fold s1.
        rewrite (isValid_permanent s _ x Hreg Hreg1 Hev (objects_registered s k x Hreg Hx)).
        by apply (can_other s Hcan k c).
    + intros k n xs' d. unfold s1. simpl. rewrite !lookup_insert.
      destruct (decide (next_oid s = k)) as [<-|].
      * intros [= -> -> ->] _ Hn.
        pose proof (Hst n eq_refl Hn) as Hstable.
        rewrite Forall_forall in *. eauto.
      * intros Hx Hself Hn.
        pose proof (can_operands s Hcan k n xs' d Hx Hself Hn) as Hstable.
        pose proof (reg_children s Hreg _ _ Hx) as Hch. simpl in Hch.
        rewrite Forall_forall in *. eauto.
  - unfold registered, s1. simpl. apply lookup_insert_eq.
  - exact Hthis.
Qed.

(** A step that leaves the objects and their caches as they are. *)
Lemma same_objects_good s s' :
  next_oid s' = next_oid s -> objects s' = objects s ->
  _canonical s' = _canonical s ->
  engine_invariant s -> engine_invariant s' /\ evolves s s'.
Proof.
  intros Hn Ho Hc [Hreg Hcan].
  assert (Hv : forall x, isValid s' x = isValid s x).
  { intros x. by apply isValid_same_caches. }
  assert (Hst : forall x, stable s x -> stable s' x).
  { intros [k h xs d | k a]; [|done]. unfold stable. by rewrite Hc, Hv. }
  assert (Hr : forall x, registered s x -> registered s' x).
  { intros x. unfold registered. by rewrite Ho. }
  split; [split|].
  - split.
    + rewrite Hn, Ho. apply (reg_oid s Hreg).
    + rewrite Ho. intros k x Hx.
      eapply Forall_impl; [exact (reg_children s Hreg _ _ Hx) | exact Hr].
    + apply Hr, (reg_nothing s Hreg).
    + rewrite Hc. intros k c Hk. by apply Hr, (reg_canonical s Hreg k).
  - split.
    + rewrite Hc. intros k c Hk. by apply Hst, (can_stable s Hcan k).
    + rewrite Hc, Ho. intros k c x Hk Hx Hne. rewrite Hv.
      by apply (can_other s Hcan k c).
    + rewrite Hc, Ho. intros k n xs d Hx Hself Hne.
      eapply Forall_impl; [exact (can_operands s Hcan k n xs d Hx Hself Hne) | exact Hst].
  - split.
    + lia.
    + by rewrite Ho.
    + by rewrite Hc.
    + rewrite Hc. intros; congruence.
Qed.

(** ** The operand lists *)

(** An operand whose head is the name [h] is a function. *)
Lemma head_is_function x h :
  head_is (head x) h = true ->
  (exists k xs d, x = BoxedFunction k (HName h) xs d) \/
  (exists k a, x = BoxedAtom k a).
Proof.
  destruct x as [k [n | he] xs d | k a]; simpl; [| discriminate | eauto].
  intros ->%String.eqb_eq. eauto.
Qed.

Lemma flattenSequence_good s xs :
  engine_invariant s ->
  Forall (registered s) xs -> Forall (stable s) xs ->
  Forall (registered s) (flattenSequence xs) /\
  Forall (stable s) (flattenSequence xs).
Proof.
  intros Hinv Hreg Hst.
  induction xs as [|x xs IH]; simpl; [done|].
  apply Forall_cons in Hreg as [Hx Hreg]. apply Forall_cons in Hst as [Hsx Hst].
  destruct (IH Hreg Hst) as [IHr IHs].
  destruct (head_is (head x) "Sequence") eqn:Hhead.
  - destruct (head_is_function _ _ Hhead) as [(k & ys & d & ->) | (k & a & ->)];
      simpl; [|done].
    destruct (stable_operands s k "Sequence" ys d Hinv Hx Hsx) as [Hr Hs]; [done|].
    split; by apply Forall_app.
  - split; by constructor.
Qed.

Lemma flatten_nested_registered s h x :
  registry_ok s -> registered s x -> Forall (registered s) (flatten_nested h x).
Proof.
  intros Hreg.
  induction x as [oid a | oid n xs d IH | oid he xs d _ _]
    using BoxedExpression_ind; intros Hx; simpl; [by repeat constructor | |
    by repeat constructor].
  destruct (String.eqb n h); [|by repeat constructor].
  pose proof (reg_children s Hreg _ _ Hx) as Hch. simpl in Hch.
  clear Hx. revert Hch.
  induction IH as [|y ys Hy _ IHys]; intros Hch; simpl; [done|].
  apply Forall_cons in Hch as [Hry Hch].
  apply Forall_app. split; [by apply Hy | by apply IHys].
Qed.

Lemma flatten_nested_stable s h x :
  engine_invariant s -> h <> "Error" ->
  registered s x -> stable s x -> Forall (stable s) (flatten_nested h x).
Proof.
  intros Hinv Hh.
  induction x as [oid a | oid n xs d IH | oid he xs d _ _]
    using BoxedExpression_ind; intros Hx Hsx; simpl; [by apply Forall_singleton | |
    by apply Forall_singleton].
  destruct (String.eqb n h) eqn:Hn; [|by apply Forall_singleton].
  apply String.eqb_eq in Hn as ->.
  destruct (stable_operands s oid h xs d Hinv Hx Hsx Hh) as [Hr Hs].
  clear Hx Hsx. revert Hr Hs.
  induction IH as [|y ys Hy _ IHys]; intros Hr Hs; simpl; [done|].
  apply Forall_cons in Hr as [Hry Hr]. apply Forall_cons in Hs as [Hsy Hs].
  apply Forall_app. split; [by apply Hy | by apply IHys].
Qed.

Lemma flattened_good s h xs :
  engine_invariant s ->
  Forall (registered s) xs ->
  (h <> "Error" -> Forall (stable s) xs) ->
  Forall (registered s) (flattened xs h) /\
  (h <> "Error" -> Forall (stable s) (flattened xs h)).
Proof.
  intros Hinv Hreg Hst. unfold flattened, flattenOps.
  destruct (forallb _ xs); [done|]. split.
  - clear Hst. induction Hreg as [|x xs Hx _ IH]; simpl; [done|].
    apply Forall_app. split; [|done].
    apply flatten_nested_registered; [apply Hinv | done].
  - intros Hh. specialize (Hst Hh).
    induction Hreg as [|x xs Hx _ IH]; simpl; [done|].
    apply Forall_cons in Hst as [Hsx Hst].
    apply Forall_app. split; [|by apply IH].
    by apply flatten_nested_stable.
Qed.

(** [ops.map((x) => x.canonical)]. *)
Lemma mapM_canonical_good canon xs :
  Forall (fun x => forall s c s1,
            engine_invariant s -> registered s x ->
            canon x s = Some (c, s1) -> canonical_post s s1 c) xs ->
  forall s ys s1,
    engine_invariant s -> Forall (registered s) xs ->
    mapM canon xs s = Some (ys, s1) ->
    engine_invariant s1 /\ evolves s s1 /\
    Forall (registered s1) ys /\ Forall (stable s1) ys.
Proof.
  induction 1 as [|x xs Hx _ IH]; intros s ys s1 Hinv Hreg Hmap; simpl in Hmap.
  - injection Hmap as <- <-.
    split; [done|]. split; [apply evolves_refl|]. split; constructor.
  - apply Forall_cons in Hreg as [Hrx Hreg].
    apply bind_Some in Hmap as (y & sa & Hy & Hmap).
    apply bind_Some in Hmap as (ys' & sb & Hys & Hret).
    injection Hret as <- <-.
    destruct (Hx s y sa Hinv Hrx Hy) as (Hinva & Heva & Hry & Hsy).
    destruct (IH sa ys' sb Hinva (Forall_registered_evolves _ _ _ Heva Hreg) Hys)
      as (Hinvb & Hevb & Hrys & Hsys).
    split; [done|]. split; [|split].
    + apply (evolves_trans s sa sb); [apply Hinv | apply Hinva | done..].
    + constructor; [by apply (registered_evolves sa) | done].
    + constructor; [|done].
      apply (stable_evolves sa sb); [apply Hinva | done..].
Qed.

Lemma canonical_post_trans s s' s'' c :
  engine_invariant s -> engine_invariant s' -> evolves s s' ->
  canonical_post s' s'' c -> canonical_post s s'' c.
Proof.
  intros Hinv Hinv' Hev (Hinv'' & Hev' & Hr & Hs).
  split; [done|]. split; [|done].
  apply (evolves_trans s s' s''); [apply Hinv | apply Hinv' | done..].
Qed.

(** Entering and leaving a scope leaves the objects as they are. *)
Lemma scope_step_good (b : bool) (m : M unit) s u s' :
  m = pushScope \/ m = popScope ->
  (if b then m else ret tt) s = Some (u, s') ->
  engine_invariant s -> engine_invariant s' /\ evolves s s'.
Proof.
  intros Hm Hstep Hinv.
  destruct b.
  - destruct Hm as [-> | ->]; injection Hstep as _ <-;
      by apply same_objects_good.
  - injection Hstep as _ <-. split; [done | apply evolves_refl].
Qed.

Lemma operands_ok_evolves s s' hname xs :
  engine_invariant s -> engine_invariant s' -> evolves s s' ->
  operands_ok s hname xs -> operands_ok s' hname xs.
Proof.
  intros Hinv Hinv' Hev [Hr Hs]. split.
  - by apply (Forall_registered_evolves s).
  - intros Hn. apply (Forall_stable_evolves s); [apply Hinv | auto..].
Qed.

(** A valid function whose head is a name: the name is not [Error]. *)
Lemma isValid_not_Error s k n xs d :
  isValid s (BoxedFunction k (HName n) xs d) = true -> n <> "Error".
Proof.
  cbn [isValid]. intros Hv ->. simpl in Hv. discriminate.
Qed.

(** Step 4 of [makeCanonicalFunction], on valid operands. *)
Lemma apply_idempotent_involution_good s def hname xs :
  engine_invariant s -> atom_isCanonical 0 (ASymbol "Nothing") = true ->
  operands_ok s hname xs ->
  forallb (isValid s) xs = true ->
  match apply_idempotent_involution def hname xs with
  | Some (inl r) => registered s r /\ stable s r
  | Some (inr ys) => operands_ok s hname ys
  | None => True
  end.
Proof.
  intros Hinv Hnothing Hok Hvalid. unfold apply_idempotent_involution.
  destruct xs as [|x [|? ?]]; [done | | done].
  destruct (head_is (head x) hname) eqn:Hhead; [|done].
  assert (Hops : registered s (op1 x) /\ stable s (op1 x) /\
                 operands_ok s hname (default [] (ops x))).
  { destruct (head_is_function _ _ Hhead) as [(k & ys & d & ->) | (k & a & ->)].
    - cbn [forallb] in Hvalid. rewrite andb_true_r in Hvalid.
      pose proof (isValid_not_Error _ _ _ _ _ Hvalid) as Hn.
      destruct Hok as [Hr Hs]. specialize (Hs Hn).
      apply Forall_inv in Hr. apply Forall_inv in Hs.
      destruct (stable_operands s k hname ys d Hinv Hr Hs Hn) as [Hry Hsy].
      simpl. destruct ys as [|y ys].
      + repeat split; try done. apply (reg_nothing s), Hinv.
      + apply Forall_cons in Hry as [Hy Hry]. apply Forall_cons in Hsy as [Hy' Hsy].
        repeat split; try done; by constructor.
    - simpl. repeat split; try done. apply (reg_nothing s), Hinv. }
  destruct Hops as (Hr & Hs & Hok').
  destruct (involution def); [done|].
  destruct (idempotent def); [|done].
  by destruct (ops x).
Qed.

(** ** makeCanonicalFunction *)

Lemma makeCanonicalFunction_with_good canon h xs s c s1 :
  well_behaved ->
  Forall (fun x => forall s c s1,
            engine_invariant s -> registered s x ->
            canon x s = Some (c, s1) -> canonical_post s s1 c) xs ->
  engine_invariant s -> Forall (registered s) xs ->
  (forall he, h = HExpr he -> registered s he) ->
  makeCanonicalFunction_with canon h xs s = Some (c, s1) ->
  canonical_post s s1 c.
Proof.
  intros Hwb IH Hinv Hreg Hh Hmk.
  unfold makeCanonicalFunction_with in Hmk.
  (* the operands *)
  apply bind_Some in Hmk as (ys & sa & Hmap & Hmk).
  destruct (mapM_canonical_good canon xs IH s ys sa Hinv Hreg Hmap)
    as (Hinva & Heva & Hrys & Hsys).
  apply (canonical_post_trans s sa s1 c Hinv Hinva Heva).
  destruct (flattenSequence_good sa ys Hinva Hrys Hsys) as [Hrf Hsf].
  assert (Hha : forall he, h = HExpr he -> registered sa he).
  { intros he Hhe. by apply (registered_evolves s), Hh. }
  clear Hmap Hreg Hh IH Hrys Hsys Heva Hinv s xs.
  revert Hrf Hsf Hmk. generalize (flattenSequence ys). clear ys.
  intros xs Hrxs Hsxs Hmk.
  (* the head *)
  apply bind_Some in Hmk as (h' & sb & Hhead & Hmk).
  assert (Hb : engine_invariant sb /\ evolves sa sb /\
               forall he, h' = HExpr he -> registered sb he).
  { destruct h as [n | he].
    - injection Hhead as <- <-. split; [done|]. split; [apply evolves_refl|].
      intros he [=].
    - apply bind_Some in Hhead as (v & sb' & Hev & Hret).
      injection Hret as <- <-.
      destruct (wb_evaluateHead Hwb he sa v sb' Hinva (Hha he eq_refl) Hev)
        as (Hinvb & Hevb & _).
      split; [done|]. split; [done|].
      intros he'. destruct (symbol v); intros [= <-].
      by apply (registered_evolves sa), Hha. }
  destruct Hb as (Hinvb & Hevb & Hhb).
  apply (canonical_post_trans sa sb s1 c Hinva Hinvb Hevb).
  assert (Hrb : Forall (registered sb) xs).
  { by apply (Forall_registered_evolves sa). }
  assert (Hsb : Forall (stable sb) xs).
  { apply (Forall_stable_evolves sa); [apply Hinva | done..]. }
  clear Hhead Hha Hrxs Hsxs Hevb Hinva sa h.
  destruct h' as [hname | he].
  2: { eapply new_BoxedFunction_good;
       [exact Hinvb | exact Hrb | exact Hhb | intros n [=] | exact Hmk]. }
  assert (Hnew : forall def,
             new_BoxedFunction (HName hname) xs true def sb = Some (c, s1) ->
             canonical_post sb s1 c).
  { intros def. apply new_BoxedFunction_good; [done | done | intros he [=] | done]. }
  apply bind_Some in Hmk as (ce & sb' & Hget & Hmk).
  injection Hget as <- <-.
  destruct (context sb) as [|frame parent] eqn:Hctx; [by apply (Hnew None)|].
  destruct (lookupFunction hname (frame :: parent)) as [def|]; [|by apply (Hnew None)].
  clear Hnew Hhb.
  (* the operands of an associative function *)
  assert (Hok : operands_ok sb hname
                  (if associative def then flattened xs hname else xs)).
  { destruct (associative def); [|by split].
    by apply flattened_good. }
  revert Hok Hmk. generalize (if associative def then flattened xs hname else xs).
  clear Hrb Hsb xs. intros xs Hok Hmk.
  (* the scope and the signature *)
  apply bind_Some in Hmk as (u & sc & Hpush & Hmk).
  destruct (scope_step_good _ pushScope sb u sc (or_introl eq_refl) Hpush Hinvb)
    as [Hinvc Hevc].
  apply (canonical_post_trans sb sc s1 c Hinvb Hinvc Hevc).
  apply (operands_ok_evolves sb sc hname xs Hinvb Hinvc Hevc) in Hok.
  apply bind_Some in Hmk as (v & sd & Hval & Hmk).
  destruct (wb_validateSignature Hwb (signature def) xs sc v sd Hinvc (proj1 Hok) Hval)
    as [(Hinvd & Hevd & Hrv) Hsv].
  apply (canonical_post_trans sc sd s1 c Hinvc Hinvd Hevd).
  assert (Hokd : operands_ok sd hname (default xs v)).
  { destruct v as [zs|]; simpl in *.
    - split; [done|]. intros Hn. apply Hsv. by apply Hok.
    - by apply (operands_ok_evolves sc sd). }
  revert Hokd Hmk. generalize (default xs v).
  clear Hok Hval Hrv Hsv Hevd Hevc Hpush Hinvc Hinvb Hctx xs v. intros xs Hok Hmk.
  apply bind_Some in Hmk as (ce & sd' & Hget & Hmk).
  injection Hget as <- <-.
  destruct (forallb (isValid sd) xs) eqn:Hvalid; simpl negb in Hmk; cbv iota in Hmk.
  2: { (* an operand is not valid *)
    apply bind_Some in Hmk as (u' & se & Hpop & Hmk).
    destruct (scope_step_good _ popScope sd u' se (or_intror eq_refl) Hpop Hinvd)
      as [Hinve Heve].
    apply (canonical_post_trans sd se s1 c Hinvd Hinve Heve).
    apply (operands_ok_evolves sd se hname xs Hinvd Hinve Heve) in Hok.
    destruct Hok as [Hr Hs].
    apply (new_BoxedFunction_good se (HName hname) xs (Some def) c s1 Hinve Hr);
      [intros he [=] | intros n [= <-]; exact Hs | exact Hmk]. }
  destruct (sig_canonical (signature def)) as [handler|] eqn:Hsig.
  { (* the handler of the definition *)
    destruct (wb_canonical_handler Hwb def handler xs sd c s1 Hsig Hinvd (proj1 Hok) Hmk)
      as [(Hinv1 & Hev1 & Hr1) Hs1].
    apply Forall_inv in Hr1. split; [done|]. split; [done|]. split; done. }
  (* the generic rules *)
  pose proof (apply_idempotent_involution_good sd def hname xs Hinvd
                (wb_nothing Hwb) Hok Hvalid) as Hrules.
  destruct (apply_idempotent_involution def hname xs) as [[r | ys]|];
    [| |discriminate].
  { injection Hmk as <- <-. destruct Hrules as [Hr Hs].
    split; [done|]. split; [apply evolves_refl | done]. }
  assert (Hsorted : operands_ok sd hname
            (if (1 <? length ys)%nat && commutative def then sort order ys else ys)).
  { destruct ((1 <? length ys)%nat && commutative def); [|done].
    destruct Hrules as [Hr Hs]. split.
    - by rewrite sort_Permutation.
    - intros Hn. rewrite sort_Permutation. by apply Hs. }
  revert Hsorted Hmk.
  generalize (if (1 <? length ys)%nat && commutative def then sort order ys else ys).
  clear Hrules Hvalid Hok. intros zs Hok Hmk.
  apply bind_Some in Hmk as (u' & se & Hpop & Hmk).
  destruct (scope_step_good _ popScope sd u' se (or_intror eq_refl) Hpop Hinvd)
    as [Hinve Heve].
  apply (canonical_post_trans sd se s1 c Hinvd Hinve Heve).
  apply (operands_ok_evolves sd se hname zs Hinvd Hinve Heve) in Hok.
  destruct Hok as [Hr Hs].
  apply (new_BoxedFunction_good se (HName hname) zs (Some def) c s1 Hinve Hr);
    [intros he [=] | intros n [= <-]; exact Hs | exact Hmk].
Qed.

(** ** The accessor *)

(** The accessor of a function, [get canonical()]. *)
Lemma canonical_function oid h xs d s :
  canonical (BoxedFunction oid h xs d) s =
  match _canonical s !! oid with
  | Some c => Some (c, s)
  | None =>
      if isValid s (BoxedFunction oid h xs d) then
        match makeCanonicalFunction_with canonical h xs s with
        | Some (c, s') => Some (c, set_canonical oid c s')
        | None => None
        end
      else Some (BoxedFunction oid h xs d,
                 set_canonical oid (BoxedFunction oid h xs d) s)
  end.
Proof. reflexivity. Qed.

Lemma canonical_function_good oid h xs d :
  well_behaved ->
  Forall (fun x => forall s c s1,
            engine_invariant s -> registered s x ->
            canonical x s = Some (c, s1) -> canonical_post s s1 c) xs ->
  forall s c s1,
    engine_invariant s -> registered s (BoxedFunction oid h xs d) ->
    canonical (BoxedFunction oid h xs d) s = Some (c, s1) ->
    canonical_post s s1 c.
Proof.
  intros Hwb IH s c s1 Hinv He Hcan.
  rewrite canonical_function in Hcan.
  set (e := BoxedFunction oid h xs d) in *.
  assert (Hobj : objects s !! oid = Some e) by exact He.
  destruct (_canonical s !! oid) as [c0|] eqn:Hcache.
  { injection Hcan as <- <-. split; [done|]. split; [apply evolves_refl|]. split.
    - apply (reg_canonical s (proj1 Hinv) oid), Hcache.
    - apply (can_stable s (proj2 Hinv) oid), Hcache. }
  destruct (isValid s e) eqn:Hvalid.
  - destruct (makeCanonicalFunction_with canonical h xs s) as [[c' s']|] eqn:Hmk;
      [|discriminate].
    injection Hcan as <- <-.
    assert (Hpost : canonical_post s s' c').
    { apply (makeCanonicalFunction_with_good canonical h xs s c' s' Hwb IH Hinv);
        [| | done].
      - pose proof (reg_children s (proj1 Hinv) _ _ Hobj) as Hch.
        unfold e in Hch. simpl in Hch.
        destruct h; [done | by apply Forall_cons in Hch as [_ ?]].
      - intros he ->.
        pose proof (reg_children s (proj1 Hinv) _ _ Hobj) as Hch.
        unfold e in Hch. simpl in Hch. by apply Forall_cons in Hch as [? _]. }
    destruct Hpost as (Hinv' & Hev & Hr & Hs).
    apply (canonical_post_trans s s' _ c' Hinv Hinv' Hev).
    assert (Hvalid' : isValid s' e = true).
    { by rewrite (isValid_permanent s s' e (proj1 Hinv) (proj1 Hinv') Hev He). }
    assert (Hnot : _canonical s' !! oid <> Some e).
    { intros Hself.
      assert (Hnone : _canonical s !! oid <> Some e) by congruence.
      pose proof (ev_flag s s' Hev oid e Hobj Hnone Hself). congruence. }
    apply (set_canonical_good s' oid e c' Hinv' (ev_objects s s' Hev _ _ Hobj) Hr Hs).
    + intros Hself. by destruct Hnot.
    + intros -> _. destruct Hs as [Hself | [_ Hinvalid]]; [by destruct Hnot | done].
    + done.
  - injection Hcan as <- <-.
    apply (set_canonical_good s oid e e Hinv Hobj He); [by right | done | done |].
    intros Hne. by destruct Hne.
Qed.

Lemma canonical_good :
  well_behaved ->
  forall e s c s1,
    engine_invariant s -> registered s e ->
    canonical e s = Some (c, s1) -> canonical_post s s1 c.
Proof.
  intros Hwb e.
  induction e as [oid a | oid n xs d IH | oid h xs d _ IH]
    using BoxedExpression_ind.
  - intros s c s1 Hinv He Hcan. simpl in Hcan.
    destruct (wb_atom_canonical Hwb oid a s c s1 Hinv He Hcan)
      as [(Hinv' & Hev & Hr) Hs].
    apply Forall_inv in Hr. split; [done|]. split; [done|]. split; done.
  - by apply canonical_function_good.
  - by apply canonical_function_good.
Qed.

(** The accessor of a stable expression returns the expression. *)
Lemma canonical_of_stable s c :
  well_behaved -> stable s c -> exists s', canonical c s = Some (c, s').
Proof.
  intros Hwb Hs. destruct c as [k h xs d | k a].
  - rewrite canonical_function. destruct Hs as [-> | [-> ->]]; eauto.
  - simpl. exists s. by apply (wb_atom_fixed Hwb).
Qed.

(** C2 -- The canonical form of an expression is its own canonical form:
    when the [canonical] accessor of [e] returns [c], the accessor of [c]
    returns [c], the same object.  The accessor of an expression that is
    already canonical returns the expression itself, and leaves the engine
    as it is.  The expressions are those of an engine whose objects
    satisfy the representation invariant, with handlers and leaves that
    keep their contract. *)
Theorem canonical_is_idempotent e s c s1 :
  well_behaved ->
  engine_invariant s -> registered s e ->
  canonical e s = Some (c, s1) ->
  (exists s2, canonical c s1 = Some (c, s2)) /\
  (isCanonical s e = true -> c = e /\ s1 = s).
Proof.
  intros Hwb Hinv He Hcan. split.
  - destruct (canonical_good Hwb e s c s1 Hinv He Hcan) as (_ & _ & _ & Hs).
    by apply canonical_of_stable.
  - intros Hflag. destruct e as [k h xs d | k a].
    + apply isCanonical_self in Hflag; [| apply Hinv | done].
      rewrite canonical_function, Hflag in Hcan. by injection Hcan as <- <-.
    + simpl in Hflag, Hcan. rewrite (wb_atom_fixed Hwb k a s Hflag) in Hcan.
      by injection Hcan as <- <-.
Qed.

End Canonical.

Section CanonicalExample.
#[local] Existing Instance Example.library.

(** The example library keeps the contract: its leaves are canonical, its
    definitions have no [canonical] handler, its signatures accept every
    operand list. *)
Lemma Example_well_behaved : well_behaved.
Proof.
  split.
  - intros k a s c s' Hinv Hreg [= <- <-].
    split; [|reflexivity].
    split; [done|]. split; [apply evolves_refl | by constructor].
  - reflexivity.
  - reflexivity.
  - intros e s v s' Hinv Hreg [= <- <-].
    split; [done|]. split; [apply evolves_refl | constructor].
  - intros sig xs s v s' Hinv Hreg [= <- <-]. split.
    + split; [done|]. split; [apply evolves_refl | constructor].
    + intros _. constructor.
  - intros def handler xs s c s' Hsig. exfalso. revert Hsig.
    simpl. unfold Example.handlers.
    destruct (String.eqb (name def) "Sqrt"); [discriminate|].
    destruct (String.eqb (name def) "Big"); discriminate.
Qed.

Lemma Example_engine_unsorted_invariant : engine_invariant Example.engine_unsorted.
Proof.
  split; split.
  - intros k x Hx. simpl in Hx. each_object Hx; simpl; split; (reflexivity || lia).
  - intros k x Hx. simpl in Hx. each_object Hx; simpl; repeat constructor.
  - reflexivity.
  - intros k c Hc. simpl in Hc. discriminate.
  - intros k c Hc. simpl in Hc. discriminate.
  - intros k c x Hc. simpl in Hc. discriminate.
  - intros k n xs d _ Hc. simpl in Hc. discriminate.
Qed.

Lemma Example_engine_product_invariant : engine_invariant Example.engine_product.
Proof.
  split; split.
  - intros k x Hx. simpl in Hx. each_object Hx; simpl; split; (reflexivity || lia).
  - intros k x Hx. simpl in Hx. each_object Hx; simpl; repeat constructor.
  - reflexivity.
  - intros k c Hc. simpl in Hc. each_object Hc. reflexivity.
  - intros k c Hc. simpl in Hc. each_object Hc. left. reflexivity.
  - intros k c x Hc Hx Hne. simpl in Hc, Hx. each_object Hc.
    rewrite lookup_insert_eq in Hx. congruence.
  - intros k n xs d Hx Hc. simpl in Hc.
    apply lookup_insert_Some in Hc as [[<- Heq] | [_ Hc]];
      [| by rewrite lookup_empty in Hc].
    unfold Example.product in Heq. injection Heq as <- <- <-.
    intros _. repeat constructor.
Qed.

(** The canonical form of the unsorted product [x * 2] is a new object,
    the product [2 * x]; it is its own canonical form. *)
Lemma canonical_unsorted_example :
  exists s1 s2,
    canonical Example.unsorted Example.engine_unsorted
    = Some (BoxedFunction 100 (HName "Multiply") [Example.two; Example.x]
              (Some Example.Multiply_def), s1) /\
    canonical (BoxedFunction 100 (HName "Multiply") [Example.two; Example.x]
                 (Some Example.Multiply_def)) s1
    = Some (BoxedFunction 100 (HName "Multiply") [Example.two; Example.x]
              (Some Example.Multiply_def), s2).
Proof. eexists. eexists. split; vm_compute; reflexivity. Qed.

(** The invariant is needed.  When an object is constructed with
    [canonical: true] on an operand that is not canonical, which
    [makeCanonicalFunction] never does, the involution [f(f(x)) -> x]
    returns that operand as the canonical form, and the accessor of the
    operand returns another object. *)
Lemma canonical_needs_the_invariant :
  exists s1 s2,
    canonical Example.outer Example.engine_flagged = Some (Example.inner_sum, s1) /\
    canonical Example.inner_sum s1
    = Some (BoxedFunction 100 (HName "Add") [Example.x] (Some Example.Add_def), s2) /\
    stable Example.engine_flagged Example.flagged /\
    ~ Forall (stable Example.engine_flagged) [Example.inner_sum].
Proof.
  eexists. eexists.
  split; [vm_compute; reflexivity|]. split; [vm_compute; reflexivity|].
  split; [left; reflexivity|].
  intros Hs. apply Forall_inv in Hs. destruct Hs as [Hs | [_ Hs]]; discriminate.
Qed.

Lemma canonical_is_idempotent_witness :
  (exists c s1,
      canonical Example.unsorted Example.engine_unsorted = Some (c, s1) /\
      exists s2, canonical c s1 = Some (c, s2)) /\
  (exists s2, canonical Example.product Example.engine_product
              = Some (Example.product, s2)).
Proof.
  split.
  - eexists. eexists. split; [vm_compute; reflexivity|].
    refine (proj1 (@canonical_is_idempotent Example.library
                     Example.unsorted Example.engine_unsorted _ _
                     Example_well_behaved Example_engine_unsorted_invariant _ _)).
    + reflexivity.
    + vm_compute. reflexivity.
  - refine (proj1 (@canonical_is_idempotent Example.library
                     Example.product Example.engine_product
                     Example.product Example.engine_product
                     Example_well_behaved Example_engine_product_invariant _ _)).
    + reflexivity.
    + reflexivity.
Defined.

End CanonicalExample.

(* ================================================================== *)
(** * flattenSequence *)
(* ================================================================== *)

Section FlattenSequence.

(** X1 -- The elements of [flattenSequence(xs)] are the elements of [xs]
    that are not a [Sequence], and the operands of the elements of [xs]
    that are one: a [Sequence] is replaced by its operands, one level
    deep, and nothing else is added or lost. *)
Theorem flattenSequence_elements xs y :
  y ∈ flattenSequence xs <->
  (y ∈ xs /\ head_is (head y) "Sequence" = false) \/
  (exists x, x ∈ xs /\ head_is (head x) "Sequence" = true /\
             y ∈ default [] (ops x)).
Proof.
  induction xs as [|x xs IH]; simpl.
  - split; [by intros ?%elem_of_nil|].
    intros [[?%elem_of_nil _] | (x & ?%elem_of_nil & _)]; done.
  - destruct (head_is (head x) "Sequence") eqn:Hx.
    + assert (Hsplit : y ∈ default [] (ops x) ++ flattenSequence xs <->
                       y ∈ match ops x with
                           | Some o => o ++ flattenSequence xs
                           | None => flattenSequence xs
                           end).
      { by destruct (ops x). }
      rewrite <- Hsplit, elem_of_app, IH. clear Hsplit. split.
      * intros [Hy | [[Hy Hn] | (x' & Hx' & Hs & Hy)]].
        -- right. exists x. split; [by left | done].
        -- left. split; [by right | done].
        -- right. exists x'. split; [by right | done].
      * intros [[Hy Hn] | (x' & Hx' & Hs & Hy)].
        -- apply elem_of_cons in Hy as [-> | Hy]; [congruence|].
           right. left. done.
        -- apply elem_of_cons in Hx' as [-> | Hx']; [by left|].
           right. right. exists x'. done.
    + rewrite elem_of_cons, IH. split.
      * intros [-> | [[Hy Hn] | (x' & Hx' & Hs & Hy)]].
        -- left. split; [by left | done].
        -- left. split; [by right | done].
        -- right. exists x'. split; [by right | done].
      * intros [[Hy Hn] | (x' & Hx' & Hs & Hy)].
        -- apply elem_of_cons in Hy as [-> | Hy]; [by left|].
           right. left. done.
        -- apply elem_of_cons in Hx' as [-> | Hx']; [congruence|].
           right. right. exists x'. done.
Qed.

(** X2 -- [flattenSequence] works operand by operand: the result for a
    concatenation is the concatenation of the results; a list without a
    [Sequence] is returned as it is. *)
Theorem flattenSequence_app_and_identity xs ys :
  flattenSequence (xs ++ ys) = flattenSequence xs ++ flattenSequence ys /\
  (Forall (fun x => head_is (head x) "Sequence" = false) xs ->
   flattenSequence xs = xs).
Proof.
  split.
  - induction xs as [|x xs IH]; simpl; [reflexivity|].
    rewrite IH. destruct (head_is (head x) "Sequence"); [|reflexivity].
    destruct (ops x); [by rewrite app_assoc | reflexivity].
  - induction 1 as [|x xs Hx _ IH]; simpl; [reflexivity|].
    by rewrite Hx, IH.
Qed.

End FlattenSequence.

Section FlattenSequenceExample.

Lemma flattenSequence_app_and_identity_witness :
  flattenSequence ([Example.x; Example.two] ++ [Example.y])
  = flattenSequence [Example.x; Example.two] ++ flattenSequence [Example.y] /\
  flattenSequence [Example.x; Example.two] = [Example.x; Example.two].
Proof.
  destruct (flattenSequence_app_and_identity [Example.x; Example.two] [Example.y])
    as [Happ Hid].
  split; [exact Happ|]. apply Hid. repeat constructor.
Defined.

End FlattenSequenceExample.

(* ================================================================== *)
(** * holdMap, canonicalHoldMap and normalizeList *)
(* ================================================================== *)

Section HoldMapMore.
Context `{Library}.

Lemma push_unless_null_length result r :
  (length (push_unless_null result r) <= S (length result))%nat.
Proof. destruct r; simpl; [rewrite length_app; simpl|]; lia. Qed.

Lemma holdMap_loop_length skip count f rest :
  forall i result s rs s',
    holdMap_loop skip count f i rest result s = Some (rs, s') ->
    (length rs <= length result + length rest)%nat.
Proof.
  induction rest as [|x rest IH]; intros i result s rs s' Hloop; simpl in Hloop.
  - injection Hloop as <- <-. simpl. lia.
  - destruct (head_is (head x) "Hold").
    { apply IH in Hloop. rewrite length_app in Hloop. simpl in *. lia. }
    destruct (head_is (head x) "ReleaseHold").
    { apply bind_Some in Hloop as (r & s1 & _ & Hloop). apply IH in Hloop.
      pose proof (push_unless_null_length result r). simpl. lia. }
    destruct (applicable skip count i).
    { apply bind_Some in Hloop as (r & s1 & _ & Hloop). apply IH in Hloop.
      pose proof (push_unless_null_length result r). simpl. lia. }
    apply IH in Hloop. rewrite length_app in Hloop. simpl in *. lia.
Qed.

(** X3 -- [holdMap] never adds an operand: for a function that is not
    associative, the result has at most as many operands as the list it
    was given, whatever the policy and the callback (an operand is kept,
    replaced by one expression, or dropped). *)
Theorem holdMap_never_adds_operands h xs skip f s rs s' :
  holdMap h xs skip false f s = Some (rs, s') ->
  (length rs <= length xs)%nat.
Proof.
  unfold holdMap. destruct xs as [|x xs].
  - intros [= <- <-]. simpl. lia.
  - cbv zeta. intros Hmap. apply bind_Some in Hmap as (rs' & s1 & Hloop & Hret).
    injection Hret as <- <-.
    apply holdMap_loop_length in Hloop. simpl in *. lia.
Qed.

Lemma holdMap_loop_all_held count f rest :
  Forall (fun x => head_is (head x) "Hold" = false /\
                   head_is (head x) "ReleaseHold" = false) rest ->
  forall i result s,
    holdMap_loop HoldAll count f i rest result s = Some (result ++ rest, s).
Proof.
  induction 1 as [|x rest [Hh Hr] _ IH]; intros i result s; simpl.
  - by rewrite app_nil_r.
  - rewrite Hh, Hr, IH. by rewrite <- app_assoc.
Qed.

(** X4 -- With the policy [all], [holdMap] applies the callback to no
    operand but those under [ReleaseHold]: when no operand is a [Hold] or
    a [ReleaseHold], the operands of a function that is not associative
    are returned as they are and the callback is not called (the engine is
    left as it is, whatever the callback does). *)
Theorem holdMap_all_keeps_the_operands h xs f s :
  Forall (fun x => head_is (head x) "Hold" = false /\
                   head_is (head x) "ReleaseHold" = false) xs ->
  holdMap h xs HoldAll false f s = Some (xs, s).
Proof.
  intros Hxs. unfold holdMap. destruct xs as [|x xs]; [reflexivity|].
  cbv zeta. unfold bind. by rewrite holdMap_loop_all_held.
Qed.

Lemma holdMap_loop_none_mapM count g rest :
  Forall (fun x => head_is (head x) "Hold" = false /\
                   head_is (head x) "ReleaseHold" = false) rest ->
  forall i result s,
    holdMap_loop HoldNone count (never_null g) i rest result s =
    bind (mapM g rest) (fun rs => ret (result ++ rs)) s.
Proof.
  induction 1 as [|x rest [Hh Hr] _ IH]; intros i result s.
  - simpl. unfold bind, ret. simpl. by rewrite app_nil_r.
  - cbn [holdMap_loop mapM applicable]. rewrite Hh, Hr.
    unfold never_null. rewrite !bind_assoc. apply bind_ext. intros y s1.
    rewrite bind_ret_l. cbn [push_unless_null].
    rewrite IH, bind_assoc. apply bind_ext. intros rs s2.
    rewrite bind_ret_l. unfold ret. by rewrite <- app_assoc.
Qed.

(** X23 -- With the policy [none], which [simplify], [evaluate] and [N]
    use for a function without a definition, [holdMap] maps every
    operand: when no operand is a [Hold] or a [ReleaseHold], the result
    is the list of the results of the callback, in the order of the
    operands, with the effects of the callback in that order. *)
Theorem holdMap_none_maps_every_operand h xs g s :
  Forall (fun x => head_is (head x) "Hold" = false /\
                   head_is (head x) "ReleaseHold" = false) xs ->
  holdMap h xs HoldNone false (never_null g) s = mapM g xs s.
Proof.
  intros Hxs. unfold holdMap. destruct xs as [|x xs]; [reflexivity|].
  cbv zeta. unfold bind at 1. rewrite holdMap_loop_none_mapM by done.
  unfold bind. destruct (mapM g (x :: xs) s) as [[rs s1]|]; reflexivity.
Qed.

Lemma canonicalHoldMap_loop_mapM skip count rest :
  forall i result s,
    canonicalHoldMap_loop skip count i rest result s =
    bind (mapM canonical rest) (fun rs => ret (result ++ rs)) s.
Proof.
  induction rest as [|x rest IH]; intros i result s.
  - simpl. unfold bind, ret. simpl. by rewrite app_nil_r.
  - cbn [canonicalHoldMap_loop mapM].
    assert (Hboth :
      bind (canonical x)
        (fun c => canonicalHoldMap_loop skip count (S i) rest (result ++ [c])) s =
      bind (bind (canonical x)
              (fun y => bind (mapM canonical rest) (fun ys => ret (y :: ys))))
        (fun rs => ret (result ++ rs)) s).
    { rewrite bind_assoc. apply bind_ext. intros c s1.
      rewrite IH, bind_assoc. apply bind_ext. intros rs s2.
      rewrite bind_ret_l. unfold ret. by rewrite <- app_assoc. }
    destruct (_ || _ || _); exact Hboth.
Qed.

(** X5 -- In [canonicalHoldMap] the hold policy has no effect: whatever
    the policy and whether an operand is a [Hold] or a [ReleaseHold],
    every operand is replaced by its canonical form, from left to right
    (after and before the flattening, when the function is associative). *)
Theorem canonicalHoldMap_ignores_the_policy h xs skip assoc s :
  canonicalHoldMap h xs skip assoc s =
  bind (mapM canonical (if assoc then flattened xs h else xs))
    (fun rs => ret (if assoc then flattened rs h else rs)) s.
Proof.
  unfold canonicalHoldMap. destruct xs as [|x xs].
  - destruct assoc; reflexivity.
  - cbv zeta. unfold bind at 1. rewrite canonicalHoldMap_loop_mapM.
    unfold bind.
    destruct (mapM canonical _ s) as [[rs s1]|]; [|reflexivity].
    simpl. by destruct assoc.
Qed.



End HoldMapMore.

Section HoldMapMoreExample.
#[local] Existing Instance Example.library.

Lemma holdMap_never_adds_operands_witness :
  (length [Example.x] <= length [Example.x; Example.two])%nat.
Proof.
  apply (holdMap_never_adds_operands "Add"
           [Example.x; Example.two] HoldNone
           (fun e => ret (if same_object e Example.two then None else Some e))
           Example.engine [Example.x] Example.engine).
  reflexivity.
Defined.

Lemma holdMap_all_keeps_the_operands_witness :
  holdMap "Add" [Example.x; Example.two] HoldAll false (fun _ => diverge)
    Example.engine
  = Some ([Example.x; Example.two], Example.engine).
Proof.
  apply holdMap_all_keeps_the_operands.
  repeat constructor.
Defined.

Lemma holdMap_none_maps_every_operand_witness :
  holdMap "" [Example.x; Example.two] HoldNone false
    (never_null (evaluate 1)) Example.engine
  = mapM (evaluate 1) [Example.x; Example.two] Example.engine.
Proof.
  apply holdMap_none_maps_every_operand. repeat constructor.
Defined.


End HoldMapMoreExample.

(* ================================================================== *)
(** * isSame: structural equality *)
(* ================================================================== *)

Section IsSame.
Context `{Library}.

(** The loop of [isSame] over the operands: every operand of the left
    list is the same as the operand of the right list at its position. *)
Lemma isSame_each (rhsTail l : list BoxedExpression) :
  forall i,
    (fix each (l : list BoxedExpression) (i : nat) : bool :=
       match l with
       | [] => true
       | x :: l' =>
           match rhsTail !! i with
           | Some y => if isSame x y then each l' (S i) else false
           | None => false
           end
       end) l i = true <->
    (forall j x, l !! j = Some x ->
                 exists y, rhsTail !! (i + j)%nat = Some y /\ isSame x y = true).
Proof.
  induction l as [|x l IH]; intros i.
  - split; [intros _ j x [=] | reflexivity].
  - destruct (rhsTail !! i) as [y|] eqn:Hy.
    + destruct (isSame x y) eqn:Hxy.
      * rewrite IH. split.
        -- intros Hrest [|j] x' Hx'; simpl in Hx'.
           ++ injection Hx' as <-. exists y. by rewrite Nat.add_0_r.
           ++ replace (i + S j)%nat with (S i + j)%nat by lia. by apply Hrest.
        -- intros Hall j x' Hx'.
           replace (S i + j)%nat with (i + S j)%nat by lia. by apply Hall.
      * split; [discriminate|]. intros Hall.
        destruct (Hall 0%nat x eq_refl) as (y' & Hy' & Hsame).
        rewrite Nat.add_0_r in Hy'. congruence.
    + split; [discriminate|]. intros Hall.
      destruct (Hall 0%nat x eq_refl) as (y' & Hy' & _).
      rewrite Nat.add_0_r in Hy'. congruence.
Qed.

(** [isSame] of two functions, unfolded. *)
Lemma isSame_functions oid h xs d oid' h' ys d' :
  isSame (BoxedFunction oid h xs d) (BoxedFunction oid' h' ys d') = true <->
  oid = oid' \/
  (length xs = length ys /\
   match h, h' with
   | HName n, HName n' => n = n'
   | HExpr he, HExpr he' => isSame he he' = true
   | _, _ => False
   end /\
   Forall2 (fun x y => isSame x y = true) xs ys).
Proof.
  cbn [isSame]. unfold same_object. cbn [oid_of].
  destruct (Nat.eqb_spec oid oid') as [->|Hoid]; [by split; [left|]|].
  destruct (Nat.eqb_spec (length xs) (length ys)) as [Hlen|Hlen]; cbn [negb].
  2: { split; [discriminate | intros [? | (? & _)]; done]. }
  assert (Hheads :
    match h with
    | HName n => negb (head_differs n (BoxedFunction oid' h' ys d'))
    | HExpr he => match h' with HName _ => false | HExpr rhe => isSame he rhe end
    end = true <->
    match h, h' with
    | HName n, HName n' => n = n'
    | HExpr he, HExpr he' => isSame he he' = true
    | _, _ => False
    end).
  { destruct h as [n|he], h' as [n'|he']; unfold head_differs; simpl;
      rewrite ?negb_involutive; try done.
    rewrite String.eqb_eq. split; congruence. }
  destruct (match h with HName _ => _ | HExpr _ => _ end) eqn:Hh; cbn [negb].
  2: { split; [discriminate|]. intros [? | (_ & Hhd & _)]; [done|].
       apply Hheads in Hhd. discriminate. }
  rewrite isSame_each. split.
  - intros Hall. right. split; [done|]. split; [by apply Hheads|].
    apply Forall2_same_length_lookup. split; [done|].
    intros j x y Hx Hy. destruct (Hall j x Hx) as (y' & Hy' & Hsame).
    simpl in Hy'. congruence.
  - intros [? | (_ & _ & Hall)]; [done|].
    intros j x Hx. destruct (Forall2_lookup_l _ _ _ _ _ Hall Hx) as (y & Hy & Hsame).
    exists y. done.
Qed.

(** Two registered objects with the same identity are one object. *)
Lemma registered_same_object s a b :
  registered s a -> registered s b -> same_object a b = true -> a = b.
Proof.
  unfold registered, same_object. intros Ha Hb Hoid%Nat.eqb_eq.
  rewrite Hoid in Ha. congruence.
Qed.

Lemma isSame_function_atom s oid h xs d k a :
  registered s (BoxedFunction oid h xs d) -> registered s (BoxedAtom k a) ->
  isSame (BoxedFunction oid h xs d) (BoxedAtom k a) = false.
Proof.
  intros Hf Ha. cbn [isSame].
  destruct (same_object _ _) eqn:Hsame; [|reflexivity].
  by apply (registered_same_object s _ _ Hf Ha) in Hsame.
Qed.

Lemma isSame_symmetric_functions s oid h xs d oid' h' ys d' :
  registry_ok s ->
  registered s (BoxedFunction oid h xs d) ->
  registered s (BoxedFunction oid' h' ys d') ->
  match h with
  | HExpr he => forall b, registered s he -> registered s b ->
                          isSame he b = isSame b he
  | HName _ => True
  end ->
  Forall (fun x => forall b, registered s x -> registered s b ->
                             isSame x b = isSame b x) xs ->
  isSame (BoxedFunction oid h xs d) (BoxedFunction oid' h' ys d')
  = isSame (BoxedFunction oid' h' ys d') (BoxedFunction oid h xs d).
Proof.
  intros Hreg Ha Hb IHh IH.
  pose proof (reg_children s Hreg _ _ Ha) as Hca.
  pose proof (reg_children s Hreg _ _ Hb) as Hcb.
  apply Bool.eq_iff_eq_true. rewrite !isSame_functions.
  assert (Hxs : Forall (registered s) xs).
  { destruct h; simpl in Hca; [done | by apply Forall_cons in Hca as [_ ?]]. }
  assert (Hys : Forall (registered s) ys).
  { destruct h'; simpl in Hcb; [done | by apply Forall_cons in Hcb as [_ ?]]. }
  assert (Hops : Forall2 (fun x y => isSame x y = true) xs ys <->
                 Forall2 (fun x y => isSame x y = true) ys xs).
  { rewrite !Forall2_same_length_lookup.
    rewrite Forall_forall in IH. rewrite Forall_forall in Hxs, Hys.
    split; intros [Hlen Hall]; (split; [done|]); intros j x y Hx Hy.
    - rewrite <- (IH y); eauto using list_elem_of_lookup_2.
    - rewrite (IH x); eauto using list_elem_of_lookup_2. }
  assert (Hheads :
    match h, h' with
    | HName n, HName n' => n = n'
    | HExpr he, HExpr he' => isSame he he' = true
    | _, _ => False
    end <->
    match h', h with
    | HName n, HName n' => n = n'
    | HExpr he, HExpr he' => isSame he he' = true
    | _, _ => False
    end).
  { destruct h as [n|he], h' as [n'|he']; try done.
    simpl in Hca, Hcb.
    apply Forall_cons in Hca as [Hhe _]. apply Forall_cons in Hcb as [Hhe' _].
    by rewrite (IHh he'). }
  rewrite Hops, Hheads. split; intros [-> | (Hlen & ? & ?)]; auto.
Qed.

(** X7 -- [isSame] is symmetric: for two expressions of an engine,
    [a.isSame(b)] and [b.isSame(a)] agree, provided the leaf classes'
    [isSame] is symmetric and never holds between a leaf and a
    function. *)
Theorem isSame_symmetric s a b :
  same_leaves ->
  registry_ok s -> registered s a -> registered s b ->
  isSame a b = isSame b a.
Proof.
  intros [leaf_function leaf_symmetric _] Hreg. revert b.
  induction a as [oid at_ | oid n xs d IH | oid he xs d IHh IH]
    using BoxedExpression_ind; intros b Ha Hb.
  - destruct b as [oid' h' ys d' | oid' at'].
    + rewrite (isSame_function_atom s) by done. apply leaf_function.
    + apply leaf_symmetric.
  - destruct b as [oid' h' ys d' | oid' at'].
    + by apply (isSame_symmetric_functions s).
    + rewrite (isSame_function_atom s) by done. symmetry. apply leaf_function.
  - destruct b as [oid' h' ys d' | oid' at'].
    + by apply (isSame_symmetric_functions s).
    + rewrite (isSame_function_atom s) by done. symmetry. apply leaf_function.
Qed.

Lemma registered_operands s oid h xs d :
  registry_ok s -> registered s (BoxedFunction oid h xs d) ->
  Forall (registered s) xs /\
  match h with HExpr he => registered s he | HName _ => True end.
Proof.
  intros Hreg Ha. pose proof (reg_children s Hreg _ _ Ha) as Hc.
  destruct h; simpl in Hc; [done|]. by apply Forall_cons in Hc as [? ?].
Qed.

Lemma isSame_transitive_functions s oid h xs d oid' h' ys d' oid'' h'' zs d'' :
  registry_ok s ->
  registered s (BoxedFunction oid h xs d) ->
  registered s (BoxedFunction oid' h' ys d') ->
  registered s (BoxedFunction oid'' h'' zs d'') ->
  match h with
  | HExpr he => forall b c, registered s he -> registered s b -> registered s c ->
                            isSame he b = true -> isSame b c = true ->
                            isSame he c = true
  | HName _ => True
  end ->
  Forall (fun x => forall b c, registered s x -> registered s b -> registered s c ->
                               isSame x b = true -> isSame b c = true ->
                               isSame x c = true) xs ->
  isSame (BoxedFunction oid h xs d) (BoxedFunction oid' h' ys d') = true ->
  isSame (BoxedFunction oid' h' ys d') (BoxedFunction oid'' h'' zs d'') = true ->
  isSame (BoxedFunction oid h xs d) (BoxedFunction oid'' h'' zs d'') = true.
Proof.
  intros Hreg Ha Hb Hc IHh IH Hab Hbc.
  destruct (Nat.eq_dec oid oid') as [Hoid|Hoid].
  { assert (Heq : BoxedFunction oid h xs d = BoxedFunction oid' h' ys d').
    { apply (registered_same_object s); [done..|].
      unfold same_object. simpl. by apply Nat.eqb_eq. }
    by rewrite Heq. }
  destruct (Nat.eq_dec oid' oid'') as [Hoid'|Hoid'].
  { assert (Heq : BoxedFunction oid' h' ys d' = BoxedFunction oid'' h'' zs d'').
    { apply (registered_same_object s); [done..|].
      unfold same_object. simpl. by apply Nat.eqb_eq. }
    by rewrite <- Heq. }
  destruct (registered_operands s _ _ _ _ Hreg Ha) as [Hxs Hh].
  destruct (registered_operands s _ _ _ _ Hreg Hb) as [Hys Hh'].
  destruct (registered_operands s _ _ _ _ Hreg Hc) as [Hzs Hh''].
  apply isSame_functions in Hab as [? | (Hlen & Hheads & Hops)]; [done|].
  apply isSame_functions in Hbc as [? | (Hlen' & Hheads' & Hops')]; [done|].
  apply isSame_functions. right. split; [congruence|]. split.
  - destruct h as [n|he], h' as [n'|he'], h'' as [n''|he'']; try done.
    + congruence.
    + by apply (IHh he' he'').
  - apply Forall2_same_length_lookup. split; [congruence|].
    intros j x z Hx Hz.
    destruct (Forall2_lookup_l _ _ _ _ _ Hops Hx) as (y & Hy & Hxy).
    destruct (Forall2_lookup_l _ _ _ _ _ Hops' Hy) as (z' & Hz' & Hyz).
    assert (z' = z) as -> by congruence.
    rewrite Forall_forall in IH, Hxs, Hys, Hzs.
    apply (IH x (list_elem_of_lookup_2 _ _ _ Hx) y z);
      eauto using list_elem_of_lookup_2.
Qed.

(** X8 -- [isSame] is transitive on the expressions of an engine, under
    the same contract of the leaf classes. *)
Theorem isSame_transitive s a b c :
  same_leaves ->
  registry_ok s -> registered s a -> registered s b -> registered s c ->
  isSame a b = true -> isSame b c = true -> isSame a c = true.
Proof.
  intros [leaf_function leaf_symmetric leaf_transitive] Hreg. revert b c.
  induction a as [oid at_ | oid n xs d IH | oid he xs d IHh IH]
    using BoxedExpression_ind; intros b c Ha Hb Hc Hab Hbc.
  - destruct b as [oid' h' ys d' | oid' at'].
    { simpl in Hab. by rewrite leaf_function in Hab. }
    destruct c as [oid'' h'' zs d'' | oid'' at''].
    { simpl in Hbc. by rewrite leaf_function in Hbc. }
    simpl in *. by apply (leaf_transitive _ _ oid' at').
  - destruct b as [oid' h' ys d' | oid' at'].
    2: { by rewrite (isSame_function_atom s) in Hab. }
    destruct c as [oid'' h'' zs d'' | oid'' at''].
    2: { by rewrite (isSame_function_atom s) in Hbc. }
    by apply (isSame_transitive_functions s _ _ _ _ oid' h' ys d').
  - destruct b as [oid' h' ys d' | oid' at'].
    2: { by rewrite (isSame_function_atom s) in Hab. }
    destruct c as [oid'' h'' zs d'' | oid'' at''].
    2: { by rewrite (isSame_function_atom s) in Hbc. }
    by apply (isSame_transitive_functions s _ _ _ _ oid' h' ys d').
Qed.

End IsSame.

(* ================================================================== *)
(** * has and apply *)
(* ================================================================== *)

Section HasApplyTheorems.
Context `{Library}.
Variable atom_has : nat -> Atom -> NameOrNames -> bool.
Variable atom_apply :
  nat -> Atom -> (BoxedExpression -> M BoxedExpression) -> option string ->
  M BoxedExpression.

(** X9 -- [has] with a list of names is [has] with one of its names: an
    expression has one of the names [l] exactly when it has some name of
    [l], provided the leaves do; with the empty list the answer is
    [false]. *)
Theorem has_names_iff_has_one this l :
  (forall k a l, atom_has k a (Names l) = true <->
                 exists n, n ∈ l /\ atom_has k a (OneName n) = true) ->
  has atom_has this (Names l) = true <->
  exists n, n ∈ l /\ has atom_has this (OneName n) = true.
Proof.
  intros Hleaf.
  induction this as [oid a | oid n xs d IH | oid he xs d _ IH]
    using BoxedExpression_ind.
  - apply Hleaf.
  - cbn [has]. destruct (bool_decide (n ∈ l)) eqn:Hn.
    + apply bool_decide_eq_true in Hn. split; [|done]. intros _.
      exists n. by rewrite String.eqb_refl.
    + apply bool_decide_eq_false in Hn. rewrite existsb_exists. split.
      * intros (x & Hx & Hhas). rewrite Forall_forall in IH.
        apply (IH x) in Hhas as (m & Hm & Hhas); [|by apply list_elem_of_In].
        exists m. split; [done|]. destruct (String.eqb n m); [done|].
        apply existsb_exists. eauto.
      * intros (m & Hm & Hhas).
        destruct (String.eqb_spec n m) as [->|_]; [done|].
        apply existsb_exists in Hhas as (x & Hx & Hhas).
        exists x. split; [done|]. rewrite Forall_forall in IH.
        apply (IH x); [by apply list_elem_of_In | eauto].
  - cbn [has]. rewrite existsb_exists. split.
    + intros (x & Hx & Hhas). rewrite Forall_forall in IH.
      apply (IH x) in Hhas as (m & Hm & Hhas); [|by apply list_elem_of_In].
      exists m. split; [done|]. apply existsb_exists. eauto.
    + intros (m & Hm & Hhas).
      apply existsb_exists in Hhas as (x & Hx & Hhas).
      exists x. split; [done|]. rewrite Forall_forall in IH.
      apply (IH x); [by apply list_elem_of_In | eauto].
Qed.

Lemma apply_loop_mapM f xs :
  forall changed acc s ys s',
    mapM f xs s = Some (ys, s') ->
    apply_loop f xs changed acc s =
    Some ((changed || negb (forallb (fun p => same_object p.1 p.2) (zip xs ys)),
           acc ++ ys), s').
Proof.
  induction xs as [|x xs IH]; intros changed acc s ys s' Hmap; simpl in Hmap.
  - injection Hmap as <- <-. simpl. by rewrite orb_false_r, app_nil_r.
  - apply bind_Some in Hmap as (y & s1 & Hy & Hmap).
    apply bind_Some in Hmap as (ys' & s2 & Hys & Hret).
    injection Hret as <- <-.
    cbn [apply_loop]. unfold bind at 1. rewrite Hy. unfold box. rewrite bind_ret_l.
    rewrite (IH _ _ _ _ _ Hys). simpl.
    rewrite <- app_assoc. simpl.
    by destruct changed, (same_object x y), (forallb _ _).
Qed.

(** X10 -- [apply] makes a new expression only when something changes:
    when the callback returns every operand itself (the same object) and
    no other head is given, [apply] returns the expression itself; when
    it returns another object for some operand, the result is the
    function of the head and the new operands that [ce.fn] makes. *)
Theorem apply_returns_this_when_unchanged oid h xs d f s ys s' :
  mapM f xs s = Some (ys, s') ->
  (Forall2 (fun x y => same_object x y = true) xs ys ->
   apply atom_apply (BoxedFunction oid h xs d) f None s
   = Some (BoxedFunction oid h xs d, s')) /\
  (~ Forall2 (fun x y => same_object x y = true) xs ys ->
   apply atom_apply (BoxedFunction oid h xs d) f None s = fn h ys s').
Proof.
  intros Hmap.
  assert (Hlen : forall (xs ys : list BoxedExpression) s s',
             mapM f xs s = Some (ys, s') -> length xs = length ys).
  { clear. induction xs as [|x xs IH]; intros ys s s' Hmap; simpl in Hmap.
    - by injection Hmap as <- <-.
    - apply bind_Some in Hmap as (y & s1 & Hy & Hmap).
      apply bind_Some in Hmap as (ys' & s2 & Hys & Hret).
      injection Hret as <- <-. simpl. f_equal. eauto. }
  assert (Hsame : forall xs ys : list BoxedExpression,
             length xs = length ys ->
             forallb (fun p => same_object p.1 p.2) (zip xs ys) = true <->
             Forall2 (fun x y => same_object x y = true) xs ys).
  { clear. induction xs as [|x xs IH]; intros [|y ys] Hl; simpl in *; try lia.
    - split; [constructor | done].
    - rewrite andb_true_iff, IH by lia. split.
      + intros [? ?]. by constructor.
      + intros Hall. by inversion Hall. }
  specialize (Hsame xs ys (Hlen _ _ _ _ Hmap)).
  assert (Hhead : head_same h h = true).
  { destruct h; simpl; [apply String.eqb_refl | apply Nat.eqb_refl]. }
  cbn [apply]. unfold bind.
  rewrite (apply_loop_mapM _ _ _ _ _ _ _ Hmap). simpl.
  split; intros Hall.
  - apply Hsame in Hall. rewrite Hall. simpl. by rewrite Hhead.
  - destruct (forallb _ _); [by destruct Hall; apply Hsame | reflexivity].
Qed.

End HasApplyTheorems.

Section StructureExample.
#[local] Existing Instance Example.library.

Lemma Example_same_leaves : same_leaves.
Proof.
  split.
  - reflexivity.
  - intros k a k' a'. simpl. apply Nat.eqb_sym.
  - intros k a k' a' k'' a''. simpl.
    intros ->%Nat.eqb_eq ->%Nat.eqb_eq. apply Nat.eqb_refl.
Qed.

Lemma Example_engine_copies_registry : registry_ok ExampleMore.engine_copies.
Proof.
  split.
  - intros k x Hx. simpl in Hx. each_object Hx; simpl; split; (reflexivity || lia).
  - intros k x Hx. simpl in Hx. each_object Hx; simpl; repeat constructor.
  - reflexivity.
  - intros k c Hc. simpl in Hc. each_object Hc. reflexivity.
Qed.

Lemma isSame_symmetric_witness :
  isSame Example.product ExampleMore.product_copy
  = isSame ExampleMore.product_copy Example.product.
Proof.
  apply (@isSame_symmetric Example.library ExampleMore.engine_copies
           Example.product ExampleMore.product_copy
           Example_same_leaves Example_engine_copies_registry);
    reflexivity.
Defined.

Lemma isSame_transitive_witness :
  isSame Example.product Example.product = true.
Proof.
  apply (@isSame_transitive Example.library ExampleMore.engine_copies
           Example.product ExampleMore.product_copy Example.product
           Example_same_leaves Example_engine_copies_registry);
    reflexivity.
Defined.

Lemma has_names_iff_has_one_witness :
  has ExampleMore.symbol_has Example.product (Names ["y"; "x"]) = true <->
  exists n, n ∈ ["y"; "x"] /\
            has ExampleMore.symbol_has Example.product (OneName n) = true.
Proof.
  apply (has_names_iff_has_one ExampleMore.symbol_has).
  intros k a l. destruct a as [v|s|s]; simpl.
  - split; [discriminate | intros (n & _ & [=])].
  - rewrite bool_decide_eq_true. split.
    + intros Hs. exists s. by rewrite String.eqb_refl.
    + intros (n & Hn & ->%String.eqb_eq). done.
  - split; [discriminate | intros (n & _ & [=])].
Defined.

Lemma apply_returns_this_when_unchanged_witness :
  apply ExampleMore.leaf_apply Example.product ret None Example.engine_product
  = Some (Example.product, Example.engine_product) /\
  apply ExampleMore.leaf_apply Example.product ExampleMore.x_to_y None
    Example.engine_product
  = fn (HName "Multiply") [Example.y; Example.two] Example.engine_product.
Proof.
  split.
  - apply (proj1 (@apply_returns_this_when_unchanged Example.library
                    ExampleMore.leaf_apply 30 (HName "Multiply")
                    [Example.x; Example.two] (Some Example.Multiply_def)
                    ret Example.engine_product [Example.x; Example.two]
                    Example.engine_product eq_refl)).
    repeat constructor.
  - apply (proj2 (@apply_returns_this_when_unchanged Example.library
                    ExampleMore.leaf_apply 30 (HName "Multiply")
                    [Example.x; Example.two] (Some Example.Multiply_def)
                    ExampleMore.x_to_y Example.engine_product
                    [Example.y; Example.two] Example.engine_product eq_refl)).
    intros Hall. inversion Hall as [|? ? ? ? Hxy]. discriminate.
Defined.

End StructureExample.

(* ================================================================== *)
(** * isPure *)
(* ================================================================== *)

Section Purity.
Context `{Library}.

Lemma only_purity_changes_refl s : only_purity_changes s s.
Proof. by repeat split. Qed.

Lemma only_purity_changes_trans s s' s'' :
  only_purity_changes s s' -> only_purity_changes s' s'' ->
  only_purity_changes s s''.
Proof.
  intros (? & ? & ? & ? & ? & ? & ?) (? & ? & ? & ? & ? & ? & ?).
  repeat split; congruence.
Qed.

Lemma everyM_frame (p : BoxedExpression -> M bool) xs :
  Forall (fun x => forall s b s', p x s = Some (b, s') ->
                                  only_purity_changes s s') xs ->
  forall s b s', everyM p xs s = Some (b, s') -> only_purity_changes s s'.
Proof.
  induction 1 as [|x xs Hx _ IH]; intros s b s' Hev; simpl in Hev.
  - injection Hev as <- <-. apply only_purity_changes_refl.
  - apply bind_Some in Hev as (bx & s1 & Hpx & Hev).
    apply Hx in Hpx. destruct bx.
    + apply IH in Hev. by apply (only_purity_changes_trans s s1).
    + by injection Hev as <- <-.
Qed.

(** The accessor [isPure] of a function, unfolded. *)
Lemma isPure_function oid h xs d s :
  isPure (BoxedFunction oid h xs d) s =
  if negb (isCanonical s (BoxedFunction oid h xs d)) then Some (false, s)
  else
    match _isPure s !! oid with
    | Some b => Some (b, s)
    | None =>
        match
          match match functionDefinition s (BoxedFunction oid h xs d) with
                | Some d => pure d
                | None => None
                end with
          | Some false => Some (false, s)
          | _ => everyM isPure xs s
          end
        with
        | Some (result, s1) => Some (result, set_isPure oid result s1)
        | None => None
        end
    end.
Proof.
  cbn [isPure]. unfold get_engine, get_state, put_engine, put_state, bind, ret.
  destruct (negb _); [reflexivity|].
  destruct (_isPure s !! oid); [reflexivity|].
  destruct (match functionDefinition s _ with Some d0 => pure d0 | None => None end)
    as [[|]|]; try reflexivity.
Qed.

Lemma isPure_frame :
  (forall k a s b s', atom_isPure k a s = Some (b, s') -> only_purity_changes s s') ->
  forall e s b s', isPure e s = Some (b, s') -> only_purity_changes s s'.
Proof.
  intros Hleaf e.
  induction e as [oid a | oid n xs d IH | oid he xs d _ IH]
    using BoxedExpression_ind; intros s b s' Hp.
  - by apply (Hleaf oid a s b).
  - rewrite isPure_function in Hp.
    destruct (negb _); [injection Hp as <- <-; apply only_purity_changes_refl|].
    destruct (_isPure s !! oid); [injection Hp as <- <-; apply only_purity_changes_refl|].
    destruct (match match functionDefinition s _ with Some _ => _ | None => _ end with
              | Some false => _ | _ => _ end) as [[r s1]|] eqn:Hops; [|discriminate].
    injection Hp as <- <-.
    assert (Hs1 : only_purity_changes s s1).
    { destruct (match functionDefinition s _ with Some d0 => pure d0 | None => None end)
        as [[|]|].
      - by apply (everyM_frame isPure xs IH s r).
      - injection Hops as <- <-. apply only_purity_changes_refl.
      - by apply (everyM_frame isPure xs IH s r). }
    apply (only_purity_changes_trans s s1); [done|]. by repeat split.
  - rewrite isPure_function in Hp.
    destruct (negb _); [injection Hp as <- <-; apply only_purity_changes_refl|].
    destruct (_isPure s !! oid); [injection Hp as <- <-; apply only_purity_changes_refl|].
    destruct (match match functionDefinition s _ with Some _ => _ | None => _ end with
              | Some false => _ | _ => _ end) as [[r s1]|] eqn:Hops; [|discriminate].
    injection Hp as <- <-.
    assert (Hs1 : only_purity_changes s s1).
    { destruct (match functionDefinition s _ with Some d0 => pure d0 | None => None end)
        as [[|]|].
      - by apply (everyM_frame isPure xs IH s r).
      - injection Hops as <- <-. apply only_purity_changes_refl.
      - by apply (everyM_frame isPure xs IH s r). }
    apply (only_purity_changes_trans s s1); [done|]. by repeat split.
Qed.

(** X11 -- The accessor [isPure] of a function changes nothing but the
    caches of purity (no object, no canonical form, no scope), and its
    answer is cached: asked again, it gives the same answer and changes
    nothing.  The leaf classes are asked to change nothing but these
    caches either. *)
Theorem isPure_is_cached oid h xs d s b s' :
  (forall k a s b s', atom_isPure k a s = Some (b, s') -> only_purity_changes s s') ->
  isPure (BoxedFunction oid h xs d) s = Some (b, s') ->
  only_purity_changes s s' /\
  isPure (BoxedFunction oid h xs d) s' = Some (b, s').
Proof.
  intros Hleaf Hp.
  pose proof (isPure_frame Hleaf _ s b s' Hp) as Hframe.
  split; [exact Hframe|]. destruct Hframe as (_ & _ & Hcan & _).
  rewrite isPure_function in Hp. rewrite isPure_function.
  assert (Hflag : isCanonical s' (BoxedFunction oid h xs d)
                  = isCanonical s (BoxedFunction oid h xs d)).
  { unfold isCanonical. by rewrite Hcan. }
  rewrite Hflag.
  destruct (negb _); [by injection Hp as <- <-|].
  destruct (_isPure s !! oid) as [b0|] eqn:Hcache.
  { injection Hp as <- <-. by rewrite Hcache. }
  destruct (match match functionDefinition s _ with Some _ => _ | None => _ end with
            | Some false => _ | _ => _ end) as [[r s1]|]; [|discriminate].
  injection Hp as <- <-. simpl. by rewrite lookup_insert_eq.
Qed.

End Purity.

Section PurityExample.
#[local] Existing Instance Example.library.

Lemma isPure_is_cached_witness :
  only_purity_changes Example.engine_product
    (set_isPure 30 true Example.engine_product) /\
  isPure Example.product (set_isPure 30 true Example.engine_product)
  = Some (true, set_isPure 30 true Example.engine_product).
Proof.
  apply (@isPure_is_cached Example.library 30 (HName "Multiply")
           [Example.x; Example.two] (Some Example.Multiply_def)
           Example.engine_product true).
  - intros k a s b s' [= <- <-]. apply only_purity_changes_refl.
  - reflexivity.
Defined.

End PurityExample.

(* ================================================================== *)
(** * The predicates on the sign *)
(* ================================================================== *)

Section SignPredicatesTheorems.
Context `{Library}.

(** X12 -- The predicates on the sign of a function are consistent with
    one another.  When [sgn] is a number, exactly one of [isNegative],
    [isZero] and [isPositive] is [true], and [isNonNegative], [isNotZero]
    and [isNonPositive] are their negations; when [sgn] is [null] (never
    a sign) all six are [false], [isZero] and [isNotZero] alike; when it
    is [undefined] all six are [undefined]. *)
Theorem sign_predicates_are_consistent fuel oid h xs d s sg s' :
  sgn fuel (BoxedFunction oid h xs d) s = Some (sg, s') ->
  exists neg zero pos nonneg notzero nonpos,
    isNegative fuel (BoxedFunction oid h xs d) s = Some (neg, s') /\
    isZero fuel (BoxedFunction oid h xs d) s = Some (zero, s') /\
    isPositive fuel (BoxedFunction oid h xs d) s = Some (pos, s') /\
    isNonNegative fuel (BoxedFunction oid h xs d) s = Some (nonneg, s') /\
    isNotZero fuel (BoxedFunction oid h xs d) s = Some (notzero, s') /\
    isNonPositive fuel (BoxedFunction oid h xs d) s = Some (nonpos, s') /\
    match sg with
    | Sign z =>
        exists n z0 p,
          neg = Some n /\ zero = Some z0 /\ pos = Some p /\
          nonneg = Some (negb n) /\ notzero = Some (negb z0) /\
          nonpos = Some (negb p) /\
          (n = true /\ z0 = false /\ p = false \/
           n = false /\ z0 = true /\ p = false \/
           n = false /\ z0 = false /\ p = true)
    | SgnNull =>
        neg = Some false /\ zero = Some false /\ pos = Some false /\
        nonneg = Some false /\ notzero = Some false /\ nonpos = Some false
    | SgnUndefined =>
        neg = None /\ zero = None /\ pos = None /\
        nonneg = None /\ notzero = None /\ nonpos = None
    end.
Proof.
  intros Hsgn.
  unfold isNegative, isZero, isZero_with, isPositive, isNonNegative, isNotZero,
    isNonPositive, bind. rewrite Hsgn.
  destruct sg as [z| |]; simpl; do 6 eexists; repeat (split; [reflexivity|]).
  - exists (z <? 0)%Z, (z =? 0)%Z, (0 <? z)%Z.
    repeat (split; [first [reflexivity | f_equal; lia]|]).
    lia.
  - done.
  - done.
Qed.

End SignPredicatesTheorems.

(* ================================================================== *)
(** * sgn of a product and of a sum of operands of known sign *)
(* ================================================================== *)

Section SignOfKnown.
Context `{Library}.

Lemma mapM_cons_Some {A B} (f : A -> M B) x xs s ys s' :
  mapM f (x :: xs) s = Some (ys, s') <->
  exists y s1 ys', f x s = Some (y, s1) /\ mapM f xs s1 = Some (ys', s') /\
                   ys = y :: ys'.
Proof.
  cbn [mapM]. rewrite bind_Some. split.
  - intros (y & s1 & Hy & Hrest). apply bind_Some in Hrest as (ys' & s2 & Hys & Hret).
    injection Hret as <- <-. eauto 10.
  - intros (y & s1 & ys' & Hy & Hys & ->). exists y, s1. split; [done|].
    apply bind_Some. eauto.
Qed.

Lemma product_of_known_signs sgn_ xs :
  forall zs a s s',
    mapM sgn_ xs s = Some (map Sign zs, s') ->
    product_of_signs sgn_ xs (Some a) s
    = Some (Some (a * fold_right Z.mul 1%Z zs)%Z, s').
Proof.
  induction xs as [|x xs IH]; intros zs a s s' Hmap.
  - simpl in Hmap. injection Hmap as Hzs <-. destruct zs; [|discriminate].
    simpl. unfold ret. do 3 f_equal. lia.
  - apply mapM_cons_Some in Hmap as (y & s1 & ys' & Hy & Hys & Heq).
    destruct zs as [|z zs]; [discriminate|]. injection Heq as <- <-.
    rewrite product_of_signs_cons. unfold bind. rewrite Hy. simpl.
    rewrite (IH zs (a * z)%Z s1 s' Hys). do 3 f_equal. lia.
Qed.

(** X13 -- The sign of a canonical product whose operands all have a
    known sign is the sign of the product of their signs: [-1], [0] or
    [+1]; the empty product has the sign [+1]. *)
Theorem sgn_Multiply_of_known_signs fuel oid xs d s zs s' :
  isCanonical s (BoxedFunction oid (HName "Multiply") xs d) = true ->
  mapM (sgn fuel) xs s = Some (map Sign zs, s') ->
  sgn (S fuel) (BoxedFunction oid (HName "Multiply") xs d) s
  = Some (Sign (Z.sgn (fold_right Z.mul 1%Z zs)), s').
Proof.
  intros Hcanon Hmap.
  cbn [sgn]. unfold get_engine, get_state. unfold bind at 1.
  rewrite Hcanon. cbn [negb head_is].
  change (String.eqb "Multiply" "Negate") with false.
  change (String.eqb "Multiply" "Multiply") with true.
  cbv iota. unfold bind at 1.
  rewrite (product_of_known_signs _ _ _ _ _ _ Hmap). unfold ret.
  rewrite Z.mul_1_l. by destruct (fold_right Z.mul 1%Z zs).
Qed.

Lemma filter_all_length {A} (p : A -> bool) (l : list A) :
  (length (List.filter p l) =? length l)%nat = forallb p l.
Proof.
  induction l as [|x l IH]; simpl; [reflexivity|].
  destruct (p x); simpl; [exact IH|].
  pose proof (List.filter_length_le p l).
  apply Nat.eqb_neq. lia.
Qed.

Lemma count_known_signs sgn_ xs :
  forall zs c s s',
    mapM sgn_ xs s = Some (map Sign zs, s') ->
    count_signs sgn_ xs c s
    = Some ((c.1.1 + length (List.filter (fun z => (0 <? z)%Z) zs),
             c.1.2 + length (List.filter (fun z => (z <? 0)%Z) zs),
             c.2 + length (List.filter (fun z => (z =? 0)%Z) zs))%nat, s').
Proof.
  induction xs as [|x xs IH]; intros zs [[p n] z0] s s' Hmap.
  - simpl in Hmap. injection Hmap as Hzs <-. destruct zs; [|discriminate].
    simpl. unfold ret. by rewrite !Nat.add_0_r.
  - apply mapM_cons_Some in Hmap as (y & s1 & ys' & Hy & Hys & Heq).
    destruct zs as [|z zs]; [discriminate|]. injection Heq as <- <-.
    cbn [count_signs]. unfold bind at 1. rewrite Hy.
    etransitivity; [apply (IH zs _ s1 s' Hys)|].
    cbn [List.filter fst snd].
    destruct (0 <? z)%Z, (z <? 0)%Z, (z =? 0)%Z; cbn [length];
      rewrite <- ?Nat.add_succ_comm; reflexivity.
Qed.

(** X14 -- The sign of a canonical sum whose operands all have a known
    sign: [0] when every operand is zero (the empty sum too), [+1] when
    every operand is positive, [-1] when every operand is negative, and
    [null] in every other case, a sum of a positive and a zero operand
    included. *)
Theorem sgn_Add_of_known_signs fuel oid xs d s zs s' :
  isCanonical s (BoxedFunction oid (HName "Add") xs d) = true ->
  mapM (sgn fuel) xs s = Some (map Sign zs, s') ->
  sgn (S fuel) (BoxedFunction oid (HName "Add") xs d) s
  = Some (if forallb (fun z => (z =? 0)%Z) zs then Sign 0
          else if forallb (fun z => (0 <? z)%Z) zs then Sign 1
          else if forallb (fun z => (z <? 0)%Z) zs then Sign (-1)
          else SgnNull, s').
Proof.
  intros Hcanon Hmap.
  assert (Hlen : length xs = length zs).
  { clear -Hmap. revert zs s Hmap.
    induction xs as [|x xs IH]; intros zs s Hmap.
    - simpl in Hmap. injection Hmap as Hzs _. by destruct zs.
    - apply mapM_cons_Some in Hmap as (y & s1 & ys' & Hy & Hys & Heq).
      destruct zs as [|z zs]; [discriminate|]. injection Heq as <- <-.
      simpl. f_equal. eauto. }
  cbn [sgn]. unfold get_engine, get_state. unfold bind at 1.
  rewrite Hcanon. cbn [negb head_is].
  change (String.eqb "Add" "Negate") with false.
  change (String.eqb "Add" "Multiply") with false.
  change (String.eqb "Add" "Add") with true.
  cbv iota zeta. unfold bind at 1.
  rewrite (count_known_signs _ _ _ _ _ _ Hmap). unfold ret. simpl.
  rewrite Hlen, !filter_all_length. reflexivity.
Qed.

End SignOfKnown.

Section SignExample.
#[local] Existing Instance Example.library.

Lemma sign_predicates_are_consistent_witness :
  exists neg zero pos nonneg notzero nonpos,
    isNegative 2 ExampleSigns.two_times_one ExampleSigns.engine
    = Some (neg, ExampleSigns.engine) /\
    isZero 2 ExampleSigns.two_times_one ExampleSigns.engine
    = Some (zero, ExampleSigns.engine) /\
    isPositive 2 ExampleSigns.two_times_one ExampleSigns.engine
    = Some (pos, ExampleSigns.engine) /\
    isNonNegative 2 ExampleSigns.two_times_one ExampleSigns.engine
    = Some (nonneg, ExampleSigns.engine) /\
    isNotZero 2 ExampleSigns.two_times_one ExampleSigns.engine
    = Some (notzero, ExampleSigns.engine) /\
    isNonPositive 2 ExampleSigns.two_times_one ExampleSigns.engine
    = Some (nonpos, ExampleSigns.engine) /\
    exists n z0 p,
      neg = Some n /\ zero = Some z0 /\ pos = Some p /\
      nonneg = Some (negb n) /\ notzero = Some (negb z0) /\
      nonpos = Some (negb p) /\
      (n = true /\ z0 = false /\ p = false \/
       n = false /\ z0 = true /\ p = false \/
       n = false /\ z0 = false /\ p = true).
Proof.
  apply (@sign_predicates_are_consistent Example.library 2 35 (HName "Multiply")
           [Example.two; Example.one] (Some Example.Multiply_def)
           ExampleSigns.engine (Sign 1) ExampleSigns.engine).
  vm_compute. reflexivity.
Defined.

Lemma sgn_Multiply_of_known_signs_witness :
  sgn 2 ExampleSigns.two_times_one ExampleSigns.engine
  = Some (Sign 1, ExampleSigns.engine).
Proof.
  apply (@sgn_Multiply_of_known_signs Example.library 1 35
           [Example.two; Example.one] (Some Example.Multiply_def)
           ExampleSigns.engine [1; 1]%Z ExampleSigns.engine).
  - vm_compute. reflexivity.
  - vm_compute. reflexivity.
Defined.

Lemma sgn_Add_of_known_signs_witness :
  sgn 2 ExampleSigns.one_plus_two ExampleSigns.engine
  = Some (Sign 1, ExampleSigns.engine).
Proof.
  apply (@sgn_Add_of_known_signs Example.library 1 36
           [Example.one; Example.two] (Some Example.Add_def)
           ExampleSigns.engine [1; 1]%Z ExampleSigns.engine).
  - vm_compute. reflexivity.
  - vm_compute. reflexivity.
Defined.

End SignExample.

(* ================================================================== *)
(** * lambda: the substitution of the arguments *)
(* ================================================================== *)

Section LambdaKeys.

(** The decimal digits of a number do not start with a character that is
    not a digit, and there is at least one. *)
Lemma pretty_N_go_ne_char (c : ascii) x :
  (forall d, pretty_N_char d <> c) ->
  forall s s', s <> String c s' -> pretty_N_go x s <> String c s'.
Proof.
  intros Hc. induction (N.lt_wf_0 x) as [x _ IH]; intros s s' Hs.
  assert (x = 0 \/ 0 < x)%N as [->|Hx] by lia.
  - by rewrite pretty_N_go_0.
  - rewrite pretty_N_go_step by done. apply IH.
    { by apply N.div_lt. }
    intros [= Hd _]. by apply (Hc (x `mod` 10)%N).
Qed.

Lemma pretty_N_go_ne_empty x :
  forall s, s <> "" -> pretty_N_go x s <> "".
Proof.
  induction (N.lt_wf_0 x) as [x _ IH]; intros s Hs.
  assert (x = 0 \/ 0 < x)%N as [->|Hx] by lia.
  - by rewrite pretty_N_go_0.
  - rewrite pretty_N_go_step by done. apply IH; [by apply N.div_lt | done].
Qed.

Lemma pretty_nat_ne_char (c : ascii) (k : nat) s' :
  (forall d, pretty_N_char d <> c) -> pretty k <> String c s'.
Proof.
  intros Hc. unfold pretty, pretty_nat, pretty, pretty_N.
  destruct (decide (N.of_nat k = 0%N)).
  - intros [= Hd _]. by apply (Hc 0%N).
  - by apply pretty_N_go_ne_char.
Qed.

Lemma pretty_nat_ne_empty (k : nat) : pretty k <> "".
Proof.
  unfold pretty, pretty_nat, pretty, pretty_N.
  destruct (decide (N.of_nat k = 0%N)); [done|].
  rewrite pretty_N_go_step by lia. by apply pretty_N_go_ne_empty.
Qed.

Lemma not_a_digit (c : ascii) :
  c = "_"%char \/ c = "#"%char -> forall d, pretty_N_char d <> c.
Proof.
  intros [-> | ->] d; unfold pretty_N_char; repeat case_match; discriminate.
Qed.

(** The keys [_1], [_2], ... are different from [__], [_#] and [_], and
    from one another. *)
Lemma numbered_key_inj (k k' : nat) :
  "_" +:+ pretty k = "_" +:+ pretty k' -> k = k'.
Proof. intros [= Hp]. by apply (inj pretty). Qed.

Lemma numbered_key_ne_named (k : nat) :
  "_" +:+ pretty k <> "__" /\ "_" +:+ pretty k <> "_#" /\
  "_" +:+ pretty k <> "_".
Proof.
  split; [|split]; intros [= Hp].
  - by apply (pretty_nat_ne_char "_" k "") in Hp; [|apply not_a_digit; left].
  - by apply (pretty_nat_ne_char "#" k "") in Hp; [|apply not_a_digit; right].
  - by apply pretty_nat_ne_empty in Hp.
Qed.

Lemma lambda_args_numbered args :
  forall n (sub : Substitution) k,
    lambda_args n args sub !! ("_" +:+ pretty k) =
    if decide (n <= k < n + length args)%nat then args !! (k - n)%nat
    else sub !! ("_" +:+ pretty k).
Proof.
  induction args as [|op args IH]; intros n sub k; simpl.
  - destruct (decide _); [lia | reflexivity].
  - rewrite IH. destruct (decide (S n <= k < S n + length args)%nat).
    + rewrite decide_True by lia.
      replace (k - n)%nat with (S (k - S n)) by lia. reflexivity.
    + destruct (decide (k = n)) as [->|Hk].
      * rewrite decide_True by lia. rewrite Nat.sub_diag. simpl.
        apply lookup_insert_eq.
      * rewrite decide_False by lia. rewrite lookup_insert_ne; [reflexivity|].
        intros Heq%numbered_key_inj. lia.
Qed.

Lemma lambda_args_named args :
  forall n (sub : Substitution) key,
    (forall k : nat, key <> "_" +:+ pretty k) ->
    lambda_args n args sub !! key = sub !! key.
Proof.
  induction args as [|op args IH]; intros n sub key Hkey; simpl; [reflexivity|].
  rewrite IH by done. apply lookup_insert_ne. intros Heq. by apply (Hkey n).
Qed.

End LambdaKeys.

Section Lambda.
Context `{Library}.

(** X15 -- [lambda] substitutes the arguments in the body through the
    wildcards: [_k] is the [k]-th argument, counted from 1 ([_0] and the
    numbers past the last argument are unbound), [_] is the first
    argument, [__] the tuple of the arguments and [_#] their number. *)
Theorem lambda_binds_the_arguments fn_ args s t s1 n s2 :
  tuple args s = Some (t, s1) ->
  number (MachineValue (js_of_Z (Z.of_nat (length args)))) s1 = Some (n, s2) ->
  exists sub : Substitution,
    lambda fn_ args s = subs fn_ sub s2 /\
    sub !! "__" = Some t /\ sub !! "_#" = Some n /\
    sub !! "_" = args !! 0%nat /\
    forall k : nat,
      sub !! ("_" +:+ pretty k) =
      match k with O => None | S k' => args !! k' end.
Proof.
  intros Ht Hn.
  set (sub0 := <["_#" := n]> (<["__" := t]> (∅ : Substitution))).
  set (sub1 := lambda_args 1 args sub0).
  assert (Hnum : forall k : nat,
             sub1 !! ("_" +:+ pretty k) =
             match k with O => None | S k' => args !! k' end).
  { intros k. unfold sub1. rewrite lambda_args_numbered.
    destruct (numbered_key_ne_named k) as (H1 & H2 & _).
    destruct k as [|k].
    - rewrite decide_False by lia. unfold sub0.
      rewrite !lookup_insert_ne by done. apply lookup_empty.
    - destruct (decide (1 <= S k < 1 + length args)%nat).
      + by rewrite Nat.sub_1_r.
      + unfold sub0. rewrite !lookup_insert_ne by done. rewrite lookup_empty.
        symmetry. apply lookup_ge_None. lia. }
  assert (Hnamed : forall key, (forall k : nat, key <> "_" +:+ pretty k) ->
                               sub1 !! key = sub0 !! key).
  { intros key Hkey. unfold sub1. by apply lambda_args_named. }
  assert (H1 : sub1 !! "_1" = args !! 0%nat) by apply (Hnum 1%nat).
  exists (match sub1 !! "_1" with Some v => <["_" := v]> sub1 | None => sub1 end).
  split; [|split; [|split; [|split]]].
  - unfold lambda, bind. rewrite Ht, Hn. reflexivity.
  - assert (Ht' : sub1 !! "__" = Some t).
    { rewrite Hnamed; [reflexivity|].
      intros k Hk. symmetry in Hk. by apply numbered_key_ne_named in Hk. }
    destruct (sub1 !! "_1"); [by rewrite lookup_insert_ne | done].
  - assert (Hn' : sub1 !! "_#" = Some n).
    { rewrite Hnamed; [reflexivity|].
      intros k Hk. symmetry in Hk.
      by apply (proj1 (proj2 (numbered_key_ne_named k))) in Hk. }
    destruct (sub1 !! "_1"); [by rewrite lookup_insert_ne | done].
  - rewrite <- H1. destruct (sub1 !! "_1") eqn:Hv; [by rewrite lookup_insert_eq|].
    rewrite Hnamed; [reflexivity|].
    intros k Hk. symmetry in Hk.
    by apply (proj2 (proj2 (numbered_key_ne_named k))) in Hk.
  - intros k. rewrite <- Hnum.
    destruct (sub1 !! "_1"); [|reflexivity].
    apply lookup_insert_ne. intros Hk.
    by apply (proj2 (proj2 (numbered_key_ne_named k))).
Qed.

End Lambda.

Section LambdaExample.
#[local] Existing Instance Example.library.

Lemma lambda_binds_the_arguments_witness :
  exists t n s2, exists sub : Substitution,
    lambda Example.x [Example.two] Example.engine = subs Example.x sub s2 /\
    sub !! "__" = Some t /\ sub !! "_#" = Some n /\
    sub !! "_" = [Example.two] !! 0%nat /\
    forall k : nat,
      sub !! ("_" +:+ pretty k) =
      match k with O => None | S k' => [Example.two] !! k' end.
Proof.
  eexists _, _, _.
  eapply (@lambda_binds_the_arguments Example.library Example.x [Example.two]
            Example.engine).
  - reflexivity.
  - reflexivity.
Defined.

End LambdaExample.

(* ================================================================== *)
(** * canonical: what the accessor returns *)
(* ================================================================== *)

Section CanonicalMore.
Context `{Library}.

(** X16 -- What the [canonical] accessor returns is canonical or not
    valid: the assertion that [makeCanonicalFunction] makes of the result
    of a handler, [!fn.isValid || fn.isCanonical], holds of the result of
    the accessor itself. *)
Theorem canonical_is_canonical_or_invalid e s c s1 :
  well_behaved ->
  engine_invariant s -> registered s e ->
  canonical e s = Some (c, s1) ->
  isCanonical s1 c = true \/ isValid s1 c = false.
Proof.
  intros Hwb Hinv He Hcan.
  destruct (canonical_good Hwb e s c s1 Hinv He Hcan) as (_ & _ & _ & Hs).
  destruct c as [k h xs d | k a].
  - destruct Hs as [Hself | [_ Hinvalid]]; [left | by right].
    unfold isCanonical. rewrite Hself. apply same_object_refl.
  - left. exact Hs.
Qed.

End CanonicalMore.

Section CanonicalMoreExample.
#[local] Existing Instance Example.library.

Lemma canonical_is_canonical_or_invalid_witness :
  exists c s1,
    canonical Example.unsorted Example.engine_unsorted = Some (c, s1) /\
    (isCanonical s1 c = true \/ isValid s1 c = false).
Proof.
  eexists. eexists. split; [vm_compute; reflexivity|].
  refine (@canonical_is_canonical_or_invalid Example.library
            Example.unsorted Example.engine_unsorted _ _
            Example_well_behaved Example_engine_unsorted_invariant _ _).
  - reflexivity.
  - vm_compute. reflexivity.
Defined.

End CanonicalMoreExample.

(* ================================================================== *)
(** * parseRoot, serializePower and the factors of a product *)
(* ================================================================== *)

Section RootsAndPowers.
Context `{LatexServices}.
Import MathJson LatexSyntax LatexArithmetic.
Variable matchOptionalLatexArgument : Parser -> option Expression * Parser.
Variable matchRequiredLatexArgument : Parser -> option Expression * Parser.

(** X18 -- [parseRoot] never returns [null]: the result is a [Sqrt] with
    one operand when there is no degree and a [Root] with two operands
    when there is one; its first operand is the base, or the error
    marker [['Error', "'missing'"]] when the base is missing or is an
    empty sequence. *)
Theorem parseRoot_is_well_formed parser :
  let degree := fst (matchOptionalLatexArgument parser) in
  let base :=
    fst (matchRequiredLatexArgument (snd (matchOptionalLatexArgument parser))) in
  exists e,
    fst (parseRoot matchOptionalLatexArgument matchRequiredLatexArgument parser)
    = Some e /\
    head_is (Some e) (if degree is Some _ then "Root" else "Sqrt") = true /\
    nops (Some e) = (if degree is Some _ then 2 else 1)%nat /\
    op (Some e) 1 =
    Some (match base with
          | Some b =>
              if isEmptySequence base
              then EFunction [EString "Error"; EString "'missing'"]
              else b
          | None => EFunction [EString "Error"; EString "'missing'"]
          end).
Proof.
  unfold parseRoot.
  destruct (matchOptionalLatexArgument parser) as [degree p1]. simpl.
  destruct (matchRequiredLatexArgument p1) as [base p2]. simpl.
  destruct base as [b|]; [destruct (isEmptySequence (Some b))|];
    destruct degree as [d|]; eexists; (split; [reflexivity|]); done.
Qed.

(** A power whose exponent is a negative number is serialized as
    a quotient: [x^(-1)] as the serialization of [['Divide', '1', x]], and
    [x^(-n)] as that of [['Divide', '1', ['Power', x, n]]]. *)
Theorem serializePower_negative_exponent serialize_ expr n s :
  head_is expr "Sqrt" = false -> head_is expr "Root" = false ->
  machineValue (Some (missingIfEmpty (op expr 2))) = Some n ->
  js_ltb n (js_of_Z 0) = true ->
  serializePower serialize_ expr s =
  serialize_
    (Some (EFunction
             [DIVIDE; EString "1";
              if js_eqb n (js_of_Z (-1)) then missingIfEmpty (op expr 1)
              else EFunction [POWER; missingIfEmpty (op expr 1);
                              ENumber (js_neg n)]])) s.
Proof.
  intros Hsqrt Hroot Hval Hneg. unfold serializePower.
  unfold bind at 1, get_state. rewrite Hsqrt, Hroot, Hval.
  change (default (js_of_Z 1) (Some n)) with n.
  destruct (js_eqb n (js_of_Z (-1))); [reflexivity|]. by rewrite Hneg.
Qed.



End RootsAndPowers.

Section RootsAndPowersExample.
#[local] Existing Instance ExampleLatex.services.
Import MathJson LatexSyntax LatexArithmetic.

Lemma serializePower_negative_exponent_witness :
  serializePower (serialize 3)
    (Some (EFunction [POWER; EString "x"; ENumber (js_of_Z (-2))]))
    ExampleLatex.serializer
  = serialize 3
      (Some (EFunction [DIVIDE; EString "1";
                        EFunction [POWER; EString "x"; ENumber (js_of_Z 2)]]))
      ExampleLatex.serializer.
Proof.
  apply (@serializePower_negative_exponent ExampleLatex.services (serialize 3)
           (Some (EFunction [POWER; EString "x"; ENumber (js_of_Z (-2))]))
           (js_of_Z (-2)) ExampleLatex.serializer);
    reflexivity.
Defined.


End RootsAndPowersExample.

(* ================================================================== *)
(** * The tables of the trigonometry library *)
(* ================================================================== *)

Section TrigonometryTables.
Import Trigonometry.

(** X21 -- The identities by quadrant are consistent: for each of the six
    functions, the identity for [q1 + q2] quarter turns is the identity
    for [q1] quarter turns followed by the identity, for the function it
    gives, for [q2] quarter turns, with the product of the signs. *)
Theorem quarter_turns_compose head q1 q2 :
  head ∈ ["Sin"; "Cos"; "Sec"; "Csc"; "Tan"; "Cot"] ->
  (q1 < 4)%nat -> (q2 < 4)%nat ->
  identity_of head ((q1 + q2) mod 4) =
  ((identity_of head q1).1 * (identity_of (identity_of head q1).2 q2).1,
   (identity_of (identity_of head q1).2 q2).2)%Z.
Proof.
  intros Hhead Hq1 Hq2.
  assert (Hq : forall q, (q < 4)%nat -> q = 0%nat \/ q = 1%nat \/ q = 2%nat \/ q = 3%nat)
    by (intros; lia).
  destruct (Hq q1 Hq1) as [-> | [-> | [-> | ->]]];
    destruct (Hq q2 Hq2) as [-> | [-> | [-> | ->]]];
    repeat (apply elem_of_cons in Hhead as [-> | Hhead]; [reflexivity|]);
    by apply elem_of_nil in Hhead.
Qed.

Section Inverse.
Variable ce_symbol : string -> M BoxedExpression.
Variable ce_symbol_of_member : string -> M BoxedExpression.

(** X22 -- [processInverseFunction] takes the symbol of [Sin], [Tan],
    [Sec], [Sinh], [Cosh], [Tanh] or [Csch] to what [ce.symbol] makes of
    the name of the inverse function, [Arcsin], [Arctan], [Arcsec],
    [Arsinh], [Arcosh], [Artanh] or [Arcsch], and the symbols of these
    inverse functions back: applied to the result, it makes the symbol of
    the first name again.  An expression that is not a symbol is returned
    as it is. *)
Theorem processInverseFunction_twice e s h h' :
  (forall n s e s', ce_symbol n s = Some (e, s') -> symbol e = Some n) ->
  (h, h') ∈ [("Sin", "Arcsin"); ("Tan", "Arctan"); ("Sec", "Arcsec");
             ("Sinh", "Arsinh"); ("Cosh", "Arcosh"); ("Tanh", "Artanh");
             ("Csch", "Arcsch");
             ("Arcsin", "Sin"); ("Arctan", "Tan"); ("Arcsec", "Sec");
             ("Arsinh", "Sinh"); ("Arcosh", "Cosh"); ("Artanh", "Tanh");
             ("Arcsch", "Csch")] ->
  symbol e = Some h ->
  processInverseFunction ce_symbol ce_symbol_of_member e s = ce_symbol h' s /\
  (forall e1 s1,
      ce_symbol h' s = Some (e1, s1) ->
      symbol e1 = Some h' /\
      processInverseFunction ce_symbol ce_symbol_of_member e1 s1
      = ce_symbol h s1) /\
  (forall x s, symbol x = None ->
               processInverseFunction ce_symbol ce_symbol_of_member x s
               = Some (x, s)).
Proof.
  intros Hsym Hh He.
  assert (Hstep : forall a b x s,
            (a, b) ∈ [("Sin", "Arcsin"); ("Tan", "Arctan"); ("Sec", "Arcsec");
                      ("Sinh", "Arsinh"); ("Cosh", "Arcosh"); ("Tanh", "Artanh");
                      ("Csch", "Arcsch");
                      ("Arcsin", "Sin"); ("Arctan", "Tan"); ("Arcsec", "Sec");
                      ("Arsinh", "Sinh"); ("Arcosh", "Cosh"); ("Artanh", "Tanh");
                      ("Arcsch", "Csch")] ->
            symbol x = Some a ->
            processInverseFunction ce_symbol ce_symbol_of_member x s
            = ce_symbol b s).
  { clear. intros a b x s Hab Hx. unfold processInverseFunction. rewrite Hx.
    repeat (apply elem_of_cons in Hab as [[= -> ->] | Hab]; [reflexivity|]).
    by apply elem_of_nil in Hab. }
  assert (Hback : (h', h) ∈ [("Sin", "Arcsin"); ("Tan", "Arctan"); ("Sec", "Arcsec");
                      ("Sinh", "Arsinh"); ("Cosh", "Arcosh"); ("Tanh", "Artanh");
                      ("Csch", "Arcsch");
                      ("Arcsin", "Sin"); ("Arctan", "Tan"); ("Arcsec", "Sec");
                      ("Arsinh", "Sinh"); ("Arcosh", "Cosh"); ("Artanh", "Tanh");
                      ("Arcsch", "Csch")]).
  { clear -Hh.
    repeat (apply elem_of_cons in Hh as [[= -> ->] | Hh];
            [rewrite !elem_of_cons; tauto|]).
    by apply elem_of_nil in Hh. }
  split; [by apply (Hstep h h')|]. split.
  - intros e1 s1 H1. pose proof (Hsym _ _ _ _ H1) as He1.
    split; [exact He1 | by apply (Hstep h' h)].
  - intros x s0 Hx. unfold processInverseFunction. by rewrite Hx.
Qed.

End Inverse.

End TrigonometryTables.

Section TrigonometryExample.
Import Trigonometry.

Lemma quarter_turns_compose_witness :
  identity_of "Sin" ((1 + 3) mod 4) =
  ((identity_of "Sin" 1).1 * (identity_of (identity_of "Sin" 1).2 3).1,
   (identity_of (identity_of "Sin" 1).2 3).2)%Z.
Proof.
  apply quarter_turns_compose; [|lia..].
  apply elem_of_cons. by left.
Defined.

Lemma processInverseFunction_twice_witness :
  processInverseFunction (fun n => Example.new_atom (ASymbol n))
    (fun _ => diverge) (BoxedAtom 15 (ASymbol "Tan")) Example.engine
  = Example.new_atom (ASymbol "Arctan") Example.engine /\
  forall e1 s1,
    Example.new_atom (ASymbol "Arctan") Example.engine = Some (e1, s1) ->
    symbol e1 = Some "Arctan" /\
    processInverseFunction (fun n => Example.new_atom (ASymbol n))
      (fun _ => diverge) e1 s1
    = Example.new_atom (ASymbol "Tan") s1.
Proof.
  destruct (processInverseFunction_twice
              (fun n => Example.new_atom (ASymbol n)) (fun _ => diverge)
              (BoxedAtom 15 (ASymbol "Tan")) Example.engine "Tan" "Arctan")
    as (H1 & H2 & _).
  - by intros n s e s' [= <- <-].
  - rewrite !elem_of_cons. auto.
  - reflexivity.
  - split; [exact H1 | exact H2].
Defined.

End TrigonometryExample.
